(** * DeepL multi-format translator: the translation pipeline, embedded and verified

    The development follows the JavaScript sources:
    - [utils.js]       placeholder protection ([protectPlaceholders],
                       [restorePlaceholders], [shouldTranslate]);
    - [translator.js]  the DeepL client ([translateWithRetry], [translateText],
                       [translateBatch]);
    - [jsonHandler.js], [yamlHandler.js], [tomlHandler.js], [xmlHandler.js]
                       the unit extractors ([collectTranslatableValues]) and the
                       incremental translate-and-rewrite drivers, over documents
                       that are trees and over the heap of shared objects.

    JavaScript strings are sequences of 16-bit code units; they are modelled as
    lists of [N].  Effects (the remote service, awaited delays, the file system,
    the progress sink) are threaded through an explicit [World]. *)

From Stdlib Require Import ZArith NArith List Bool Lia Ascii String Decimal DecimalNat.
From stdpp Require Import base tactics option list numbers gmap sorting.
From Equations Require Import Equations.

Local Open Scope N_scope.

(** ** JavaScript strings and the string primitives the sources use *)

Module JS.

(** A string value: its UTF-16 code units. *)
Abbreviation jsstring := (list N).

(** The code unit of an ASCII character, and the string of an ASCII literal. *)
Definition ch (a : ascii) : N := N_of_ascii a.

Definition js (s : string) : jsstring := map N_of_ascii (list_ascii_of_string s).
Global Arguments js : simpl never.

(** ECMAScript [WhiteSpace] and [LineTerminator] code units: what
    [String.prototype.trim] strips. *)
Definition whitespace_units : list N :=
  [9; 10; 11; 12; 13; 32; 160; 5760;
   8192; 8193; 8194; 8195; 8196; 8197; 8198; 8199; 8200; 8201; 8202;
   8232; 8233; 8239; 8287; 12288; 65279].

Definition is_whitespace (c : N) : bool := existsb (N.eqb c) whitespace_units.

Fixpoint trimStart (s : jsstring) : jsstring :=
  match s with
  | [] => []
  | c :: s' => if is_whitespace c then trimStart s' else s
  end.

Definition trimEnd (s : jsstring) : jsstring := rev (trimStart (rev s)).

(** [s.trim()] *)
Definition trim (s : jsstring) : jsstring := trimEnd (trimStart s).

(** Truthiness of a string: only the empty string is falsy. *)
Definition truthy (s : jsstring) : bool :=
  match s with [] => false | _ :: _ => true end.

(** [String(n)] for a non-negative integer: its decimal digits. *)
Fixpoint uint_units (d : Decimal.uint) : jsstring :=
  match d with
  | Nil => []
  | D0 d => 48 :: uint_units d
  | D1 d => 49 :: uint_units d
  | D2 d => 50 :: uint_units d
  | D3 d => 51 :: uint_units d
  | D4 d => 52 :: uint_units d
  | D5 d => 53 :: uint_units d
  | D6 d => 54 :: uint_units d
  | D7 d => 55 :: uint_units d
  | D8 d => 56 :: uint_units d
  | D9 d => 57 :: uint_units d
  end.

Definition decimal (n : nat) : jsstring := uint_units (Nat.to_uint n).

(** [s.startsWith(p)] *)
Fixpoint startsWith (p s : jsstring) : bool :=
  match p, s with
  | [], _ => true
  | _ :: _, [] => false
  | a :: p', b :: s' => (a =? b) && startsWith p' s'
  end.

Definition str_eqb (a b : jsstring) : bool := bool_decide (a = b).

(** The conversion of a string to a [USVString], which [URLSearchParams]
    applies to the names and values it is given: a surrogate code unit that is
    not part of a pair (a leading one followed by a trailing one) becomes
    U+FFFD; every other code unit is kept. *)
Definition is_leading_surrogate (c : N) : bool := (55296 <=? c) && (c <=? 56319).
Definition is_trailing_surrogate (c : N) : bool := (56320 <=? c) && (c <=? 57343).

Fixpoint toUSVString (s : jsstring) : jsstring :=
  match s with
  | [] => []
  | c :: s' =>
      if is_leading_surrogate c then
        match s' with
        | d :: s'' =>
            if is_trailing_surrogate d then c :: d :: toUSVString s''
            else 65533 :: toUSVString s'
        | [] => [65533]
        end
      else if is_trailing_surrogate c then 65533 :: toUSVString s'
      else c :: toUSVString s'
  end.

(** *** Regular expressions

    The fragment of the regular-expression language that the sources use: a
    sequence of one-character atoms (a literal or a character class, possibly
    negated), each taken once or with the greedy [+] quantifier, under the
    flags [g] (always, through [matchAll]) and optionally [i]. *)

Record charclass : Type := CharClass {
  negated : bool;
  ranges : list (N * N)      (* inclusive ranges; a single character is (c, c) *)
}.

Inductive atom : Type :=
| Lit (c : N)
| Class (cls : charclass).

Inductive quantified : Type :=
| Once (a : atom)
| OneOrMore (a : atom).

Record regex : Type := Regex {
  body : list quantified;
  ignoreCase : bool
}.

(** [Canonicalize] for a pattern without the [u] flag.  With [i], a character
    is compared through its upper case; a character outside ASCII is never
    canonicalized into ASCII, so for the ASCII classes used here only the
    letters a-z move. *)
Definition canonicalize (ic : bool) (c : N) : N :=
  if ic && (97 <=? c) && (c <=? 122) then c - 32 else c.

Definition range_members (r : N * N) : list N :=
  map (fun k => fst r + N.of_nat k) (seq 0 (N.to_nat (snd r + 1 - fst r))).

(** A class matches [c] when some member has the same canonical form;
    a negated class inverts the answer. *)
Definition class_matches (ic : bool) (cls : charclass) (c : N) : bool :=
  xorb (negated cls)
       (existsb (fun r => existsb (fun m => canonicalize ic m =? canonicalize ic c)
                                  (range_members r))
                (ranges cls)).

Definition atom_matches (ic : bool) (a : atom) (c : N) : bool :=
  match a with
  | Lit l => canonicalize ic l =? canonicalize ic c
  | Class cls => class_matches ic cls c
  end.

(** Backtracking match of a pattern body at the start of [s]: the length of
    the match.  [+] is greedy: it first tries to take one more character and
    falls back to the rest of the pattern. *)
Fixpoint match_here (ic : bool) (p : list quantified) : jsstring -> option nat :=
  match p with
  | [] => fun _ => Some 0%nat
  | Once a :: rest => fun s =>
      match s with
      | c :: s' => if atom_matches ic a c then S <$> match_here ic rest s' else None
      | [] => None
      end
  | OneOrMore a :: rest =>
      fix more (s : jsstring) : option nat :=
        match s with
        | c :: s' =>
            if atom_matches ic a c then
              match more s' with
              | Some n => Some (S n)
              | None => S <$> match_here ic rest s'
              end
            else None
        | [] => None
        end
  end.

(** The global scan behind [matchAll]: matches are searched left to right,
    each search resuming where the previous match ended (one further after an
    empty match).  [skip] counts the characters still covered by the last
    match.  Only [match[0]], the matched text, is kept: the sources use
    nothing else of a match. *)
Fixpoint scan (re : regex) (skip : nat) (s : jsstring) : list jsstring :=
  match skip with
  | S k => match s with [] => [] | _ :: s' => scan re k s' end
  | O =>
      match match_here (ignoreCase re) (body re) s with
      | Some n =>
          take n s ::
          match s with [] => [] | _ :: s' => scan re (Nat.pred n) s' end
      | None =>
          match s with [] => [] | _ :: s' => scan re 0 s' end
      end
  end.

(** [[...s.matchAll(re)].map(m => m[0])] *)
Definition matchAll (re : regex) (s : jsstring) : list jsstring := scan re 0 s.

(** *** [String.prototype.replace] with a string pattern *)

(** The text before and after the first occurrence of [pat] in [s]
    ([s.indexOf(pat)]), if there is one. *)
Fixpoint split_first (pat s : jsstring) : option (jsstring * jsstring) :=
  if startsWith pat s then Some ([], drop (length pat) s)
  else match s with
       | [] => None
       | c :: s' => (fun ab => (c :: fst ab, snd ab)) <$> split_first pat s'
       end.

(** [GetSubstitution] for a match without capture groups: in the replacement
    text, [$$] stands for a dollar sign, [$&] for the matched text, [$`] for
    the text before the match and [$'] for the text after it; every other
    character, a lone [$] included, stands for itself. *)
Fixpoint getSubstitution (matched before after rep : jsstring) : jsstring :=
  match rep with
  | [] => []
  | c :: rep' =>
      if c =? 36 then
        match rep' with
        | d :: rep'' =>
            if d =? 36 then 36 :: getSubstitution matched before after rep''
            else if d =? 38 then matched ++ getSubstitution matched before after rep''
            else if d =? 96 then before ++ getSubstitution matched before after rep''
            else if d =? 39 then after ++ getSubstitution matched before after rep''
            else c :: getSubstitution matched before after rep'
        | [] => [c]
        end
      else c :: getSubstitution matched before after rep'
  end.

(** [s.replace(pat, rep)] for strings [pat] and [rep]: the first occurrence
    only, the replacement text expanded. *)
Definition replace (s pat rep : jsstring) : jsstring :=
  match split_first pat s with
  | Some (before, after) => before ++ getSubstitution pat before after rep ++ after
  | None => s
  end.

End JS.

(** ** utils.js: placeholder protection *)

Module Utils.
Import JS.

(** [PROTECTED_PATTERNS]: in this order,
    - [/&[0-9a-fk-or]/gi]    Minecraft colour and format codes,
    - [/%[sdfioxXeEgGcpn]/g] printf-style variables,
    - [/\{[^}]+\}/g]         named placeholders,
    - [/%%/g]                the escaped percent sign. *)
Definition single (a : ascii) : N * N := (ch a, ch a).

Definition PROTECTED_PATTERNS : list regex :=
  [ Regex [Once (Lit (ch "&"));
           Once (Class (CharClass false
                   [(ch "0", ch "9"); (ch "a", ch "f"); (ch "k", ch "o"); single "r"]))]
          true;
    Regex [Once (Lit (ch "%"));
           Once (Class (CharClass false
                   (map single ["s"; "d"; "f"; "i"; "o"; "x"; "X"; "e"; "E";
                                "g"; "G"; "c"; "p"; "n"]%char)))]
          false;
    Regex [Once (Lit (ch "{"));
           OneOrMore (Class (CharClass true [single "}"]));
           Once (Lit (ch "}"))]
          false;
    Regex [Once (Lit (ch "%")); Once (Lit (ch "%"))] false ].

(** One entry of the placeholder map: [{ placeholder, original, index }]. *)
Record entry : Type := Entry {
  placeholder : jsstring;
  original : jsstring;
  index : nat
}.

(** The state the two nested [forEach] loops of [protectPlaceholders] update:
    [protectedText], [placeholderMap] and [placeholderIndex]. *)
Record protecting : Type := Protecting {
  protectedText : jsstring;
  placeholderMap : list entry;
  placeholderIndex : nat
}.

(** The token [`[[PROTECTED_${i}]]`]. *)
Definition token (i : nat) : jsstring :=
  js "[[PROTECTED_" ++ decimal i ++ js "]]".

(** The body of [matches.forEach]: record the match under the next token and
    replace the first occurrence of the matched text by the token. *)
Definition protect_match (st : protecting) (orig : jsstring) : protecting :=
  let tok := token (placeholderIndex st) in
  {| protectedText := replace (protectedText st) orig tok;
     placeholderMap := placeholderMap st ++ [Entry tok orig (placeholderIndex st)];
     placeholderIndex := S (placeholderIndex st) |}.

(** The body of [PROTECTED_PATTERNS.forEach]: the matches are those of the
    pattern in the text as it stands when the pattern's turn comes. *)
Definition protect_pattern (st : protecting) (pattern : regex) : protecting :=
  fold_left protect_match (matchAll pattern (protectedText st)) st.

(** [protectPlaceholders(text)]: the pair [{ text, map }]. *)
Definition protectPlaceholders (text : jsstring) : jsstring * list entry :=
  if negb (truthy text) then ([], [])
  else
    let st := fold_left protect_pattern PROTECTED_PATTERNS (Protecting text [] 0) in
    (protectedText st, placeholderMap st).

(** [restorePlaceholders(text, map)]: the map is walked in reverse. *)
Definition restorePlaceholders (text : jsstring) (map : list entry) : jsstring :=
  if negb (truthy text) || (length map =? 0)%nat then text
  else fold_left (fun restoredText e => replace restoredText (placeholder e) (original e))
                 (rev map) text.

(** [shouldTranslate(text)] *)
Definition shouldTranslate (text : jsstring) : bool :=
  if negb (truthy text) then false
  else if (length (trim text) =? 0)%nat then false
  else if (length (trim (fst (protectPlaceholders text))) =? 0)%nat then false
  else true.

End Utils.

(** ** translator.js: the DeepL client *)

Module Translator.
Import JS Utils.

(** A thrown value: an [Error] object with its message and, for the errors
    of the network layer, the system error [code]. *)
Record js_error : Type := JsError {
  message : jsstring;
  code : option jsstring
}.

(** [new Error(msg)]: no [code] property. *)
Definition Error (msg : jsstring) : js_error := JsError msg None.

(** How an awaited call completes. *)
Inductive completion (A : Type) : Type :=
| Normal (a : A)
| Throw (e : js_error).
Arguments Normal {A} a.
Arguments Throw {A} e.

(** The payload of a successful answer: [data.translations] may be missing. *)
Record translation : Type := Translation {
  detected_source_language : jsstring;
  text : jsstring
}.

Record payload : Type := Payload {
  translations : option (list translation)
}.

(** What [fetch] resolves to: the status line and what reading the body
    gives, as text ([response.text()]) and as JSON ([response.json()]); either
    read can fail. *)
Record response : Type := Response {
  status : nat;
  body_text : completion jsstring;
  body_json : completion payload
}.

(** [response.ok] *)
Definition ok (r : response) : bool := (200 <=? status r)%nat && (status r <=? 299)%nat.

(** [fetch] resolves to a response or rejects with a network error. *)
Inductive fetched : Type :=
| Rejected (e : js_error)
| Resolved (r : response).

(** [createConfig]'s record. *)
Record config : Type := Config {
  apiKey : jsstring;
  sourceLang : jsstring;
  targetLang : jsstring
}.

(** The POST request of one attempt: the address, the [Authorization]
    header and the three fields of the form in the body. *)
Record request : Type := Request {
  url : jsstring;
  authorization : jsstring;
  form_text : jsstring;
  form_source_lang : jsstring;
  form_target_lang : jsstring
}.

(** The remote service: its answer to the [n]-th request issued (counted
    from 0) as a function of that request. *)
Class Remote : Type := respond : nat -> request -> fetched.

(** The observable world: how many requests were sent, the delays awaited
    (in order, in milliseconds), the files on disk, and the updates received
    by the progress sink (current, total). *)
Record World : Type := MkWorld {
  calls : nat;
  slept : list Z;
  disk : gmap (list N) (list N);
  progress : list (nat * nat)
}.

Definition DEEPL_API_URL : jsstring := js "https://api-free.deepl.com/v2/translate".
Definition MAX_RETRIES : nat := 3.
Definition INITIAL_RETRY_DELAY : Z := 1000.
Definition MAX_RETRY_DELAY : Z := 10000.

(** [await fetch(DEEPL_API_URL, {...})]: the body is
    [new URLSearchParams({ text, source_lang, target_lang })], which holds
    each value converted to a [USVString]. *)
Definition fetch `{Remote} (cfg : config) (txt : jsstring) (w : World) : fetched * World :=
  let req := Request DEEPL_API_URL (js "DeepL-Auth-Key " ++ apiKey cfg) (toUSVString txt)
                     (toUSVString (sourceLang cfg)) (toUSVString (targetLang cfg)) in
  (respond (calls w) req,
   MkWorld (S (calls w)) (slept w) (disk w) (progress w)).

(** [await delay(ms)] *)
Definition delay (ms : Z) (w : World) : World :=
  MkWorld (calls w) (slept w ++ [ms]) (disk w) (progress w).

(** [Math.min(INITIAL_RETRY_DELAY * Math.pow(2, attempt - 1), MAX_RETRY_DELAY)];
    [attempt] is at least 1: the function is entered with the default 1 and
    only ever calls itself with [attempt + 1]. *)
Definition retryDelay (attempt : nat) : Z :=
  Z.min (INITIAL_RETRY_DELAY * 2 ^ (Z.of_nat attempt - 1)) MAX_RETRY_DELAY.

(** How the [try] block of one attempt ends: with the translated text, with
    the rate-limit retry, or with a thrown error (handed to [catch]). *)
Inductive tried : Type :=
| Returned (s : jsstring)
| RateLimitRetry
| Thrown (e : js_error).

Definition try_block (attempt : nat) (f : fetched) : tried :=
  match f with
  | Rejected e => Thrown e
  | Resolved r =>
      if (status r =? 429)%nat then
        if (attempt <=? MAX_RETRIES)%nat then RateLimitRetry
        else Thrown (Error (js "Max retries reached due to rate limiting"))
      else if negb (ok r) then
        match body_text r with
        | Throw e => Thrown e
        | Normal errorBody =>
            Thrown (Error (js "DeepL API error (" ++ decimal (status r) ++ js "): "
                           ++ errorBody))
        end
      else
        match body_json r with
        | Throw e => Thrown e
        | Normal data =>
            match translations data with
            | None | Some [] => Thrown (Error (js "No translation returned from DeepL API"))
            | Some (t :: _) => Returned (text t)
            end
        end
  end.

(** The condition of the [catch] block: retry on a network error. *)
Definition catch_retries (attempt : nat) (e : js_error) : bool :=
  (attempt <=? MAX_RETRIES)%nat &&
  (bool_decide (code e = Some (js "ECONNRESET")) || bool_decide (code e = Some (js "ETIMEDOUT"))).

(** A value together with the equation that it is the value of the
    expression inspected: keeps the outcome of a test in the context of the
    branches. *)
Definition inspect {A : Type} (a : A) : {b : A | a = b} := exist _ a eq_refl.

(** [translateWithRetry(text, config, attempt)].  The recursive calls are
    returned, not awaited, inside [try]: an error of a later attempt is not
    seen by the [catch] of an earlier one. *)
Equations? translateWithRetry `{Remote} (cfg : config) (txt : jsstring) (attempt : nat)
    (w : World) : completion jsstring * World
    by wf (S MAX_RETRIES - attempt)%nat lt :=
  translateWithRetry cfg txt attempt w with inspect (fetch cfg txt w) := {
    | exist _ (f, w1) _ with inspect (try_block attempt f) := {
      | exist _ (Returned s) _ => (Normal s, w1)
      | exist _ RateLimitRetry Htry =>
          translateWithRetry cfg txt (attempt + 1) (delay (retryDelay attempt) w1)
      | exist _ (Thrown e) Htry with inspect (catch_retries attempt e) := {
        | exist _ true Hcatch =>
            translateWithRetry cfg txt (attempt + 1) (delay (retryDelay attempt) w1)
        | exist _ false _ => (Throw e, w1) } } }.
Proof.
  - (* the rate-limit branch is taken only while [attempt <= MAX_RETRIES] *)
    assert ((attempt <=? MAX_RETRIES)%nat = true) as Hle%Nat.leb_le.
    { match goal with
      | Htry : try_block attempt ?f = RateLimitRetry |- _ =>
          unfold try_block in Htry; repeat case_match; done
      end. }
    unfold MAX_RETRIES in *. lia.
  - (* so is the network-error branch *)
    assert ((attempt <=? MAX_RETRIES)%nat = true) as Hle%Nat.leb_le.
    { match goal with
      | Hcatch : catch_retries attempt _ = true |- _ =>
          unfold catch_retries in Hcatch; by apply andb_true_iff in Hcatch as [? _]
      end. }
    unfold MAX_RETRIES in *. lia.
Qed.

(** [translateText(text, config)] *)
Definition translateText `{Remote} (cfg : config) (txt : jsstring) (w : World)
    : completion jsstring * World :=
  if negb (shouldTranslate txt) then (Normal txt, w)
  else
    let '(protectedText, map) := protectPlaceholders txt in
    if negb (shouldTranslate protectedText) then (Normal txt, w)
    else
      match translateWithRetry cfg protectedText 1 w with
      | (Normal translatedText, w') => (Normal (restorePlaceholders translatedText map), w')
      | (Throw e, w') => (Throw e, w')
      end.

(** The progress callback of [translateBatch]: a function of the caller,
    called with (current, total).  A call does to the world what it does, and
    returns or throws. *)
Definition progress_callback : Type := nat -> nat -> World -> completion () * World.

(** [if (onProgress) { onProgress(i + 1, texts.length); }] *)
Definition report (onProgress : option progress_callback) (current total : nat) (w : World)
    : completion () * World :=
  match onProgress with
  | Some f => f current total w
  | None => (Normal (), w)
  end.

(** The [for] loop of [translateBatch], entered at index [i] with [rest] the
    texts from [texts[i]] on, [total] being [texts.length].  The callback is
    called inside the [try] block, after the translation was pushed: when it
    throws, the [catch] block pushes the original text as well. *)
Fixpoint translateBatch_from `{Remote} (cfg : config) (onProgress : option progress_callback)
    (total i : nat) (rest results : list jsstring) (w : World) : list jsstring * World :=
  match rest with
  | [] => (results, w)
  | txt :: rest' =>
      match translateText cfg txt w with
      | (Normal translated, w1) =>
          match report onProgress (i + 1)%nat total w1 with
          | (Normal _, w2) =>
              let w3 := if (i <? total - 1)%nat then delay 100 w2 else w2 in
              translateBatch_from cfg onProgress total (S i) rest' (results ++ [translated]) w3
          | (Throw e, w2) =>
              (* Keep original text on error *)
              translateBatch_from cfg onProgress total (S i) rest'
                                  ((results ++ [translated]) ++ [txt]) w2
          end
      | (Throw e, w1) =>
          (* Keep original text on error *)
          translateBatch_from cfg onProgress total (S i) rest' (results ++ [txt]) w1
      end
  end.

(** [translateBatch(texts, config, onProgress = null)] *)
Definition translateBatch `{Remote} (cfg : config) (texts : list jsstring)
    (onProgress : option progress_callback) (w : World) : list jsstring * World :=
  translateBatch_from cfg onProgress (length texts) 0 texts [] w.

End Translator.

(** ** The parsed document and references into it *)

Module Document.
Import JS Translator.

(** Scalars that are not strings; a number is kept as it is written. *)
Inductive scalar : Type :=
| SNull
| SBool (b : bool)
| SNumber (literal : jsstring).

(** A parsed document as a tree: what [JSON.parse], [toml.parse] and the XML
    parser return, and [YAML.parse] for a text without aliases.  The
    properties of an object are listed in the order of [Object.entries]. *)
Unset Elimination Schemes.
Inductive jsvalue : Type :=
| VScalar (c : scalar)
| VStr (s : jsstring)
| VArr (items : list jsvalue)
| VObj (props : list (jsstring * jsvalue)).
Set Elimination Schemes.

(** A property key as the extractors hold it: the number that [forEach]
    passes as index, or the string that [Object.entries] lists. *)
Inductive jskey : Type :=
| KNum (i : nat)
| KStr (s : jsstring).

(** An object reference.  The extractors keep the parent container itself, a
    pointer into the live document.  In a document that is a tree (no object
    is reachable in two ways: every document of [JSON.parse], of [toml.parse]
    and of the XML parser, and of [YAML.parse] for a text without aliases) the
    container is identified by its position: the ordinal of each child on the
    way down from the root.  Documents in which an object is shared are
    treated over the heap, in [Live] below. *)
Abbreviation objref := (list nat).

(** One collected unit: [{ value, ref, key }]; [null] is [None]. *)
Record item : Type := Item {
  value : jsstring;
  ref : option objref;
  key : option jskey
}.

(** The child of a container at an ordinal, and the node at a position. *)
Definition child (v : jsvalue) (i : nat) : option jsvalue :=
  match v with
  | VArr items => items !! i
  | VObj props => snd <$> props !! i
  | _ => None
  end.

Fixpoint node_at (doc : jsvalue) (pos : objref) : option jsvalue :=
  match pos with
  | [] => Some doc
  | i :: pos' => match child doc i with
                 | Some v => node_at v pos'
                 | None => None
                 end
  end.

(** The two walks of the extractors over the children of a container, each
    call of the body contributing the units it pushes:
    [obj.forEach((item, index) => ...)] over the elements of an array, and
    [for (const [k, v] of Object.entries(obj))] over the properties of an
    object ([ord] counts them).  [Object.entries] of an array lists the
    elements under the decimals of their indices: the extractors that walk an
    array that way use [forEach] with that key. *)
Definition forEach {A : Type} (f : jsvalue -> nat -> list A) : nat -> list jsvalue -> list A :=
  fix go (index : nat) (l : list jsvalue) : list A :=
    match l with
    | [] => []
    | it :: l' => f it index ++ go (S index) l'
    end.

Definition forEntries {A : Type} (f : jsstring -> jsvalue -> nat -> list A)
    : nat -> list (jsstring * jsvalue) -> list A :=
  fix go (ord : nat) (l : list (jsstring * jsvalue)) : list A :=
    match l with
    | [] => []
    | (k, v) :: l' => f k v ord ++ go (S ord) l'
    end.

(** Truthiness of the [parent] and [key] arguments of the extractors: an
    object is truthy, [null] is not; of the keys, the number 0 and the empty
    string are falsy. *)
Definition parent_truthy (parent : option objref) : bool :=
  match parent with Some _ => true | None => false end.

Definition key_truthy (k : option jskey) : bool :=
  match k with
  | None => false
  | Some (KNum i) => negb (i =? 0)%nat
  | Some (KStr s) => truthy s
  end.

Definition key_not_null (k : option jskey) : bool :=
  match k with Some _ => true | None => false end.

(** The name under which a key addresses a property: [ToPropertyKey]. *)
Definition prop_name (k : option jskey) : jsstring :=
  match k with
  | None => js "null"
  | Some (KNum i) => decimal i
  | Some (KStr s) => s
  end.

(** The ordinal of the child that [container[name]] designates: the element
    whose index has this decimal for an array, the property of this name for
    an object. *)
Definition slot (container : jsvalue) (name : jsstring) : option nat :=
  match container with
  | VArr items => fst <$> list_find (fun i => decimal i = name) (seq 0 (length items))
  | VObj props => fst <$> list_find (fun kv => fst kv = name) props
  | _ => None
  end.

(** Replace the child at an ordinal, and the node at a position. *)
Definition set_child (v : jsvalue) (i : nat) (x : jsvalue) : jsvalue :=
  match v with
  | VArr items => VArr (<[i := x]> items)
  | VObj props => VObj (alter (fun kv => (fst kv, x)) i props)
  | _ => v
  end.

Fixpoint set_node (doc : jsvalue) (pos : objref) (x : jsvalue) : jsvalue :=
  match pos with
  | [] => x
  | i :: pos' => match child doc i with
                 | Some v => set_child doc i (set_node v pos' x)
                 | None => doc
                 end
  end.

(** [item.ref[item.key]]: the value the document holds at the unit's place. *)
Definition read (doc : jsvalue) (it : item) : option jsvalue :=
  p ← ref it; c ← node_at doc p; i ← slot c (prop_name (key it)); child c i.

(** [item.ref[item.key] = translated], on a document that is a tree: the
    one position that the unit refers to is written.  [None] when
    the assignment is not a write to an existing child: a [null] reference
    (a TypeError in JavaScript), or a key that is not yet in the container
    (JavaScript would add a property; no extracted unit does that, see
    [assign_extracted] below). *)
Definition assign (doc : jsvalue) (it : item) (translated : jsstring) : option jsvalue :=
  p ← ref it; c ← node_at doc p; i ← slot c (prop_name (key it));
  Some (set_node doc (p ++ [i]) (VStr translated)).

(** The file-system calls of the drivers.  [fs.ensureDir] creates the
    directories above the output file only: it leaves every file as it is. *)
Definition readFile (path : jsstring) (w : World) : completion jsstring :=
  match disk w !! path with
  | Some content => Normal content
  | None => Throw (JsError (js "ENOENT: no such file or directory") (Some (js "ENOENT")))
  end.

Definition writeFile (path content : jsstring) (w : World) : World :=
  MkWorld (calls w) (slept w) (<[path := content]> (disk w)) (progress w).

(** [await fs.ensureDir(path.dirname(outputPath))] *)
Definition ensureDir_dirname (outputPath : jsstring) (w : World) : World := w.

(** [progressBar.start(total, 0)] and [progressBar.update(n)] *)
Definition progressBar_update (n total : nat) (w : World) : World :=
  MkWorld (calls w) (slept w) (disk w) (progress w ++ [(n, total)]).

(** A format adapter: the parser (which throws on malformed input) and the
    serializer of one format. *)
Class Codec : Type := MkCodec {
  parse : jsstring -> completion jsvalue;
  stringify : jsvalue -> jsstring
}.

(** The [for] loop shared, word for word but for the serializer, by the
    tree-based drivers: translate each unit, assign the result through the
    unit's reference, and rewrite the whole output file; an error thrown by
    any step of the [try] block is caught, the unit keeps its value and the
    loop goes on. *)
Fixpoint translateItems `{Remote} `{Codec} (cfg : config) (outputPath : jsstring)
    (total i : nat) (items : list item) (data : jsvalue) (w : World) : jsvalue * World :=
  match items with
  | [] => (data, w)
  | it :: items' =>
      match translateText cfg (value it) w with
      | (Normal translated, w1) =>
          match assign data it translated with
          | Some data1 =>
              let w2 := writeFile outputPath (stringify data1) w1 in
              translateItems cfg outputPath total (S i) items' data1
                             (progressBar_update (i + 1) total w2)
          | None =>
              translateItems cfg outputPath total (S i) items' data
                             (progressBar_update (i + 1) total w1)
          end
      | (Throw e, w1) =>
          (* Keep original value on error *)
          translateItems cfg outputPath total (S i) items' data
                         (progressBar_update (i + 1) total w1)
      end
  end.

End Document.

(** ** jsonHandler.js *)

Module JsonHandler.
Import JS Translator Document.

(** [collectTranslatableValues(obj, translations, parent = null, key = null)]:
    the units pushed onto [translations], in order.  [self] is the reference
    of [obj] itself, which the recursive calls pass on as [parent]. *)
Fixpoint collectTranslatableValues (obj : jsvalue) (self : objref)
    (parent : option objref) (key : option jskey) : list item :=
  match obj with
  | VStr s =>
      if (0 <? length (trim s))%nat then
        if parent_truthy parent && key_not_null key then [Item s parent key] else []
      else []
  | VArr items =>
      forEach (fun it index =>
                 collectTranslatableValues it (self ++ [index]) (Some self) (Some (KNum index)))
              0%nat items
  | VObj props =>
      forEntries (fun k v ord =>
                    collectTranslatableValues v (self ++ [ord]) (Some self) (Some (KStr k)))
                 0%nat props
  | VScalar _ => []
  end.

(** [translateJsonFile(inputPath, outputPath, config)]; the codec is
    [JSON.parse] with [JSON.stringify(data, null, 2)]. *)
Definition translateJsonFile `{Remote} `{Codec} (inputPath outputPath : jsstring)
    (cfg : config) (w : World) : completion () * World :=
  match readFile inputPath w with
  | Throw e => (Throw e, w)
  | Normal fileContent =>
      match parse fileContent with
      | Throw e => (Throw e, w)
      | Normal data =>
          let translations := collectTranslatableValues data [] None None in
          if (length translations =? 0)%nat then (Normal (), w)
          else
            let w1 := ensureDir_dirname outputPath w in
            let w2 := progressBar_update 0 (length translations) w1 in
            let '(_, w3) :=
              translateItems cfg outputPath (length translations) 0 translations data w2 in
            (Normal (), w3)
      end
  end.

End JsonHandler.

(** ** yamlHandler.js *)

Module YamlHandler.
Import JS Translator Document.

(** [collectTranslatableValues]: arrays and objects alike are walked with
    [Object.entries], whose keys are strings (the decimal of the index for an
    array).  The document is a tree here; see [LiveYaml] for the documents in
    which an alias shares an object. *)
Fixpoint collectTranslatableValues (obj : jsvalue) (self : objref)
    (parent : option objref) (key : option jskey) : list item :=
  match obj with
  | VStr s =>
      if (0 <? length (trim s))%nat then
        if parent_truthy parent && key_not_null key then [Item s parent key] else []
      else []
  | VArr items =>
      forEach (fun v index =>
                 collectTranslatableValues v (self ++ [index]) (Some self)
                                           (Some (KStr (decimal index))))
              0%nat items
  | VObj props =>
      forEntries (fun k v ord =>
                    collectTranslatableValues v (self ++ [ord]) (Some self) (Some (KStr k)))
                 0%nat props
  | VScalar _ => []
  end.

(** [translateYamlFile(inputPath, outputPath, config)]; the codec is
    [YAML.parse] with [YAML.stringify(data, { lineWidth: 0, indent: 2 })]. *)
Definition translateYamlFile `{Remote} `{Codec} (inputPath outputPath : jsstring)
    (cfg : config) (w : World) : completion () * World :=
  match readFile inputPath w with
  | Throw e => (Throw e, w)
  | Normal fileContent =>
      match parse fileContent with
      | Throw e => (Throw e, w)
      | Normal data =>
          let translations := collectTranslatableValues data [] None None in
          if (length translations =? 0)%nat then (Normal (), w)
          else
            let w1 := ensureDir_dirname outputPath w in
            let w2 := progressBar_update 0 (length translations) w1 in
            let '(_, w3) :=
              translateItems cfg outputPath (length translations) 0 translations data w2 in
            (Normal (), w3)
      end
  end.

End YamlHandler.

(** ** tomlHandler.js *)

Module TomlHandler.
Import JS Translator Document.

(** [collectTranslatableValues]: a string is pushed when it is not blank and
    both [parent] and [key] are truthy. *)
Fixpoint collectTranslatableValues (obj : jsvalue) (self : objref)
    (parent : option objref) (key : option jskey) : list item :=
  match obj with
  | VStr s =>
      if (0 <? length (trim s))%nat && parent_truthy parent && key_truthy key
      then [Item s parent key] else []
  | VArr items =>
      forEach (fun it index =>
                 collectTranslatableValues it (self ++ [index]) (Some self) (Some (KNum index)))
              0%nat items
  | VObj props =>
      forEntries (fun k v ord =>
                    collectTranslatableValues v (self ++ [ord]) (Some self) (Some (KStr k)))
                 0%nat props
  | VScalar _ => []
  end.

(** [translateTomlFile(inputPath, outputPath, config)]; the codec is
    [toml.parse] with the handler's own [stringifyToml]. *)
Definition translateTomlFile `{Remote} `{Codec} (inputPath outputPath : jsstring)
    (cfg : config) (w : World) : completion () * World :=
  match readFile inputPath w with
  | Throw e => (Throw e, w)
  | Normal fileContent =>
      match parse fileContent with
      | Throw e => (Throw e, w)
      | Normal data =>
          let translations := collectTranslatableValues data [] None None in
          if (length translations =? 0)%nat then
            let w1 := ensureDir_dirname outputPath w in
            (Normal (), writeFile outputPath fileContent w1)
          else
            let w1 := ensureDir_dirname outputPath w in
            let w2 := progressBar_update 0 (length translations) w1 in
            let '(_, w3) :=
              translateItems cfg outputPath (length translations) 0 translations data w2 in
            (Normal (), w3)
      end
  end.

End TomlHandler.

(** ** xmlHandler.js *)

Module XmlHandler.
Import JS Translator Document.

(** The test of the [for] loop: attributes (their names start with [@]) and
    comments are skipped. *)
Definition visited (k : jsstring) : bool :=
  negb (startsWith (js "@") k) && negb (str_eqb k (js "#comment")).

(** [collectTranslatableValues] *)
Fixpoint collectTranslatableValues (obj : jsvalue) (self : objref)
    (parent : option objref) (key : option jskey) : list item :=
  match obj with
  | VStr s =>
      if (0 <? length (trim s))%nat && parent_truthy parent && key_truthy key
      then [Item s parent key] else []
  | VArr items =>
      forEach (fun v index =>
                 if visited (decimal index)
                 then collectTranslatableValues v (self ++ [index]) (Some self)
                                                (Some (KStr (decimal index)))
                 else [])
              0%nat items
  | VObj props =>
      forEntries (fun k v ord =>
                    if visited k
                    then collectTranslatableValues v (self ++ [ord]) (Some self) (Some (KStr k))
                    else [])
                 0%nat props
  | VScalar _ => []
  end.

(** [translateXmlFile(inputPath, outputPath, config)]; the codec is the
    [XMLParser] with the XML declaration followed by [XMLBuilder.build]. *)
Definition translateXmlFile `{Remote} `{Codec} (inputPath outputPath : jsstring)
    (cfg : config) (w : World) : completion () * World :=
  match readFile inputPath w with
  | Throw e => (Throw e, w)
  | Normal fileContent =>
      match parse fileContent with
      | Throw e => (Throw e, w)
      | Normal data =>
          let translations := collectTranslatableValues data [] None None in
          if (length translations =? 0)%nat then
            let w1 := ensureDir_dirname outputPath w in
            (Normal (), writeFile outputPath fileContent w1)
          else
            let w1 := ensureDir_dirname outputPath w in
            let w2 := progressBar_update 0 (length translations) w1 in
            let '(_, w3) :=
              translateItems cfg outputPath (length translations) 0 translations data w2 in
            (Normal (), w3)
      end
  end.

End XmlHandler.



(** ** utils.js: the configuration check *)

Module Config.
Import JS.

(** The five variables of [process.env] that the program reads; a variable
    that is not set is [undefined]. *)
Record environment : Type := Environment {
  DEEPL_API_KEY : option jsstring;
  SOURCE_LANG : option jsstring;
  TARGET_LANG : option jsstring;
  INPUT_DIR : option jsstring;
  OUTPUT_DIR : option jsstring
}.

(** [!env.X]: the variable is not set, or set to the empty string. *)
Definition unset (v : option jsstring) : bool :=
  match v with
  | Some s => negb (truthy s)
  | None => true
  end.

(** [validateConfig(env)]: the pair [{ valid, errors }]. *)
Definition validateConfig (env : environment) : bool * list jsstring :=
  let errors := [] in
  let errors := if unset (DEEPL_API_KEY env)
                then errors ++ [js "DEEPL_API_KEY is required"] else errors in
  let errors := if unset (SOURCE_LANG env)
                then errors ++ [js "SOURCE_LANG is required"] else errors in
  let errors := if unset (TARGET_LANG env)
                then errors ++ [js "TARGET_LANG is required"] else errors in
  let errors := if unset (INPUT_DIR env)
                then errors ++ [js "INPUT_DIR is required"] else errors in
  let errors := if unset (OUTPUT_DIR env)
                then errors ++ [js "OUTPUT_DIR is required"] else errors in
  ((length errors =? 0)%nat, errors).

End Config.

(** ** Lines of a text file *)

Module Lines.
Import JS.

(** [content.split(/\r?\n/)]: the text is cut at every line feed, a carriage
    return that stands directly before the line feed going with it; [cur] is
    the line read so far.  The text without any line feed is one line, the
    empty text the one empty line. *)
Fixpoint split_from (cur s : jsstring) : list jsstring :=
  match s with
  | [] => [cur]
  | c :: s' =>
      if c =? 10 then cur :: split_from [] s'
      else
        match s' with
        | d :: s'' =>
            if (c =? 13) && (d =? 10) then cur :: split_from [] s''
            else split_from (cur ++ [c]) s'
        | [] => [cur ++ [c]]
        end
  end.

Definition split_lines (content : jsstring) : list jsstring := split_from [] content.

(** [lines.join(sep)] *)
Fixpoint join (sep : jsstring) (lines : list jsstring) : jsstring :=
  match lines with
  | [] => []
  | [line] => line
  | line :: lines' => line ++ sep ++ join sep lines'
  end.

End Lines.

(** ** txtHandler.js *)

Module TxtHandler.
Import JS Translator Document Lines.

(** [lines.map((line, index) => ({ line, index })).filter(({ line }) =>
    line.trim().length > 0)], the lines numbered from [index]. *)
Fixpoint translatable_from (index : nat) (lines : list jsstring) : list (jsstring * nat) :=
  match lines with
  | [] => []
  | line :: lines' =>
      if (0 <? length (trim line))%nat
      then (line, index) :: translatable_from (S index) lines'
      else translatable_from (S index) lines'
  end.

(** The [for] loop: [translatedLines[index] = translated] (the index is that
    of a line, so the assignment never extends the array), then the whole
    file is written again. *)
Fixpoint translateLines `{Remote} (cfg : config) (outputPath : jsstring) (total i : nat)
    (translatableLines : list (jsstring * nat)) (translatedLines : list jsstring)
    (w : World) : list jsstring * World :=
  match translatableLines with
  | [] => (translatedLines, w)
  | (line, index) :: rest =>
      match translateText cfg line w with
      | (Normal translated, w1) =>
          let translatedLines1 := <[index := translated]> translatedLines in
          let output := join [10] translatedLines1 in
          let w2 := writeFile outputPath output w1 in
          translateLines cfg outputPath total (S i) rest translatedLines1
                         (progressBar_update (i + 1) total w2)
      | (Throw e, w1) =>
          (* Keep original line on error *)
          translateLines cfg outputPath total (S i) rest translatedLines
                         (progressBar_update (i + 1) total w1)
      end
  end.

(** [translateTxtFile(inputPath, outputPath, config)] *)
Definition translateTxtFile `{Remote} (inputPath outputPath : jsstring)
    (cfg : config) (w : World) : completion () * World :=
  match readFile inputPath w with
  | Throw e => (Throw e, w)
  | Normal fileContent =>
      let lines := split_lines fileContent in
      let translatableLines := translatable_from 0 lines in
      if (length translatableLines =? 0)%nat then
        let w1 := ensureDir_dirname outputPath w in
        (Normal (), writeFile outputPath fileContent w1)
      else
        let w1 := ensureDir_dirname outputPath w in
        let w2 := progressBar_update 0 (length translatableLines) w1 in
        let '(_, w3) :=
          translateLines cfg outputPath (length translatableLines) 0
                         translatableLines lines w2 in
        (Normal (), w3)
  end.

End TxtHandler.

(** ** propertiesHandler.js *)

Module PropertiesHandler.
Import JS Translator Document Lines.

(** One parsed line: [{ type: 'comment', content, index }] or
    [{ type: 'property', key, value, originalLine, index }]. *)
Inductive entry : Type :=
| Comment (content : jsstring) (index : nat)
| Property (key value originalLine : jsstring) (index : nat).

Definition is_separator (c : N) : bool := (c =? 61) || (c =? 58).

(** What [.] does not match: the line terminators. *)
Definition is_line_terminator (c : N) : bool :=
  (c =? 10) || (c =? 13) || (c =? 8232) || (c =? 8233).

(** The text before the first [=] or [:], and the text from there on. *)
Fixpoint span_key (line : jsstring) : jsstring * jsstring :=
  match line with
  | [] => ([], [])
  | c :: line' =>
      if is_separator c then ([], line)
      else let '(k, rest) := span_key line' in (c :: k, rest)
  end.

(** [line.match(re)] for the pattern [re] of the source: the start of the
    text, a first group [[^=:]+], one of [=] and [:], a second group of any
    number of [.], the end of the text.  The result is the two groups.  The
    first group cannot hold a separator and must be followed by one, so it is
    the whole text before the first separator, and it must not be empty; the
    second group is the rest of the line, which must be free of line
    terminators for the dots to reach the end of the text. *)
Definition match_property (line : jsstring) : option (jsstring * jsstring) :=
  match span_key line with
  | (c :: k, _ :: v) =>
      if forallb (fun d => negb (is_line_terminator d)) v then Some (c :: k, v) else None
  | _ => None
  end.

(** The body of the parsing loop for the line of index [i]. *)
Definition parse_line (line : jsstring) (i : nat) : entry :=
  let trimmed := trim line in
  if str_eqb trimmed [] || startsWith (js "#") trimmed || startsWith (js "!") trimmed
  then Comment line i
  else
    match match_property line with
    | Some (g1, g2) => Property (trim g1) (trim g2) line i
    | None => Comment line i
    end.

Fixpoint parse_from (i : nat) (lines : list jsstring) : list entry :=
  match lines with
  | [] => []
  | line :: lines' => parse_line line i :: parse_from (S i) lines'
  end.

(** [e.type === 'property' && e.value.length > 0] *)
Definition translatable (e : entry) : bool :=
  match e with
  | Property _ value _ _ => (0 <? length value)%nat
  | Comment _ _ => false
  end.

(** The callback of [entries.map]: the line written for an entry. *)
Definition render (e : entry) : jsstring :=
  match e with
  | Comment content _ => content
  | Property key value _ _ => key ++ js "=" ++ value
  end.

(** [entries.filter(...)] keeps the entry objects themselves: an entry of
    [translatableEntries] is the entry of [entries] at the same [index].  The
    store is the list [entries]; a translatable entry is referred to by its
    position in it. *)
Fixpoint translatable_positions (pos : nat) (entries : list entry) : list nat :=
  match entries with
  | [] => []
  | e :: entries' =>
      if translatable e then pos :: translatable_positions (S pos) entries'
      else translatable_positions (S pos) entries'
  end.

(** The [for] loop: [entry.value] is read from, and assigned in, the entry
    that [entries] holds too.  A position of [translatableEntries] always
    holds a property; the loop leaves anything else alone. *)
Fixpoint translateEntries `{Remote} (cfg : config) (outputPath : jsstring) (total i : nat)
    (translatableEntries : list nat) (entries : list entry) (w : World)
    : list entry * World :=
  match translatableEntries with
  | [] => (entries, w)
  | pos :: rest =>
      match entries !! pos with
      | Some (Property key value originalLine index) =>
          match translateText cfg value w with
          | (Normal translated, w1) =>
              let entries1 := <[pos := Property key translated originalLine index]> entries in
              let output := join [10] (render <$> entries1) in
              let w2 := writeFile outputPath output w1 in
              translateEntries cfg outputPath total (S i) rest entries1
                               (progressBar_update (i + 1) total w2)
          | (Throw e, w1) =>
              translateEntries cfg outputPath total (S i) rest entries
                               (progressBar_update (i + 1) total w1)
          end
      | _ => translateEntries cfg outputPath total (S i) rest entries w
      end
  end.

(** [translatePropertiesFile(inputPath, outputPath, config)] *)
Definition translatePropertiesFile `{Remote} (inputPath outputPath : jsstring)
    (cfg : config) (w : World) : completion () * World :=
  match readFile inputPath w with
  | Throw e => (Throw e, w)
  | Normal fileContent =>
      let lines := split_lines fileContent in
      let entries := parse_from 0 lines in
      let translatableEntries := translatable_positions 0 entries in
      if (length translatableEntries =? 0)%nat then
        let w1 := ensureDir_dirname outputPath w in
        (Normal (), writeFile outputPath fileContent w1)
      else
        let w1 := ensureDir_dirname outputPath w in
        let w2 := progressBar_update 0 (length translatableEntries) w1 in
        let '(_, w3) :=
          translateEntries cfg outputPath (length translatableEntries) 0
                           translatableEntries entries w2 in
        (Normal (), w3)
  end.

End PropertiesHandler.

(** ** iniHandler.js *)

Module IniHandler.
Import JS Translator Document.

(** [collectTranslatableValues]: a string that is not blank is pushed
    whatever [parent] and [key] are; arrays and objects alike are walked
    with [Object.entries]. *)
Fixpoint collectTranslatableValues (obj : jsvalue) (self : objref)
    (parent : option objref) (key : option jskey) : list item :=
  match obj with
  | VStr s =>
      if (0 <? length (trim s))%nat then [Item s parent key] else []
  | VArr items =>
      forEach (fun v index =>
                 collectTranslatableValues v (self ++ [index]) (Some self)
                                           (Some (KStr (decimal index))))
              0%nat items
  | VObj props =>
      forEntries (fun k v ord =>
                    collectTranslatableValues v (self ++ [ord]) (Some self) (Some (KStr k)))
                 0%nat props
  | VScalar _ => []
  end.

(** [translateIniFile(inputPath, outputPath, config)]; the codec is
    [ini.parse] with [ini.stringify]. *)
Definition translateIniFile `{Remote} `{Codec} (inputPath outputPath : jsstring)
    (cfg : config) (w : World) : completion () * World :=
  match readFile inputPath w with
  | Throw e => (Throw e, w)
  | Normal fileContent =>
      match parse fileContent with
      | Throw e => (Throw e, w)
      | Normal data =>
          let translations := collectTranslatableValues data [] None None in
          if (length translations =? 0)%nat then
            let w1 := ensureDir_dirname outputPath w in
            (Normal (), writeFile outputPath fileContent w1)
          else
            let w1 := ensureDir_dirname outputPath w in
            let w2 := progressBar_update 0 (length translations) w1 in
            let '(_, w3) :=
              translateItems cfg outputPath (length translations) 0 translations data w2 in
            (Normal (), w3)
      end
  end.

End IniHandler.

(** ** tomlHandler.js: the writer of string values *)

Module TomlWriter.
Import JS.

(** [s.replace(/c/g, rep)] for a pattern that is the one character [c] and a
    replacement text [rep] without a dollar sign: every [c] becomes [rep]. *)
Definition replace_each (c : N) (rep : jsstring) (s : jsstring) : jsstring :=
  flat_map (fun x => if x =? c then rep else [x]) s.

(** [formatTomlValue(value)] for a string [value]: backslashes are doubled,
    then a backslash is put before every double quote, and the result is put
    between double quotes. *)
Definition formatTomlValue_string (value : jsstring) : jsstring :=
  let escaped := replace_each 34 [92; 34] (replace_each 92 [92; 92] value) in
  [34] ++ escaped ++ [34].

End TomlWriter.

(** ** snbtHandler.js *)

Module SnbtHandler.
Import JS Translator Document.

(** What [.] does not match: the line terminators. *)
Definition is_line_terminator (c : N) : bool :=
  (c =? 10) || (c =? 13) || (c =? 8232) || (c =? 8233).

(** The pattern of [extractQuotedStrings] after its opening double quote:
    any number of items, each a character other than a double quote and a
    backslash, or a backslash with the character after it (not a line
    terminator); then the closing double quote.  The two kinds of item
    exclude each other and neither starts with a double quote, so the
    greedy search succeeds exactly when the items end at a double quote.
    The result is the length of what is matched. *)
Fixpoint quoted_body (s : jsstring) : option nat :=
  match s with
  | [] => None
  | c :: s' =>
      if c =? 34 then Some 1%nat
      else if c =? 92 then
        match s' with
        | d :: s'' => if is_line_terminator d then None else (fun n => S (S n)) <$> quoted_body s''
        | [] => None
        end
      else S <$> quoted_body s'
  end.

(** The pattern at the start of [s]. *)
Definition match_quoted (s : jsstring) : option nat :=
  match s with
  | c :: s' => if c =? 34 then S <$> quoted_body s' else None
  | [] => None
  end.

(** The [while ((match = regex.exec(content)) !== null)] loop: each search
    starts where the previous match ended; [skip] counts the characters
    still covered by the last match. *)
Fixpoint scan_quoted (skip : nat) (s : jsstring) : list jsstring :=
  match skip with
  | S k => match s with [] => [] | _ :: s' => scan_quoted k s' end
  | O =>
      match match_quoted s with
      | Some n =>
          take n s :: match s with [] => [] | _ :: s' => scan_quoted (Nat.pred n) s' end
      | None => match s with [] => [] | _ :: s' => scan_quoted 0 s' end
      end
  end.

(** [extractQuotedStrings(content)] *)
Definition extractQuotedStrings (content : jsstring) : list jsstring := scan_quoted 0 content.

(** [str.replace(new RegExp(escapedFind, 'g'), replace)]: the escaped
    pattern matches the text [find] itself, so every occurrence of [find],
    found from left to right without overlap, is replaced; the replacement
    text is expanded for each match, the text before and after the match
    being that of [str].  [before] is the part of [str] already passed. *)
Fixpoint replaceAll_from (find rep : jsstring) (skip : nat) (before s : jsstring) : jsstring :=
  match s with
  | [] => []
  | c :: s' =>
      match skip with
      | S k => replaceAll_from find rep k (before ++ [c]) s'
      | O =>
          if startsWith find s
          then getSubstitution find before (drop (length find) s) rep
               ++ replaceAll_from find rep (length find - 1) (before ++ [c]) s'
          else c :: replaceAll_from find rep 0 (before ++ [c]) s'
      end
  end.

(** For the empty [find] the pattern matches the empty text at every
    position, the end included. *)
Fixpoint replaceAll_empty (rep before s : jsstring) : jsstring :=
  getSubstitution [] before s rep ++
  match s with
  | [] => []
  | c :: s' => c :: replaceAll_empty rep (before ++ [c]) s'
  end.

(** [replaceAll(str, find, replace)] *)
Definition replaceAll (str find rep : jsstring) : jsstring :=
  match find with
  | [] => replaceAll_empty rep [] str
  | _ :: _ => replaceAll_from find rep 0 [] str
  end.

(** [originalString.slice(1, -1)] *)
Definition slice_1_minus_1 (s : jsstring) : jsstring := removelast (tail s).

(** The state of the loop: the keys of the map [translations] (the loop only
    asks whether a key is present), and [translatedContent]. *)
Record translating : Type := Translating {
  translations : gset (list N);
  translatedContent : jsstring
}.

(** The [for] loop of [translateSnbtFile]. *)
Fixpoint translateStrings `{Remote} (cfg : config) (outputPath : jsstring) (total i : nat)
    (translatableStrings : list jsstring) (st : translating) (w : World)
    : translating * World :=
  match translatableStrings with
  | [] => (st, w)
  | originalString :: rest =>
      if bool_decide (originalString ∈ translations st) then
        (* Skip if already translated (for duplicate strings) *)
        translateStrings cfg outputPath total (S i) rest st (progressBar_update (i + 1) total w)
      else
        let contentWithoutQuotes := slice_1_minus_1 originalString in
        let seen := {[ originalString ]} ∪ translations st in
        if (0 <? length (trim contentWithoutQuotes))%nat then
          match translateText cfg contentWithoutQuotes w with
          | (Normal translated, w1) =>
              let translatedString := [34] ++ translated ++ [34] in
              let content1 := replaceAll (translatedContent st) originalString translatedString in
              let w2 := writeFile outputPath content1 w1 in
              translateStrings cfg outputPath total (S i) rest (Translating seen content1)
                               (progressBar_update (i + 1) total w2)
          | (Throw e, w1) =>
              (* Keep original string on error *)
              translateStrings cfg outputPath total (S i) rest
                               (Translating seen (translatedContent st))
                               (progressBar_update (i + 1) total w1)
          end
        else
          (* Keep empty strings as-is *)
          translateStrings cfg outputPath total (S i) rest
                           (Translating seen (translatedContent st))
                           (progressBar_update (i + 1) total w)
  end.

(** [translateSnbtFile(inputPath, outputPath, config)] *)
Definition translateSnbtFile `{Remote} (inputPath outputPath : jsstring)
    (cfg : config) (w : World) : completion () * World :=
  match readFile inputPath w with
  | Throw e => (Throw e, w)
  | Normal fileContent =>
      let translatableStrings := extractQuotedStrings fileContent in
      if (length translatableStrings =? 0)%nat then
        let w1 := ensureDir_dirname outputPath w in
        (Normal (), writeFile outputPath fileContent w1)
      else
        let w1 := ensureDir_dirname outputPath w in
        let w2 := progressBar_update 0 (length translatableStrings) w1 in
        let '(_, w3) :=
          translateStrings cfg outputPath (length translatableStrings) 0
                           translatableStrings (Translating ∅ fileContent) w2 in
        (Normal (), w3)
  end.

End SnbtHandler.

(** * The tree-based drivers over the live object graph

    A parser returns objects of the JavaScript heap, and a document is the
    value of its root together with the heap.  [YAML.parse] returns one and
    the same object for an anchor and for each of its aliases: the objects
    reachable from the root need not form a tree.  The extractors keep, in
    each unit, the parent object itself ([ref: parent]), and the loop assigns
    through it ([item.ref[item.key] = translated]): an assignment made
    through one reference is seen through every other reference to the same
    object.  The extractors, the loop and the drivers are modelled here over
    a heap, where that sharing is explicit. *)

Module Live.
Import JS Translator Document.

(** The address of an object of the heap. *)
Abbreviation address := nat.

(** A value: a primitive, or a reference to an array or object. *)
Inductive jsref : Type :=
| RScalar (c : scalar)
| RStr (s : jsstring)
| RObject (a : address).

(** What the heap holds at an address: an array with its elements, or an
    object with its properties in the order of [Object.entries]. *)
Inductive cell : Type :=
| CArr (items : list jsref)
| CObj (props : list (jsstring * jsref)).

Abbreviation heap := (gmap address cell).

(** One collected unit: [{ value, ref, key }], the reference being the
    address of the parent object; [null] is [None]. *)
Record item : Type := Item {
  value : jsstring;
  ref : option address;
  key : option jskey
}.

(** A [RangeError]: what a call throws that finds no room on the call
    stack. *)
Definition RangeError (msg : jsstring) : js_error := JsError msg None.

(** The child of a container at an ordinal. *)
Definition get (c : cell) (i : nat) : option jsref :=
  match c with
  | CArr items => items !! i
  | CObj props => snd <$> props !! i
  end.

(** The ordinal of the child that [container[name]] designates: the element
    whose index has this decimal for an array, the property of this name for
    an object. *)
Definition slot (c : cell) (name : jsstring) : option nat :=
  match c with
  | CArr items => fst <$> list_find (fun i => decimal i = name) (seq 0 (length items))
  | CObj props => fst <$> list_find (fun kv => fst kv = name) props
  end.

(** Replace the child at an ordinal. *)
Definition set (c : cell) (i : nat) (x : jsref) : cell :=
  match c with
  | CArr items => CArr (<[i := x]> items)
  | CObj props => CObj (alter (fun kv => (fst kv, x)) i props)
  end.

(** [item.ref[item.key]]: the value that the object referred to holds under
    the key. *)
Definition read (h : heap) (it : item) : option jsref :=
  a ← ref it; c ← h !! a; i ← slot c (prop_name (key it)); get c i.

(** [item.ref[item.key] = translated]: the object at the address of the
    reference is updated in the heap, for every holder of a reference to it.
    [None] when the assignment is not a write to an existing child: a [null]
    reference (a TypeError in JavaScript), or a key that the object does not
    have (JavaScript would add a property; no extracted unit does that, the
    keys of an object being those it had when the unit was extracted). *)
Definition assign (h : heap) (it : item) (translated : jsstring) : option heap :=
  a ← ref it; c ← h !! a; i ← slot c (prop_name (key it));
  Some (<[a := set c i (RStr translated)]> h).

(** The two walks of the extractors over the children of a container, each
    call of the body returning the units it pushes or throwing:
    [obj.forEach((item, index) => ...)] over the elements of an array, and
    [for (const [k, v] of Object.entries(obj))] over the properties of an
    object ([ord] counts them).  An error thrown by the body ends the walk. *)
Definition forEach (f : jsref -> nat -> completion (list item))
    : nat -> list jsref -> completion (list item) :=
  fix go (index : nat) (l : list jsref) : completion (list item) :=
    match l with
    | [] => Normal []
    | it :: l' =>
        match f it index with
        | Throw e => Throw e
        | Normal pushed =>
            match go (S index) l' with
            | Throw e => Throw e
            | Normal later => Normal (pushed ++ later)
            end
        end
    end.

Definition forEntries (f : jsstring -> jsref -> nat -> completion (list item))
    : nat -> list (jsstring * jsref) -> completion (list item) :=
  fix go (ord : nat) (l : list (jsstring * jsref)) : completion (list item) :=
    match l with
    | [] => Normal []
    | (k, v) :: l' =>
        match f k v ord with
        | Throw e => Throw e
        | Normal pushed =>
            match go (S ord) l' with
            | Throw e => Throw e
            | Normal later => Normal (pushed ++ later)
            end
        end
    end.

(** Truthiness of the [parent] argument of the extractors. *)
Definition parent_truthy (parent : option address) : bool :=
  match parent with Some _ => true | None => false end.

(** A format adapter: the parser, which returns the root value and the heap
    that holds its objects (or throws on malformed input), and the
    serializer of the value as the heap then has it. *)
Class Codec : Type := MkCodec {
  parse : jsstring -> completion (jsref * heap);
  stringify : heap -> jsref -> jsstring
}.

(** The [for] loop shared, word for word but for the serializer, by the
    tree-based drivers: translate each unit, assign the result through the
    unit's reference, and rewrite the whole output file; an error thrown by
    any step of the [try] block is caught, and the loop goes on. *)
Fixpoint translateItems `{Remote} `{Codec} (cfg : config) (outputPath : jsstring)
    (total i : nat) (items : list item) (data : jsref) (h : heap) (w : World)
    : heap * World :=
  match items with
  | [] => (h, w)
  | it :: items' =>
      match translateText cfg (value it) w with
      | (Normal translated, w1) =>
          match assign h it translated with
          | Some h1 =>
              let w2 := writeFile outputPath (stringify h1 data) w1 in
              translateItems cfg outputPath total (S i) items' data h1
                             (progressBar_update (i + 1) total w2)
          | None =>
              translateItems cfg outputPath total (S i) items' data h
                             (progressBar_update (i + 1) total w1)
          end
      | (Throw e, w1) =>
          (* Keep original value on error *)
          translateItems cfg outputPath total (S i) items' data h
                         (progressBar_update (i + 1) total w1)
      end
  end.

End Live.

(** ** jsonHandler.js, over the heap *)

Module LiveJson.
Import JS Translator Document Live.

(** [collectTranslatableValues(obj, translations, parent = null, key = null)]:
    the units pushed onto [translations], in order.  [depth] is the room left
    on the call stack, counted in calls of the function: a call that finds
    none throws.  (No reference of a parsed document dangles; a reference
    that did would be walked as an empty object.) *)
Fixpoint collectTranslatableValues (depth : nat) (h : heap) (obj : jsref)
    (parent : option address) (key : option jskey) : completion (list item) :=
  match depth with
  | O => Throw (RangeError (js "Maximum call stack size exceeded"))
  | S depth' =>
      match obj with
      | RStr s =>
          Normal (if (0 <? length (trim s))%nat then
                    if parent_truthy parent && key_not_null key then [Item s parent key]
                    else []
                  else [])
      | RScalar _ => Normal []
      | RObject a =>
          match h !! a with
          | Some (CArr items) =>
              forEach (fun it index =>
                         collectTranslatableValues depth' h it (Some a) (Some (KNum index)))
                      0%nat items
          | Some (CObj props) =>
              forEntries (fun k v ord =>
                            collectTranslatableValues depth' h v (Some a) (Some (KStr k)))
                         0%nat props
          | None => Normal []
          end
      end
  end.

(** [translateJsonFile(inputPath, outputPath, config)] *)
Definition translateJsonFile `{Remote} `{Codec} (depth : nat) (inputPath outputPath : jsstring)
    (cfg : config) (w : World) : completion () * World :=
  match readFile inputPath w with
  | Throw e => (Throw e, w)
  | Normal fileContent =>
      match parse fileContent with
      | Throw e => (Throw e, w)
      | Normal (data, h) =>
          match collectTranslatableValues depth h data None None with
          | Throw e => (Throw e, w)
          | Normal translations =>
              if (length translations =? 0)%nat then (Normal (), w)
              else
                let w1 := ensureDir_dirname outputPath w in
                let w2 := progressBar_update 0 (length translations) w1 in
                let '(_, w3) :=
                  translateItems cfg outputPath (length translations) 0 translations
                                 data h w2 in
                (Normal (), w3)
          end
      end
  end.

End LiveJson.

(** ** yamlHandler.js, over the heap *)

Module LiveYaml.
Import JS Translator Document Live.

(** [collectTranslatableValues]: arrays and objects alike are walked with
    [Object.entries], whose keys are strings (the decimal of the index for an
    array).  An object that is reachable twice, through an anchor and an
    alias, is walked twice, and each of its strings yields two units with the
    same reference and key. *)
Fixpoint collectTranslatableValues (depth : nat) (h : heap) (obj : jsref)
    (parent : option address) (key : option jskey) : completion (list item) :=
  match depth with
  | O => Throw (RangeError (js "Maximum call stack size exceeded"))
  | S depth' =>
      match obj with
      | RStr s =>
          Normal (if (0 <? length (trim s))%nat then
                    if parent_truthy parent && key_not_null key then [Item s parent key]
                    else []
                  else [])
      | RScalar _ => Normal []
      | RObject a =>
          match h !! a with
          | Some (CArr items) =>
              forEach (fun v index =>
                         collectTranslatableValues depth' h v (Some a)
                                                   (Some (KStr (decimal index))))
                      0%nat items
          | Some (CObj props) =>
              forEntries (fun k v ord =>
                            collectTranslatableValues depth' h v (Some a) (Some (KStr k)))
                         0%nat props
          | None => Normal []
          end
      end
  end.

(** [translateYamlFile(inputPath, outputPath, config)] *)
Definition translateYamlFile `{Remote} `{Codec} (depth : nat) (inputPath outputPath : jsstring)
    (cfg : config) (w : World) : completion () * World :=
  match readFile inputPath w with
  | Throw e => (Throw e, w)
  | Normal fileContent =>
      match parse fileContent with
      | Throw e => (Throw e, w)
      | Normal (data, h) =>
          match collectTranslatableValues depth h data None None with
          | Throw e => (Throw e, w)
          | Normal translations =>
              if (length translations =? 0)%nat then (Normal (), w)
              else
                let w1 := ensureDir_dirname outputPath w in
                let w2 := progressBar_update 0 (length translations) w1 in
                let '(_, w3) :=
                  translateItems cfg outputPath (length translations) 0 translations
                                 data h w2 in
                (Normal (), w3)
          end
      end
  end.

End LiveYaml.

(** ** tomlHandler.js, over the heap *)

Module LiveToml.
Import JS Translator Document Live.

(** [collectTranslatableValues]: a string is pushed when it is not blank and
    both [parent] and [key] are truthy. *)
Fixpoint collectTranslatableValues (depth : nat) (h : heap) (obj : jsref)
    (parent : option address) (key : option jskey) : completion (list item) :=
  match depth with
  | O => Throw (RangeError (js "Maximum call stack size exceeded"))
  | S depth' =>
      match obj with
      | RStr s =>
          Normal (if (0 <? length (trim s))%nat && parent_truthy parent && key_truthy key
                  then [Item s parent key] else [])
      | RScalar _ => Normal []
      | RObject a =>
          match h !! a with
          | Some (CArr items) =>
              forEach (fun it index =>
                         collectTranslatableValues depth' h it (Some a) (Some (KNum index)))
                      0%nat items
          | Some (CObj props) =>
              forEntries (fun k v ord =>
                            collectTranslatableValues depth' h v (Some a) (Some (KStr k)))
                         0%nat props
          | None => Normal []
          end
      end
  end.

(** [translateTomlFile(inputPath, outputPath, config)] *)
Definition translateTomlFile `{Remote} `{Codec} (depth : nat) (inputPath outputPath : jsstring)
    (cfg : config) (w : World) : completion () * World :=
  match readFile inputPath w with
  | Throw e => (Throw e, w)
  | Normal fileContent =>
      match parse fileContent with
      | Throw e => (Throw e, w)
      | Normal (data, h) =>
          match collectTranslatableValues depth h data None None with
          | Throw e => (Throw e, w)
          | Normal translations =>
              if (length translations =? 0)%nat then
                let w1 := ensureDir_dirname outputPath w in
                (Normal (), writeFile outputPath fileContent w1)
              else
                let w1 := ensureDir_dirname outputPath w in
                let w2 := progressBar_update 0 (length translations) w1 in
                let '(_, w3) :=
                  translateItems cfg outputPath (length translations) 0 translations
                                 data h w2 in
                (Normal (), w3)
          end
      end
  end.

End LiveToml.

(** ** xmlHandler.js, over the heap *)

Module LiveXml.
Import JS Translator Document Live.

(** [collectTranslatableValues]: attributes and comments are skipped. *)
Fixpoint collectTranslatableValues (depth : nat) (h : heap) (obj : jsref)
    (parent : option address) (key : option jskey) : completion (list item) :=
  match depth with
  | O => Throw (RangeError (js "Maximum call stack size exceeded"))
  | S depth' =>
      match obj with
      | RStr s =>
          Normal (if (0 <? length (trim s))%nat && parent_truthy parent && key_truthy key
                  then [Item s parent key] else [])
      | RScalar _ => Normal []
      | RObject a =>
          match h !! a with
          | Some (CArr items) =>
              forEach (fun v index =>
                         if XmlHandler.visited (decimal index)
                         then collectTranslatableValues depth' h v (Some a)
                                                        (Some (KStr (decimal index)))
                         else Normal [])
                      0%nat items
          | Some (CObj props) =>
              forEntries (fun k v ord =>
                            if XmlHandler.visited k
                            then collectTranslatableValues depth' h v (Some a) (Some (KStr k))
                            else Normal [])
                         0%nat props
          | None => Normal []
          end
      end
  end.

(** [translateXmlFile(inputPath, outputPath, config)] *)
Definition translateXmlFile `{Remote} `{Codec} (depth : nat) (inputPath outputPath : jsstring)
    (cfg : config) (w : World) : completion () * World :=
  match readFile inputPath w with
  | Throw e => (Throw e, w)
  | Normal fileContent =>
      match parse fileContent with
      | Throw e => (Throw e, w)
      | Normal (data, h) =>
          match collectTranslatableValues depth h data None None with
          | Throw e => (Throw e, w)
          | Normal translations =>
              if (length translations =? 0)%nat then
                let w1 := ensureDir_dirname outputPath w in
                (Normal (), writeFile outputPath fileContent w1)
              else
                let w1 := ensureDir_dirname outputPath w in
                let w2 := progressBar_update 0 (length translations) w1 in
                let '(_, w3) :=
                  translateItems cfg outputPath (length translations) 0 translations
                                 data h w2 in
                (Normal (), w3)
          end
      end
  end.

End LiveXml.
(** * Specification vocabulary

    The notions in which the properties below are stated. *)

Module Spec.
Import JS Utils Translator Document.

Local Open Scope nat_scope.

(** A blank string: empty or made of white space only. *)
Definition blank (s : jsstring) : bool := forallb is_whitespace s.

(** *** Substitutions *)

(** [pat] occurs in [s] between [before] and [after], and nowhere further
    to the left. *)
Definition first_occurrence (s pat before after : jsstring) : Prop :=
  s = before ++ pat ++ after /\
  forall before' after', s = before' ++ pat ++ after' -> (length before <= length before')%nat.

(** [t'] comes from [t] by the substitutions recorded in a placeholder map,
    made in the order of the map: each replaces one occurrence of the
    original, the leftmost one in the text as it then stands, by the token
    of the entry. *)
Fixpoint substituted (t : jsstring) (entries : list entry) (t' : jsstring) : Prop :=
  match entries with
  | [] => t' = t
  | e :: es =>
      exists before after,
        first_occurrence t (original e) before after /\
        substituted (before ++ placeholder e ++ after) es t'
  end.

(** The strings [ms] lie in [s] from left to right without overlapping. *)
Inductive interleaved : list jsstring -> jsstring -> Prop :=
| interleaved_nil s : interleaved [] s
| interleaved_cons gap m ms rest :
    interleaved ms rest -> interleaved (m :: ms) (gap ++ m ++ rest).

(** The matches of the pattern classes, class after class, each class
    matched against the text that the substitutions of the previous classes
    left. *)
Fixpoint matches_in_order (res : list regex) (st : protecting) : list jsstring :=
  match res with
  | [] => []
  | re :: res' => matchAll re (protectedText st) ++ matches_in_order res' (protect_pattern st re)
  end.

(** The entries of the map are numbered from 0 in the order of the map,
    each holding the token of its number; the next index is the length. *)
Definition numbered (st : protecting) : Prop :=
  placeholderIndex st = length (placeholderMap st) /\
  forall n e, placeholderMap st !! n = Some e -> index e = n /\ placeholder e = token n.

(** [re] matches at the start of [s]. *)
Definition matches_at (re : regex) (s : jsstring) : option nat :=
  match_here (ignoreCase re) (body re) s.

(** No match of [re] starts within [gap] when [gap] is followed by [rest]. *)
Definition no_match_within (re : regex) (gap rest : jsstring) : Prop :=
  forall g1 g2, gap = g1 ++ g2 -> g2 <> [] -> matches_at re (g2 ++ rest) = None.

(** [placed re i ms s s']: [ms] are the matches of [re] in [s] as the global
    scan finds them (the leftmost match first, the search resuming where a
    match ends), and [s'] is [s] with each of these matches replaced, where
    it stands, by the tokens numbered from [i] on. *)
Inductive placed (re : regex) : nat -> list jsstring -> jsstring -> jsstring -> Prop :=
| placed_nil i s :
    no_match_within re s [] -> placed re i [] s s
| placed_cons i gap m ms rest rest' :
    no_match_within re gap (m ++ rest) ->
    matches_at re (m ++ rest) = Some (length m) ->
    placed re (S i) ms rest rest' ->
    placed re i (m :: ms) (gap ++ m ++ rest) (gap ++ token i ++ rest').


(** The code units of a token. *)
Definition token_unit (c : N) : Prop :=
  c ∈ [91; 93; 80; 82; 79; 84; 69; 67; 68; 95]%N \/ (48 <= c <= 57)%N.

(** What the substitution argument needs of a pattern: it matches no empty
    text and nothing that starts with a code unit of a token; a text that
    starts with one of its matches is matched in the same way whatever
    follows; and where it did not match before a match was replaced by a
    token, it does not match afterwards. *)
Record protective (re : regex) : Prop := Protective {
  prot_nonempty : forall s, matches_at re s <> Some 0%nat;
  prot_token : forall c s, token_unit c -> matches_at re (c :: s) = None;
  prot_prefix : forall m r v,
    matches_at re (m ++ r) = Some (length m) -> matches_at re (m ++ v) = Some (length m);
  prot_replaced : forall x m i rest,
    x <> [] -> matches_at re (m ++ rest) = Some (length m) ->
    matches_at re (x ++ m ++ rest) = None -> matches_at re (x ++ token i ++ rest) = None
}.

(** The third pattern class, the named placeholders [/\{[^}]+\}/g], in its
    parts: a brace, the longest run without a closing brace, the closing
    brace. *)
Definition not_closing : atom := Class (CharClass true [single "}"]).
Definition closing_tail : list quantified := [OneOrMore not_closing; Once (Lit (ch "}"))].
Definition braces : regex := Regex (Once (Lit (ch "{")) :: closing_tail) false.



(** The request that every attempt for [txt] sends. *)
Definition request_for (cfg : config) (txt : jsstring) : request :=
  Request DEEPL_API_URL (js "DeepL-Auth-Key " ++ apiKey cfg) (toUSVString txt)
          (toUSVString (sourceLang cfg)) (toUSVString (targetLang cfg)).

(** The failures of a request, as the specification classifies them.
    [rate_limited]: the remote answered 429.  [transient_network_failure]: the
    connection was reset or timed out, while connecting or while the body of
    an answer other than 429 was read. *)
Definition connection_error (e : js_error) : bool :=
  bool_decide (code e = Some (js "ECONNRESET")) || bool_decide (code e = Some (js "ETIMEDOUT")).

Definition rate_limited (f : fetched) : bool :=
  match f with
  | Resolved r => (status r =? 429)%nat
  | Rejected _ => false
  end.

Definition transient_network_failure (f : fetched) : bool :=
  match f with
  | Rejected e => connection_error e
  | Resolved r =>
      negb (status r =? 429)%nat &&
      (if ok r
       then match body_json r with Throw e => connection_error e | Normal _ => false end
       else match body_text r with Throw e => connection_error e | Normal _ => false end)
  end.

Definition retryable (f : fetched) : bool := rate_limited f || transient_network_failure f.

(** A successful answer: a 2xx response whose payload lists a translation;
    the result is the text of the first one. *)
Definition translation_of (f : fetched) : option jsstring :=
  match f with
  | Resolved r =>
      if ok r then
        match body_json r with
        | Normal data =>
            match translations data with
            | Some (t :: _) => Some (text t)
            | _ => None
            end
        | Throw _ => None
        end
      else None
  | Rejected _ => None
  end.

(** What the claim on failures that are not retried reads as in its first
    part: when the request of this call is met with a response that is
    neither 2xx nor 429, the call throws, having sent that one request and
    awaited nothing. *)
Definition surfaced_at_once `{Remote} (cfg : config) (txt : jsstring) (attempt : nat)
    (w : World) : Prop :=
  forall r,
    respond (calls w) (request_for cfg txt) = Resolved r ->
    ok r = false -> status r <> 429%nat ->
    (exists e, fst (translateWithRetry cfg txt attempt w) = Throw e) /\
    slept (snd (translateWithRetry cfg txt attempt w)) = slept w /\
    calls (snd (translateWithRetry cfg txt attempt w)) = S (calls w).

(** Whether one attempt ends with a retry (after which delay). *)
Definition retry_after (attempt : nat) (f : fetched) : option Z :=
  match try_block attempt f with
  | Returned _ => None
  | RateLimitRetry => Some (retryDelay attempt)
  | Thrown e => if catch_retries attempt e then Some (retryDelay attempt) else None
  end.

(** How a call that stops at this attempt completes. *)
Definition settle (t : tried) : completion jsstring :=
  match t with
  | Returned s => Normal s
  | RateLimitRetry => Throw (Error [])
  | Thrown e => Throw e
  end.

(** A world in which [n] requests were sent and nothing else happened. *)
Definition bare (n : nat) : World := MkWorld n [] ∅ [].

(** What [translateBatch] stores for a text whose translation completed
    with [c]: the translation, or the text itself when the call threw. *)
Definition kept_or_translated (txt : jsstring) (c : completion jsstring) : jsstring :=
  match c with
  | Normal translated => translated
  | Throw _ => txt
  end.

(** A progress callback that returns normally whenever it is called. *)
Definition returns_normally (onProgress : option progress_callback) : Prop :=
  forall f, onProgress = Some f -> forall current total w, fst (f current total w) = Normal ().

(** The world in which [translateBatch] leaves the iteration for index [i],
    given how the [translateText] call of that iteration ended: after a
    translation, the progress update and, when the callback returned, the
    pause between two texts. *)
Definition batch_next (onProgress : option progress_callback) (total i : nat)
    (r : completion jsstring * World) : World :=
  match r with
  | (Normal _, w1) =>
      match report onProgress (i + 1)%nat total w1 with
      | (Normal _, w2) => if (i <? total - 1)%nat then delay 100 w2 else w2
      | (Throw _, w2) => w2
      end
  | (Throw _, w1) => w1
  end.

(** What the claim on batches reads as in its first part: one result per
    text. *)
Definition one_result_per_text `{Remote} (cfg : config) (texts : list jsstring)
    (onProgress : option progress_callback) (w : World) : Prop :=
  length (fst (translateBatch cfg texts onProgress w)) = length texts.

(** *** Documents *)

(** A document as a parser returns it: within each object, no two properties
    have the same name. *)
Fixpoint wf (v : jsvalue) : bool :=
  match v with
  | VArr items => forallb wf items
  | VObj props =>
      bool_decide (NoDup (fst <$> props)) && forallb (fun kv => wf (snd kv)) props
  | _ => true
  end.

(** The name of the child at an ordinal: the decimal of the index for an
    element of an array, the property name for a property of an object. *)
Definition child_name (c : jsvalue) (i : nat) : option jsstring :=
  match c with
  | VArr items => (fun _ => decimal i) <$> items !! i
  | VObj props => fst <$> props !! i
  | _ => None
  end.

(** The names met on the way from the root to a position. *)
Fixpoint names_to (doc : jsvalue) (pos : objref) : list jsstring :=
  match pos with
  | [] => []
  | i :: pos' =>
      match child_name doc i, child doc i with
      | Some n, Some v => n :: names_to v pos'
      | _, _ => []
      end
  end.

(** Document order on positions: [p] is met before [q] by a walk that visits
    a container before its children and the children in the order of their
    ordinals. *)
Fixpoint precedes (p q : objref) : Prop :=
  match p, q with
  | [], _ :: _ => True
  | i :: p', j :: q' => i < j \/ (i = j /\ precedes p' q')
  | _, [] => False
  end.

Section Walk.
(** The extractors differ in three respects: the key under which an
    element of an array is held ([arrkey]: the index as a number, or its
    decimal as a string), the test the key of a string must pass
    ([keyok]: not null, or truthy), and the names of the children that are
    visited at all ([visit]). *)
Context (arrkey : nat -> jskey) (keyok : option jskey -> bool) (visit : jsstring -> bool).

(** The key under which a container holds its child at an ordinal. *)
Definition child_key (c : jsvalue) (i : nat) : option jskey :=
  match c with
  | VArr items => (fun _ => arrkey i) <$> items !! i
  | VObj props => (fun kv => KStr (fst kv)) <$> props !! i
  | _ => None
  end.

(** The key under which the node at a position is held by its container;
    [key] is the key of [doc] itself. *)
Fixpoint key_at (key : option jskey) (doc : jsvalue) (pos : objref) : option jskey :=
  match pos with
  | [] => key
  | i :: pos' =>
      match child doc i with
      | Some v => key_at (child_key doc i) v pos'
      | None => None
      end
  end.

(** The unit [it] refers to the child at position [q]: its reference is
    the container above [q], its key the key of that child. *)
Definition locates (doc : jsvalue) (it : item) (q : objref) : Prop :=
  exists p i c k,
    q = p ++ [i] /\ ref it = Some p /\ node_at doc p = Some c /\
    child_key c i = Some k /\ key it = Some k.

(** ... and its value is the string the document holds there. *)
Definition designates (doc : jsvalue) (it : item) (q : objref) : Prop :=
  locates doc it q /\ node_at doc q = Some (VStr (value it)).

(** The extractors as one walk. *)
Fixpoint walk (obj : jsvalue) (self : objref) (parent : option objref)
    (key : option jskey) : list item :=
  match obj with
  | VStr s =>
      if (0 <? length (trim s))%nat && parent_truthy parent && keyok key
      then [Item s parent key] else []
  | VArr items =>
      forEach (fun it index =>
                 if visit (decimal index)
                 then walk it (self ++ [index]) (Some self) (Some (arrkey index))
                 else [])
              0%nat items
  | VObj props =>
      forEntries (fun k v ord =>
                    if visit k
                    then walk v (self ++ [ord]) (Some self) (Some (KStr k))
                    else [])
                 0%nat props
  | VScalar _ => []
  end.

(** The positions, below [obj], of the strings the walk collects, in the
    order of the walk; [key] is the key of [obj] in its container. *)
Fixpoint positions (key : option jskey) (obj : jsvalue) : list objref :=
  match obj with
  | VStr s => if negb (blank s) && keyok key then [[]] else []
  | VArr items =>
      forEach (fun it index =>
                 if visit (decimal index)
                 then cons index <$> positions (Some (arrkey index)) it
                 else [])
              0%nat items
  | VObj props =>
      forEntries (fun k v ord =>
                    if visit k
                    then cons ord <$> positions (Some (KStr k)) v
                    else [])
                 0%nat props
  | VScalar _ => []
  end.
End Walk.

(** The four formats whose documents are trees and whose drivers share the
    incremental loop. *)
Inductive format : Type := Json | Yaml | Xml | Toml.

Definition extract (fmt : format) (data : jsvalue) : list item :=
  match fmt with
  | Json => JsonHandler.collectTranslatableValues data [] None None
  | Yaml => YamlHandler.collectTranslatableValues data [] None None
  | Xml => XmlHandler.collectTranslatableValues data [] None None
  | Toml => TomlHandler.collectTranslatableValues data [] None None
  end.

Definition translateFile `{Remote} `{Codec} (fmt : format)
    : jsstring -> jsstring -> config -> World -> completion () * World :=
  match fmt with
  | Json => JsonHandler.translateJsonFile
  | Yaml => YamlHandler.translateYamlFile
  | Xml => XmlHandler.translateXmlFile
  | Toml => TomlHandler.translateTomlFile
  end.

(** The three respects in which the extractors differ (see [walk]). *)
Definition array_key (fmt : format) : nat -> jskey :=
  match fmt with
  | Json | Toml => KNum
  | Yaml | Xml => fun i => KStr (decimal i)
  end.

Definition key_test (fmt : format) : option jskey -> bool :=
  match fmt with
  | Json | Yaml => key_not_null
  | Xml | Toml => key_truthy
  end.

Definition visits (fmt : format) : jsstring -> bool :=
  match fmt with
  | Xml => XmlHandler.visited
  | _ => fun _ => true
  end.

(** What a driver leaves when the document yields no unit: the JSON and YAML
    drivers return at once, the XML and TOML drivers first write the content
    of the input to the output path. *)
Definition without_units (fmt : format) (outputPath content : jsstring) (w : World) : World :=
  match fmt with
  | Json | Yaml => w
  | Xml | Toml => writeFile outputPath content w
  end.



(** The key of an array element in the XML (and YAML) extractor. *)
Definition decimal_key (i : nat) : jskey := KStr (decimal i).

(** What the claim reads as, for an extractor [collect] with array keys
    [arrkey]: every string leaf that is not blank and sits in a container is
    referred to by an extracted unit. *)
Definition extracts_every_leaf (arrkey : nat -> jskey)
    (collect : jsvalue -> objref -> option objref -> option jskey -> list item)
    (doc : jsvalue) : Prop :=
  forall q s,
    q <> [] -> node_at doc q = Some (VStr s) -> blank s = false ->
    exists it, it ∈ collect doc [] None None /\ designates arrkey doc it q.

(** An XML element with an attribute, and a TOML table with an array. *)
Definition xml_with_attribute : jsvalue :=
  VObj [(js "item", VObj [(js "@_id", VStr (js "main")); (js "#text", VStr (js "Hello"))])].

Definition toml_with_array : jsvalue :=
  VObj [(js "motd", VArr [VStr (js "Welcome"); VStr (js "Enjoy")])].

(** Test fixtures: a configuration, and a remote that is rate limited once,
    loses the connection once, and then answers every request by putting
    [DE:] before the text. *)
Definition cfg0 : config := Config (js "key") (js "EN") (js "DE").

Definition answer (txt : jsstring) : fetched :=
  Resolved (Response 200 (Normal []) (Normal (Payload (Some [Translation (js "EN") txt])))).

Definition flaky : Remote := fun n req =>
  match n with
  | 0%nat => Resolved (Response 429 (Normal (js "Too many requests")) (Throw (Error [])))
  | 1%nat => Rejected (JsError (js "socket hang up") (Some (js "ECONNRESET")))
  | _ => answer (js "DE:" ++ form_text req)
  end.

(** A remote that answers the request number [bad] with a server error and
    every other request with a translation. *)
Definition failing_at (bad : nat) : Remote := fun n req =>
  if (n =? bad)%nat
  then Resolved (Response 500 (Normal (js "Internal error")) (Throw (Error [])))
  else answer (js "DE:" ++ form_text req).

(** A remote that answers every request with a translation, and a progress
    callback that throws whenever it is called. *)
Definition translating : Remote := fun n req => answer (js "DE:" ++ form_text req).

Definition throwing_callback : progress_callback :=
  fun current total w => (Throw (Error (js "progress bar is closed")), w).

(** A remote that answers every request with status 404 and then loses the
    connection: reading the body fails with ECONNRESET. *)
Definition body_lost : Remote := fun n req =>
  Resolved (Response 404 (Throw (JsError (js "aborted") (Some (js "ECONNRESET"))))
                         (Throw (JsError (js "aborted") (Some (js "ECONNRESET"))))).

(** A remote that answers every request with an empty translations list. *)
Definition answers_nothing : Remote := fun n req =>
  Resolved (Response 200 (Normal []) (Normal (Payload (Some [])))).

(** A codec for the fixtures: every file parses to the given document, and a
    document is serialized as its strings, each followed by a line feed. *)
Fixpoint strings_of (v : jsvalue) : jsstring :=
  match v with
  | VStr s => s ++ [10%N]
  | VArr items => concat (List.map strings_of items)
  | VObj props => concat (List.map (fun kv => strings_of (snd kv)) props)
  | VScalar _ => []
  end.

Definition fixture_codec (doc : jsvalue) : Codec := MkCodec (fun _ => Normal doc) strings_of.


Definition three_leaves : jsvalue :=
  VObj [(js "title", VStr (js "Apple"));
        (js "lines", VArr [VStr (js "Banana"); VScalar (SNumber (js "7")); VStr (js "Cherry")])].

Definition no_leaves : jsvalue := VObj [(js "count", VScalar (SNumber (js "3")))].

Definition on_disk (path content : jsstring) : World := MkWorld 0 [] {[ path := content ]} [].

End Spec.


(** * Induction on documents and walks over children *)

Module Walks.
Import JS Document.

(** Structural induction on documents, through the lists of children. *)
Section Induction.
Context (P : jsvalue -> Prop).
Hypothesis Hscalar : forall c, P (VScalar c).
Hypothesis Hstr : forall s, P (VStr s).
Hypothesis Harr : forall items, Forall P items -> P (VArr items).
Hypothesis Hobj : forall props, Forall (fun kv => P (snd kv)) props -> P (VObj props).

Fixpoint jsvalue_ind (v : jsvalue) : P v :=
  match v with
  | VScalar c => Hscalar c
  | VStr s => Hstr s
  | VArr items =>
      Harr items
        ((fix go (l : list jsvalue) : Forall P l :=
            match l with
            | [] => List.Forall_nil P
            | x :: l' => @List.Forall_cons _ P x l' (jsvalue_ind x) (go l')
            end) items)
  | VObj props =>
      Hobj props
        ((fix go (l : list (jsstring * jsvalue)) : Forall (fun kv => P (snd kv)) l :=
            match l with
            | [] => List.Forall_nil _
            | kv :: l' => @List.Forall_cons _ _ kv l' (jsvalue_ind (snd kv)) (go l')
            end) props)
  end.
End Induction.

(** Both walks over the children of a container are instances of one
    indexed walk over a list. *)
Definition iwalk {A B : Type} (f : B -> nat -> list A) : nat -> list B -> list A :=
  fix go (n : nat) (l : list B) : list A :=
    match l with
    | [] => []
    | x :: l' => f x n ++ go (S n) l'
    end.

End Walks.

(** * Further vocabulary: what stays hidden, what comes back *)

Module Notions.
Import JS Utils Translator Document Spec Lines PropertiesHandler.

Local Open Scope nat_scope.

(** What the argument that nothing protected is left in the text needs of a
    pattern: it matches nothing that starts with a closing brace, and where
    it did not match before some text (not empty and not starting with a
    closing brace) was replaced by a token, it does not match afterwards. *)
Record discreet (re : regex) : Prop := Discreet {
  disc_closing : forall s, matches_at re (125%N :: s) = None;
  disc_replaced : forall x m i rest,
    x <> [] -> m <> [] -> head m <> Some 125%N ->
    matches_at re (x ++ m ++ rest) = None -> matches_at re (x ++ token i ++ rest) = None
}.

(** [pat] occurs in [s]. *)
Definition occurs (pat s : jsstring) : Prop := exists u v, s = u ++ pat ++ v.

(** No token numbered [k] or higher occurs in [s]. *)
Definition fresh_from (k : nat) (s : jsstring) : Prop :=
  forall j, k <= j -> ~ occurs (token j) s.

(** *** Line-based files *)

(** The text with every carriage return that stands directly before a line
    feed left out. *)
Fixpoint crlf_to_lf (s : jsstring) : jsstring :=
  match s with
  | [] => []
  | c :: s' =>
      match s' with
      | d :: _ => if ((c =? 13) && (d =? 10))%N then crlf_to_lf s' else c :: crlf_to_lf s'
      | [] => [c]
      end
  end.

(** How the translations of the texts [texts] complete when they are asked
    for one after the other, [n] requests having been sent before. *)
Fixpoint outcomes `{Remote} (cfg : config) (n : nat) (texts : list jsstring)
    : list (completion jsstring) :=
  match texts with
  | [] => []
  | txt :: texts' =>
      let r := translateText cfg txt (bare n) in
      fst r :: outcomes cfg (calls (snd r)) texts'
  end.

Definition returned {A : Type} (c : completion A) : bool :=
  match c with Normal _ => true | Throw _ => false end.

(** The loop that the line-based drivers share in shape: each item gives a
    text to translate; a translation is stored in the state, and the file
    rendered from the state is written; a failure leaves state and file
    alone. *)
Section Loop.
Context `{Remote} {St It : Type}.
Context (cfg : config) (outputPath : jsstring).
Context (text : It -> jsstring) (upd : St -> It -> jsstring -> St) (render : St -> jsstring).

Fixpoint rewrite_loop (total i : nat) (items : list It) (st : St) (w : World) : St * World :=
  match items with
  | [] => (st, w)
  | it :: items' =>
      match translateText cfg (text it) w with
      | (Normal translated, w1) =>
          let st1 := upd st it translated in
          rewrite_loop total (S i) items' st1
            (progressBar_update (i + 1) total (writeFile outputPath (render st1) w1))
      | (Throw e, w1) =>
          rewrite_loop total (S i) items' st (progressBar_update (i + 1) total w1)
      end
  end.

(** The state after an item whose translation completed with [c]. *)
Definition stored (st : St) (ic : It * completion jsstring) : St :=
  match ic with
  | (it, Normal translated) => upd st it translated
  | (_, Throw _) => st
  end.
End Loop.

(** The lines of a text file after its translation: a blank line stays, and
    the lines that are not blank take, in order, the outcomes [outs] of their
    translations, a line whose translation failed staying as it was. *)
Fixpoint txt_lines (lines : list jsstring) (outs : list (completion jsstring))
    : list jsstring :=
  match lines with
  | [] => []
  | line :: lines' =>
      if blank line then line :: txt_lines lines' outs
      else
        match outs with
        | c :: outs' => kept_or_translated line c :: txt_lines lines' outs'
        | [] => line :: txt_lines lines' []
        end
  end.

(** The assignment [translatedLines[index] = translated] of the text
    driver, as the update of the loop. *)
Definition txt_update (st : list jsstring) (it : jsstring * nat) (translated : jsstring)
    : list jsstring :=
  <[snd it := translated]> st.

(** The lines of a text file that are not blank. *)
Definition txt_texts (lines : list jsstring) : list jsstring :=
  filter (fun line => blank line = false) lines.

(** *** Properties files *)

(** The translatable entries with their positions and the values they hold
    when the loop starts. *)
Fixpoint prop_items (pos : nat) (entries : list entry) : list (nat * jsstring) :=
  match entries with
  | [] => []
  | e :: entries' =>
      match e with
      | Property _ value _ _ =>
          if (0 <? length value)%nat then (pos, value) :: prop_items (S pos) entries'
          else prop_items (S pos) entries'
      | Comment _ _ => prop_items (S pos) entries'
      end
  end.

(** The assignment [entry.value = translated] of the properties driver, as
    the update of the loop. *)
Definition prop_update (st : list entry) (it : nat * jsstring) (translated : jsstring)
    : list entry :=
  match st !! fst it with
  | Some (Property key _ originalLine index) =>
      <[fst it := Property key translated originalLine index]> st
  | _ => st
  end.

(** The file written for the entries. *)
Definition render_all (st : list entry) : jsstring := join [10%N] (render <$> st).

(** The values that are translated: those of the properties whose value is
    not empty. *)
Definition prop_texts (entries : list entry) : list jsstring := snd <$> prop_items 0 entries.

(** The entries after the translation: a property whose value is not empty
    takes the outcome of its translation, in order; everything else stays. *)
Fixpoint prop_entries (entries : list entry) (outs : list (completion jsstring))
    : list entry :=
  match entries with
  | [] => []
  | e :: entries' =>
      match e with
      | Property key value originalLine index =>
          if (0 <? length value)%nat then
            match outs with
            | c :: outs' =>
                Property key (kept_or_translated value c) originalLine index
                :: prop_entries entries' outs'
            | [] => e :: prop_entries entries' []
            end
          else e :: prop_entries entries' outs
      | Comment _ _ => e :: prop_entries entries' outs
      end
  end.

(** *** TOML strings *)

(** A character as the writer escapes it. *)
Definition escape_unit (c : N) : jsstring :=
  if (c =? 92)%N then [92; 92]%N else if (c =? 34)%N then [92; 34]%N else [c].

(** What a reader that knows the two escapes of the writer (a backslash
    before a backslash, and before a double quote) reads from the text after
    an opening double quote: the string up to the closing quote, and the
    text after it. *)
Fixpoint read_quoted (s : jsstring) : option (jsstring * jsstring) :=
  match s with
  | [] => None
  | c :: s' =>
      if (c =? 34)%N then Some ([], s')
      else if (c =? 92)%N then
        match s' with
        | d :: s'' =>
            if ((d =? 92) || (d =? 34))%N
            then (fun r => (d :: fst r, snd r)) <$> read_quoted s''
            else None
        | [] => None
        end
      else (fun r => (c :: fst r, snd r)) <$> read_quoted s'
  end.

(** *** Fixtures *)

(** A remote that answers every request with the text it was sent. *)
Definition echo : Remote := fun n req => answer (form_text req).

(** A remote that answers like [flaky] when it is asked about [txt] and
    rejects every other request. *)
Definition only_about (txt : jsstring) : Remote := fun n req =>
  if bool_decide (form_text req = txt) then flaky n req
  else Rejected (Error (js "unexpected text")).

End Notions.

(** * Vocabulary for the drivers over the live object graph *)

Module LiveSpec.
Import JS Utils Translator Document Spec Live.

Local Open Scope nat_scope.

(** A heap as JavaScript has it: within each object, no two properties have
    the same name. *)
Definition wf_cell (c : cell) : Prop :=
  match c with
  | CObj props => NoDup (fst <$> props)
  | CArr _ => True
  end.

#[global] Instance wf_cell_dec c : Decision (wf_cell c).
Proof. destruct c; simpl; apply _. Defined.

Definition wf (h : heap) : bool := bool_decide (map_Forall (fun _ c => wf_cell c) h).

(** The place a unit refers to: the object of its reference and the name
    under which its key addresses a property of that object.  Two units with
    the same place read and write the same property. *)
Definition place (it : item) : option address * jsstring := (ref it, prop_name (key it)).

(** The extractors and the drivers, by format. *)
Definition extract (fmt : format) (depth : nat) (h : heap) (data : jsref)
    : completion (list item) :=
  match fmt with
  | Json => LiveJson.collectTranslatableValues depth h data None None
  | Yaml => LiveYaml.collectTranslatableValues depth h data None None
  | Xml => LiveXml.collectTranslatableValues depth h data None None
  | Toml => LiveToml.collectTranslatableValues depth h data None None
  end.

Definition translateFile `{Remote} `{Codec} (fmt : format) (depth : nat)
    : jsstring -> jsstring -> config -> World -> completion () * World :=
  match fmt with
  | Json => LiveJson.translateJsonFile depth
  | Yaml => LiveYaml.translateYamlFile depth
  | Xml => LiveXml.translateXmlFile depth
  | Toml => LiveToml.translateTomlFile depth
  end.

(** The extractors as one walk (see [Spec.walk]). *)
Section Walk.
Context (arrkey : nat -> jskey) (keyok : option jskey -> bool) (visit : jsstring -> bool).

Fixpoint walk (depth : nat) (h : heap) (obj : jsref)
    (parent : option address) (key : option jskey) : completion (list item) :=
  match depth with
  | O => Throw (RangeError (js "Maximum call stack size exceeded"))
  | S depth' =>
      match obj with
      | RStr s =>
          Normal (if (0 <? length (trim s))%nat && parent_truthy parent && keyok key
                  then [Item s parent key] else [])
      | RScalar _ => Normal []
      | RObject a =>
          match h !! a with
          | Some (CArr items) =>
              forEach (fun it index =>
                         if visit (decimal index)
                         then walk depth' h it (Some a) (Some (arrkey index))
                         else Normal [])
                      0 items
          | Some (CObj props) =>
              forEntries (fun k v ord =>
                            if visit k
                            then walk depth' h v (Some a) (Some (KStr k))
                            else Normal [])
                         0 props
          | None => Normal []
          end
      end
  end.
End Walk.

(** What the claim on unit isolation reads as, for the files that a driver
    finds at [inputPath] in the world [w]: whenever the document has exactly
    the units [A; B; C] and the translation of [B] throws while those of [A]
    and [C] return, the driver returns normally and leaves an output file
    that is the serialization of a document holding the translation at [A]
    and at [C] and the original value at [B].  Each call is made where the
    previous one left the request counter. *)
Definition isolates `{Remote} `{Codec} (fmt : format) (depth : nat) (cfg : config)
    (inputPath outputPath : jsstring) (w : World) : Prop :=
  forall content data h itA itB itC a c e wA wB wC,
    disk w !! inputPath = Some content -> parse content = Normal (data, h) ->
    wf h = true ->
    extract fmt depth h data = Normal [itA; itB; itC] ->
    translateText cfg (value itA) (bare (calls w)) = (Normal a, wA) ->
    translateText cfg (value itB) (bare (calls wA)) = (Throw e, wB) ->
    translateText cfg (value itC) (bare (calls wB)) = (Normal c, wC) ->
    exists (final : heap) (w' : World),
      translateFile fmt depth inputPath outputPath cfg w = (Normal (), w') /\
      disk w' !! outputPath = Some (stringify final data) /\
      read final itA = Some (RStr a) /\
      read final itB = Some (RStr (value itB)) /\
      read final itC = Some (RStr c).

(** *** Fixtures *)

(** A serializer for the fixtures: the strings of the value, in the order of
    a walk through the heap, each followed by a line feed. *)
Fixpoint strings_of (depth : nat) (h : heap) (v : jsref) : jsstring :=
  match depth with
  | O => []
  | S depth' =>
      match v with
      | RStr s => s ++ [10%N]
      | RScalar _ => []
      | RObject a =>
          match h !! a with
          | Some (CArr items) => concat (List.map (strings_of depth' h) items)
          | Some (CObj props) => concat (List.map (fun kv => strings_of depth' h (snd kv)) props)
          | None => []
          end
      end
  end.

(** A codec for the fixtures: every file parses to the given document. *)
Definition fixture_codec (data : jsref) (h : heap) : Codec :=
  MkCodec (fun _ => Normal (data, h)) (strings_of 8).

(** The document of the YAML text
    [a: &x {t: hi}], [b: *x], [c: bye]:
    the object under [a] is also the object under [b]. *)
Definition aliased : heap :=
  {[ 0 := CObj [(js "a", RObject 1); (js "b", RObject 1); (js "c", RStr (js "bye"))];
     1 := CObj [(js "t", RStr (js "hi"))] ]}.

(** The document of the JSON text
    [{"title": "Apple", "lines": ["Banana", 7, "Cherry"]}]. *)
Definition three_leaves : heap :=
  {[ 0 := CObj [(js "title", RStr (js "Apple")); (js "lines", RObject 1)];
     1 := CArr [RStr (js "Banana"); RScalar (SNumber (js "7")); RStr (js "Cherry")] ]}.

End LiveSpec.
(** * Verification *)

(** ** Facts about the string primitives *)

Module JSFacts.
Import JS Spec.

Lemma trimStart_nil s : trimStart s = [] <-> blank s = true.
Proof.
  induction s as [|c s IH]; simpl; [done|].
  destruct (is_whitespace c); simpl; [done|]. split; discriminate.
Qed.

Lemma blank_app s t : blank (s ++ t) = blank s && blank t.
Proof. apply forallb_app. Qed.

Lemma blank_rev s : blank (rev s) = blank s.
Proof.
  induction s as [|c s IH]; simpl; [done|].
  rewrite blank_app, IH. simpl. rewrite andb_true_r. apply andb_comm.
Qed.

Lemma trimStart_blank s : blank s = false -> blank (trimStart s) = false.
Proof.
  induction s as [|c s IH]; simpl; [done|].
  destruct (is_whitespace c) eqn:E; simpl; [done|]. by rewrite E.
Qed.

(** [s.trim().length === 0] exactly when [s] is blank. *)
Lemma trim_length_zero s : (length (trim s) =? 0)%nat = blank s.
Proof.
  unfold trim, trimEnd. rewrite length_rev.
  destruct (blank s) eqn:E.
  - apply trimStart_nil in E. rewrite E. reflexivity.
  - apply trimStart_blank in E. rewrite <- blank_rev in E.
    destruct (trimStart (rev (trimStart s))) eqn:E2; [|done].
    apply trimStart_nil in E2. congruence.
Qed.

Lemma trim_length_pos s : (0 <? length (trim s))%nat = negb (blank s).
Proof.
  rewrite <- trim_length_zero. by destruct (length (trim s)).
Qed.

(** The decimal of a number determines the number and is never empty. *)
Lemma uint_units_inj d1 d2 : uint_units d1 = uint_units d2 -> d1 = d2.
Proof.
  revert d2. induction d1; intros [] H; simpl in H; try discriminate; try done;
    injection H as H; f_equal; auto.
Qed.

Lemma decimal_inj n m : decimal n = decimal m -> n = m.
Proof.
  unfold decimal. intros H%uint_units_inj.
  rewrite <- (DecimalNat.Unsigned.of_to n), <- (DecimalNat.Unsigned.of_to m). by f_equal.
Qed.

Lemma uint_units_digits d : Forall (fun c => 48 <= c <= 57) (uint_units d).
Proof. induction d; simpl; constructor; (lia || done). Qed.

Lemma decimal_digits n : Forall (fun c => 48 <= c <= 57) (decimal n).
Proof. apply uint_units_digits. Qed.

Lemma decimal_nonempty n : decimal n <> [].
Proof.
  unfold decimal. intros H.
  assert (Nat.to_uint n = Nil) as E by (apply uint_units_inj; by rewrite H).
  pose proof (DecimalNat.Unsigned.to_of (Nat.to_uint n)) as Hn.
  rewrite DecimalNat.Unsigned.of_to, E in Hn. discriminate.
Qed.

(** [startsWith] and the first occurrence. *)
Lemma startsWith_spec p s : startsWith p s = true <-> exists t, s = p ++ t.
Proof.
  revert s. induction p as [|a p IH]; intros s; simpl.
  - split; [eauto|done].
  - destruct s as [|b s]; [split; [done|by intros [t Ht]]|].
    rewrite andb_true_iff, N.eqb_eq, IH. split.
    + intros [-> [t ->]]. eauto.
    + intros [t Ht]. injection Ht as -> ->. eauto.
Qed.

Lemma split_first_sound pat s before after :
  split_first pat s = Some (before, after) -> s = before ++ pat ++ after.
Proof.
  revert before. induction s as [|c s IH]; intros before; simpl.
  - destruct (startsWith pat []) eqn:E; [|done].
    intros [= <- <-]. apply startsWith_spec in E as [t Ht].
    symmetry in Ht. apply app_eq_nil in Ht as [-> ->]. done.
  - destruct (startsWith pat (c :: s)) eqn:E.
    + intros [= <- <-]. apply startsWith_spec in E as [t Ht].
      rewrite Ht at 2. by rewrite drop_app_length.
    + destruct (split_first pat s) as [[a b]|] eqn:E2; [|done].
      simpl. intros [= <- <-]. simpl. f_equal. by apply IH.
Qed.

(** A replacement text without a dollar sign stands for itself. *)
Lemma getSubstitution_plain matched before after rep :
  Forall (fun c => c <> 36) rep -> getSubstitution matched before after rep = rep.
Proof.
  induction 1 as [|c rep Hc Hrep IH]; simpl; [done|].
  apply N.eqb_neq in Hc. rewrite Hc. by rewrite IH.
Qed.

Lemma replace_plain s pat rep :
  Forall (fun c => c <> 36) rep ->
  replace s pat rep =
    match split_first pat s with
    | Some (before, after) => before ++ rep ++ after
    | None => s
    end.
Proof.
  intros H. unfold replace. destruct (split_first pat s) as [[b a]|]; [|done].
  by rewrite getSubstitution_plain.
Qed.

End JSFacts.

(** ** utils.js: what the placeholder functions do *)

Module UtilsFacts.
Import JS Utils Spec JSFacts.

Lemma token_cons i : exists rest, token i = 91 :: rest.
Proof. unfold token. simpl. eauto. Qed.

Lemma token_plain i : Forall (fun c => c <> 36) (token i).
Proof.
  unfold token. rewrite !Forall_app. split_and!.
  - by repeat constructor.
  - eapply Forall_impl; [apply decimal_digits|]. simpl. intros c Hc ->. lia.
  - by repeat constructor.
Qed.

Lemma token_not_blank i : blank (token i) = false.
Proof. destruct (token_cons i) as [rest ->]. reflexivity. Qed.


(** Substituting a token leaves a text that is not blank. *)
Lemma replace_token_not_blank s pat i :
  blank s = false -> blank (replace s pat (token i)) = false.
Proof.
  intros Hs. rewrite replace_plain by apply token_plain.
  destruct (split_first pat s) as [[b a]|]; [|done].
  rewrite !blank_app, token_not_blank. simpl. apply andb_false_r.
Qed.

Lemma protect_match_not_blank st orig :
  blank (protectedText st) = false -> blank (protectedText (protect_match st orig)) = false.
Proof. intros H. simpl. by apply replace_token_not_blank. Qed.

Lemma protect_matches_not_blank ms st :
  blank (protectedText st) = false ->
  blank (protectedText (fold_left protect_match ms st)) = false.
Proof.
  revert st. induction ms as [|m ms IH]; intros st H; simpl; [done|].
  apply IH. by apply protect_match_not_blank.
Qed.

Lemma protect_patterns_not_blank res st :
  blank (protectedText st) = false ->
  blank (protectedText (fold_left protect_pattern res st)) = false.
Proof.
  revert st. induction res as [|re res IH]; intros st H; simpl; [done|].
  apply IH. by apply protect_matches_not_blank.
Qed.

Lemma protectPlaceholders_not_blank t :
  blank t = false -> blank (fst (protectPlaceholders t)) = false.
Proof.
  intros H. unfold protectPlaceholders. destruct t as [|c t]; [done|].
  simpl negb. cbv iota. cbn [fst]. by apply protect_patterns_not_blank.
Qed.

(** What [shouldTranslate] computes: whether the text is not blank.  The
    test on the protected text never fires, because a protected match is
    replaced by a token, which is not white space. *)
Lemma shouldTranslate_not_blank t : shouldTranslate t = negb (blank t).
Proof.
  unfold shouldTranslate. destruct t as [|c t]; [done|].
  cbn [truthy negb]. cbv iota.
  rewrite trim_length_zero. destruct (blank (c :: t)) eqn:E; [done|].
  rewrite trim_length_zero, protectPlaceholders_not_blank; done.
Qed.

End UtilsFacts.

(** ** utils.js: the behaviour on the inputs the specification names *)

Module UtilsClaims.
Import JS Utils Spec JSFacts UtilsFacts.

(** C6 (divergence).  A text made of protected matches only is still
    reported as translatable: after protection it consists of tokens, which
    are not white space.  The three texts the specification expects to be
    skipped, and the sentence it expects to be translated, all give [true];
    the first three indeed consist of protected matches only. *)
Lemma shouldTranslate_protected_only :
  shouldTranslate (js "&a") = true /\
  shouldTranslate (js "{player}") = true /\
  shouldTranslate (js "&a{player}") = true /\
  shouldTranslate (js "&aHello {player}") = true /\
  fst (protectPlaceholders (js "&a")) = token 0 /\
  fst (protectPlaceholders (js "{player}")) = token 0 /\
  fst (protectPlaceholders (js "&a{player}")) = token 0 ++ token 1.
Proof. repeat split; vm_compute; reflexivity. Qed.

(** C2 (divergence).  Restoring does not always give the text back.  A
    protected match is put back as the replacement text of
    [String.prototype.replace], in which a dollar sign is special: the
    placeholder [{$$}] comes back as [{$}].  And a text that already holds a
    token has that occurrence restored instead of the substituted one. *)
Lemma restore_protect_dollar :
  restorePlaceholders (fst (protectPlaceholders (js "{$$}")))
                      (snd (protectPlaceholders (js "{$$}")))
  = js "{$}" /\
  restorePlaceholders (fst (protectPlaceholders (js "[[PROTECTED_0]] &a")))
                      (snd (protectPlaceholders (js "[[PROTECTED_0]] &a")))
  = js "&a [[PROTECTED_0]]".
Proof. split; vm_compute; reflexivity. Qed.

(** On the texts of the specification's own examples the round trip holds. *)
Example restore_protect_examples :
  Forall (fun t => restorePlaceholders (fst (protectPlaceholders t))
                                       (snd (protectPlaceholders t)) = t)
         [js ""; js "Hello"; js "&aHello {player}"; js "&a&l{a}{b}%s%%";
          js "{&a}"; js "100%% of %d {items} &cleft"].
Proof. repeat constructor; vm_compute; reflexivity. Qed.

End UtilsClaims.

(** ** utils.js: the substitutions of [protectPlaceholders] *)

Module ProtectFacts.
Import JS Utils Spec JSFacts UtilsFacts.

Local Open Scope nat_scope.

(** *** The first occurrence *)

Lemma split_first_complete pat before : forall s after,
  s = before ++ pat ++ after -> is_Some (split_first pat s).
Proof.
  induction before as [|c before IH]; intros s after ->.
  - destruct (pat ++ after) as [|c s] eqn:E; simpl.
    + apply app_eq_nil in E as [-> ->]. by eexists.
    + rewrite <- E. assert (startsWith pat (pat ++ after) = true) as ->
        by (apply startsWith_spec; eauto). by eexists.
  - simpl. destruct (startsWith pat (c :: before ++ pat ++ after)); [by eexists|].
    destruct (IH _ after eq_refl) as [[b a] ->]. by eexists.
Qed.

Lemma split_first_minimal pat s : forall before after,
  split_first pat s = Some (before, after) ->
  forall before' after', s = before' ++ pat ++ after' -> length before <= length before'.
Proof.
  induction s as [|c s IH]; intros before after; simpl.
  - destruct (startsWith pat []); [|done]. intros [= <- <-] ? ? _. simpl. lia.
  - destruct (startsWith pat (c :: s)) eqn:E.
    + intros [= <- <-] ? ? _. simpl. lia.
    + destruct (split_first pat s) as [[b a]|] eqn:E2; [|done]. simpl.
      intros [= <- <-] before' after' Hs.
      destruct before' as [|c' before'].
      * simpl in Hs. assert (startsWith pat (c :: s) = true)
          by (apply startsWith_spec; eauto). congruence.
      * injection Hs as -> Hs. simpl. apply le_n_S. by eapply IH.
Qed.

Lemma split_first_first pat s before after :
  split_first pat s = Some (before, after) -> first_occurrence s pat before after.
Proof.
  intros Hs. split; [by apply split_first_sound|by eapply split_first_minimal].
Qed.

(** Substituting a token for a text that occurs: the first occurrence is
    replaced, and what follows a given occurrence is kept. *)
Lemma replace_token_occurring s m i A R :
  s = A ++ m ++ R ->
  exists before after x,
    first_occurrence s m before after /\
    replace s m (token i) = before ++ token i ++ after /\
    after = x ++ R.
Proof.
  intros Hs. destruct (split_first_complete m A s R Hs) as [[b a] Hsplit].
  pose proof (split_first_first _ _ _ _ Hsplit) as [Hba Hmin].
  exists b, a, (take (length A - length b) a). split_and!.
  - done.
  - rewrite replace_plain by apply token_plain. by rewrite Hsplit.
  - specialize (Hmin A R Hs).
    rewrite <- (take_drop (length A - length b) a) at 1. f_equal.
    assert (a = drop (length b + length m) s) as ->.
    { rewrite Hba, app_assoc, <- length_app. by rewrite drop_app_length. }
    rewrite drop_drop.
    replace (length b + length m + (length A - length b)) with (length (A ++ m))
      by (rewrite length_app; lia).
    by rewrite Hs, app_assoc, drop_app_length.
Qed.

(** *** The scan *)

Lemma match_here_le ic p : forall s n, match_here ic p s = Some n -> n <= length s.
Proof.
  induction p as [|[a|a] p IH]; intros s n; simpl.
  - intros [= <-]. lia.
  - destruct s as [|c s]; [done|]. destruct (atom_matches ic a c); [|done].
    destruct (match_here ic p s) as [k|] eqn:E; [|done]. simpl.
    intros [= <-]. apply IH in E. simpl. lia.
  - revert n. induction s as [|c s IHs]; intros n; [done|].
    destruct (atom_matches ic a c); [|done].
    match goal with |- context [match ?x with Some _ => _ | None => _ end] =>
      case_eq x; [intros k E|intros E] end.
    + intros [= <-]. apply IHs in E. simpl. lia.
    + destruct (match_here ic p s) as [k|] eqn:E2; [|done]. simpl.
      intros [= <-]. apply IH in E2. simpl. lia.
Qed.

Lemma interleaved_gap ms s gap : interleaved ms s -> interleaved ms (gap ++ s).
Proof.
  intros [s'|g m ms' rest Hrest]; [constructor|].
  rewrite app_assoc. by constructor.
Qed.

Lemma scan_interleaved re : forall s skip,
  skip <= length s -> interleaved (scan re skip s) (drop skip s).
Proof.
  induction s as [|c s IH]; intros skip Hskip.
  - destruct skip; simpl; [|constructor].
    destruct (match_here _ _ []) as [n|] eqn:E; [|constructor].
    apply match_here_le in E. simpl in E. assert (n = 0) as -> by lia.
    apply (interleaved_cons [] [] [] []). constructor.
  - destruct skip as [|k]; simpl.
    + destruct (match_here _ _ (c :: s)) as [n|] eqn:E.
      * apply match_here_le in E. simpl in E.
        destruct n as [|n]; simpl.
        -- apply (interleaved_cons [c] [] _ s). apply (IH 0). lia.
        -- assert (interleaved ((c :: take n s) :: scan re n s)
                               ([] ++ (c :: take n s) ++ drop n s)) as Hi
             by (constructor; apply IH; lia).
           simpl in Hi. by rewrite take_drop in Hi.
      * apply (interleaved_gap _ s [c]). apply (IH 0). lia.
    + apply IH. simpl in Hskip. lia.
Qed.

Lemma matchAll_interleaved re s : interleaved (matchAll re s) s.
Proof. apply (scan_interleaved re s 0). lia. Qed.

(** *** The two loops *)

Lemma protect_match_numbered st m : numbered st -> numbered (protect_match st m).
Proof.
  intros [Hidx Hmap]. split; simpl.
  - rewrite length_app. simpl. lia.
  - intros n e Hn. apply lookup_app_Some in Hn as [Hn|[Hge Hn]]; [by apply Hmap|].
    apply list_lookup_singleton_Some in Hn as [Hn <-]. simpl.
    assert (n = length (placeholderMap st)) as -> by lia. by rewrite Hidx.
Qed.

Lemma protect_matches_numbered ms : forall st,
  numbered st -> numbered (fold_left protect_match ms st).
Proof.
  induction ms as [|m ms IH]; intros st Hst; simpl; [done|].
  by apply IH, protect_match_numbered.
Qed.

Lemma protect_patterns_numbered res : forall st,
  numbered st -> numbered (fold_left protect_pattern res st).
Proof.
  induction res as [|re res IH]; intros st Hst; simpl; [done|].
  by apply IH, protect_matches_numbered.
Qed.



Lemma substituted_app t es1 : forall t1 es2 t2,
  substituted t es1 t1 -> substituted t1 es2 t2 -> substituted t (es1 ++ es2) t2.
Proof.
  revert t. induction es1 as [|e es1 IH]; intros t t1 es2 t2; simpl.
  - by intros ->.
  - intros (b & a & Hfirst & Hrest) H2. exists b, a. split; [done|]. by eapply IH.
Qed.

(** One pattern class: every match is recorded, and every recorded match is
    substituted, at the first occurrence of its text. *)
Lemma protect_matches_substituted ms S :
  interleaved ms S ->
  forall st A, protectedText st = A ++ S ->
  exists new,
    placeholderMap (fold_left protect_match ms st) = placeholderMap st ++ new /\
    original <$> new = ms /\
    substituted (protectedText st) new (protectedText (fold_left protect_match ms st)).
Proof.
  induction 1 as [S|gap m ms rest Hrest IH]; intros st A Htext.
  - exists []. by rewrite app_nil_r.
  - rewrite app_assoc in Htext.
    destruct (replace_token_occurring _ m (placeholderIndex st) _ rest Htext)
      as (b & a & x & Hfirst & Hrep & ->).
    destruct (IH (protect_match st m) (b ++ token (placeholderIndex st) ++ x))
      as (new & Hmap & Horig & Hsub).
    { unfold protect_match. cbn [protectedText]. rewrite Hrep. by rewrite <- !app_assoc. }
    exists (Entry (token (placeholderIndex st)) m (placeholderIndex st) :: new).
    cbn [fold_left substituted fmap list_fmap original placeholder]. split_and!.
    + rewrite Hmap. unfold protect_match. cbn [placeholderMap]. by rewrite <- app_assoc.
    + by rewrite Horig.
    + exists b, (x ++ rest). split; [done|].
      unfold protect_match in Hsub at 1. cbn [protectedText] in Hsub.
      by rewrite Hrep in Hsub.
Qed.

Lemma protect_patterns_substituted res : forall st,
  exists new,
    placeholderMap (fold_left protect_pattern res st) = placeholderMap st ++ new /\
    original <$> new = matches_in_order res st /\
    substituted (protectedText st) new (protectedText (fold_left protect_pattern res st)).
Proof.
  induction res as [|re res IH]; intros st; simpl.
  - exists []. by rewrite app_nil_r.
  - destruct (protect_matches_substituted _ _ (matchAll_interleaved re (protectedText st))
                st [] eq_refl) as (new1 & Hmap1 & Horig1 & Hsub1).
    destruct (IH (protect_pattern st re)) as (new2 & Hmap2 & Horig2 & Hsub2).
    exists (new1 ++ new2). split_and!.
    + unfold protect_pattern in Hmap2 |- *. by rewrite Hmap2, Hmap1, app_assoc.
    + by rewrite fmap_app, Horig1, Horig2.
    + eapply substituted_app; [exact Hsub1|exact Hsub2].
Qed.

End ProtectFacts.

(** ** utils.js: every match is replaced where it stands *)

Module InPlace.
Import JS Utils Spec JSFacts UtilsFacts ProtectFacts.

Local Open Scope nat_scope.

(** *** The scan, with what lies between the matches *)

Lemma no_match_within_cons re c gap rest :
  matches_at re (c :: gap ++ rest) = None -> no_match_within re gap rest ->
  no_match_within re (c :: gap) rest.
Proof.
  intros Hc Hgap [|c' g1] g2; simpl.
  - by intros <-.
  - intros [= <- ->] Hg2. by apply (Hgap g1 g2).
Qed.

Lemma no_match_within_nil re rest : no_match_within re [] rest.
Proof. intros g1 g2 Hg. symmetry in Hg. by apply app_eq_nil in Hg as [_ ->]. Qed.

Lemma placed_gap re i c ms s s' :
  matches_at re (c :: s) = None -> placed re i ms s s' -> placed re i ms (c :: s) (c :: s').
Proof.
  intros Hc Hs. inversion Hs as [i' s0 Hnone|i' gap m ms' rest rest' Hgap Hm Hrest]; subst.
  - constructor. apply no_match_within_cons; [by rewrite app_nil_r|done].
  - apply (placed_cons re i (c :: gap)); [|done..].
    by apply no_match_within_cons.
Qed.

(** The matches that [scan] returns are those of [placed]: some text is the
    scanned one with these matches replaced where they stand. *)
Lemma scan_placed re (Hne : forall s, matches_at re s <> Some 0) : forall s i,
  exists s', placed re i (scan re 0 s) s s'.
Proof.
  intros s. remember (length s) as n eqn:Hn. revert s Hn.
  induction (lt_wf n) as [n _ IH]. intros s -> i.
  destruct s as [|c s].
  - simpl. destruct (match_here _ _ []) as [k|] eqn:E.
    + pose proof (match_here_le _ _ _ _ E) as Hk. simpl in Hk.
      assert (k = 0) as -> by lia. by destruct (Hne []).
    + exists []. constructor. intros g1 g2 Hg. symmetry in Hg.
      by apply app_eq_nil in Hg as [_ ->].
  - simpl. destruct (match_here _ _ (c :: s)) as [k|] eqn:E.
    + destruct k as [|k]; [by destruct (Hne (c :: s))|]. simpl.
      pose proof (match_here_le _ _ _ _ E) as Hk. simpl in Hk.
      assert (scan re k s = scan re 0 (drop k s)) as ->.
      { clear -Hk. revert s Hk. induction k as [|k IHk]; intros s Hk; [done|].
        destruct s as [|c s]; simpl in *; [lia|]. apply IHk. lia. }
      destruct (IH (length (drop k s)) ltac:(rewrite length_drop; simpl; lia)
                   (drop k s) eq_refl (S i)) as [s' Hs'].
      exists ([] ++ token i ++ s').
      assert (c :: s = [] ++ (c :: take k s) ++ drop k s) as Hs
        by (simpl; by rewrite take_drop).
      rewrite Hs at 1.
      apply (placed_cons re i [] (c :: take k s) _ (drop k s) s').
      * apply no_match_within_nil.
      * unfold matches_at. simpl. rewrite take_drop, E. simpl.
        rewrite length_take. f_equal. lia.
      * done.
    + destruct (IH (length s) ltac:(simpl; lia) s eq_refl i) as [s' Hs'].
      exists (c :: s'). by apply placed_gap.
Qed.

(** *** One pattern class *)

Section Pass.
Context (re : regex) (Hre : protective re).

Lemma token_suffix_unit i x y : token i = x ++ y -> y <> [] -> exists c y', y = c :: y' /\ token_unit c.
Proof.
  intros Htok Hy. destruct y as [|c y']; [done|]. exists c, y'. split; [done|].
  assert (Forall token_unit (token i)) as Hall.
  { unfold token. rewrite !Forall_app. split_and!.
    - repeat constructor; left; vm_compute; set_solver.
    - eapply Forall_impl; [apply decimal_digits|]. intros d Hd. by right.
    - repeat constructor; left; vm_compute; set_solver. }
  rewrite Htok, Forall_app in Hall. destruct Hall as [_ Hall].
  by apply Forall_cons in Hall as [? _].
Qed.

(** No match starts in the part already done, nor in the gap after it. *)
Lemma no_match_before A gap S b y :
  no_match_within re A (gap ++ S) -> no_match_within re gap S ->
  A ++ gap = b ++ y -> y <> [] -> matches_at re (y ++ S) = None.
Proof.
  intros HA Hgap Hy Hne.
  apply app_eq_inv in Hy as [(k & -> & ->)|(k & -> & ->)].
  - destruct k as [|c k]; [by apply (Hgap [] gap)|].
    rewrite <- app_assoc. by apply (HA b (c :: k)).
  - by apply (Hgap k y).
Qed.

(** The match that the scan found is the leftmost occurrence of its text. *)
Lemma matched_is_first A gap m rest :
  no_match_within re A (gap ++ m ++ rest) ->
  no_match_within re gap (m ++ rest) ->
  matches_at re (m ++ rest) = Some (length m) ->
  split_first m (A ++ gap ++ m ++ rest) = Some (A ++ gap, rest).
Proof.
  intros HA Hgap Hm.
  destruct (split_first_complete m (A ++ gap) (A ++ gap ++ m ++ rest) rest) as [[b a] Hsplit];
    [by rewrite <- !app_assoc|].
  pose proof (split_first_first _ _ _ _ Hsplit) as [Hba Hmin].
  specialize (Hmin (A ++ gap) rest). rewrite <- !app_assoc in Hmin. specialize (Hmin eq_refl).
  rewrite Hsplit. f_equal.
  rewrite (app_assoc A gap) in Hba.
  apply app_eq_inv in Hba as [(y & Hy & Hsuf)|(k & -> & Hk)].
  - destruct y as [|c y].
    + rewrite app_nil_r in Hy. simpl in Hsuf. apply app_inv_head in Hsuf. by subst.
    + exfalso.
      assert (matches_at re ((c :: y) ++ m ++ rest) = None) as Hnone
        by by eapply no_match_before.
      rewrite <- Hsuf in Hnone. erewrite prot_prefix in Hnone; eauto. done.
  - rewrite length_app in Hmin. destruct k; [|simpl in Hmin; lia].
    rewrite app_nil_r. simpl in Hk. apply app_inv_head in Hk. by subst.
Qed.

(** The pass over the matches of one class puts each token where its match
    stood. *)
Lemma protect_matches_placed ms S i S0 :
  placed re i ms S S0 ->
  forall st A,
    placeholderIndex st = i -> protectedText st = A ++ S -> no_match_within re A S ->
    protectedText (fold_left protect_match ms st) = A ++ S0.
Proof.
  induction 1 as [i S Hnone|i gap m ms rest rest' Hgap Hm Hrest IH];
    intros st A Hidx Htext HA; [done|].
  simpl fold_left.
  assert (protectedText (protect_match st m) = (A ++ gap ++ token i) ++ rest) as Htext1.
  { unfold protect_match. cbn [protectedText]. rewrite Htext, Hidx.
    rewrite replace_plain by apply token_plain.
    rewrite (matched_is_first A gap m rest HA Hgap Hm). by rewrite <- !app_assoc. }
  rewrite (IH (protect_match st m) (A ++ gap ++ token i)); [by rewrite <- !app_assoc| |done|].
  - unfold protect_match. cbn [placeholderIndex]. by rewrite Hidx.
  - intros B1 B2 HB HB2. rewrite (app_assoc A gap) in HB.
    apply app_eq_inv in HB as [(y & Hy & ->)|(k & -> & Hk)].
    + destruct y as [|c y].
      * destruct (token_suffix_unit i [] (token i) eq_refl) as (c & t' & Ht & Hc).
        { destruct (token_cons i) as [t' Ht']. by rewrite Ht'. }
        rewrite app_nil_l, Ht. simpl. by apply prot_token.
      * rewrite <- app_assoc. eapply prot_replaced; eauto.
        by eapply no_match_before.
    + (* within the token *)
      destruct (token_suffix_unit i k B2 Hk HB2) as (c & B2' & -> & Hc).
      simpl. by apply prot_token.
Qed.

End Pass.

(** *** The four pattern classes *)

Lemma match_here_nil ic q rest : match_here ic (q :: rest) [] = None.
Proof. by destruct q. Qed.

Lemma match_here_once ic a rest c s :
  match_here ic (Once a :: rest) (c :: s) =
  if atom_matches ic a c then S <$> match_here ic rest s else None.
Proof. reflexivity. Qed.

Lemma match_here_more ic a rest c s :
  match_here ic (OneOrMore a :: rest) (c :: s) =
  if atom_matches ic a c then
    match match_here ic (OneOrMore a :: rest) s with
    | Some n => Some (S n)
    | None => S <$> match_here ic rest s
    end
  else None.
Proof. reflexivity. Qed.

Lemma canonicalize_exact c : canonicalize false c = c.
Proof. reflexivity. Qed.

Lemma canonicalize_token_unit ic c : token_unit c -> canonicalize ic c = c.
Proof.
  intros Hc. unfold canonicalize. destruct ic; [|done]. cbn [andb].
  destruct Hc as [Hc|Hc].
  - repeat (apply elem_of_cons in Hc as [->|Hc]; [done|]). by apply elem_of_nil in Hc.
  - assert ((97 <=? c)%N = false) as -> by (apply N.leb_gt; lia). done.
Qed.

(** A literal below the digits matches no code unit of a token. *)
Lemma literal_not_token_unit ic l c :
  (l < 48 \/ 122 < l)%N -> canonicalize ic l = l -> token_unit c ->
  atom_matches ic (Lit l) c = false.
Proof.
  intros Hl Hcan Hc. cbn [atom_matches]. rewrite Hcan, (canonicalize_token_unit ic c Hc).
  apply N.eqb_neq. destruct Hc as [Hc|Hc]; [|lia].
  repeat (apply elem_of_cons in Hc as [->|Hc]; [lia|]). by apply elem_of_nil in Hc.
Qed.

(** The patterns of two single atoms. *)
Section TwoAtoms.
Context (ic : bool) (a1 a2 : atom).
Context (Hfirst : forall c, token_unit c -> atom_matches ic a1 c = false).
Context (Hsecond : atom_matches ic a2 91 = false).

Lemma two_atoms s :
  matches_at (Regex [Once a1; Once a2] ic) s =
  match s with
  | c1 :: c2 :: _ => if atom_matches ic a1 c1 && atom_matches ic a2 c2 then Some 2 else None
  | _ => None
  end.
Proof.
  unfold matches_at. cbn [body ignoreCase].
  destruct s as [|c1 [|c2 s]]; [done|..]; rewrite match_here_once.
  - rewrite match_here_nil. by destruct (atom_matches ic a1 c1).
  - rewrite match_here_once. by destruct (atom_matches ic a1 c1), (atom_matches ic a2 c2).
Qed.

Lemma two_atoms_match m r :
  matches_at (Regex [Once a1; Once a2] ic) (m ++ r) = Some (length m) ->
  exists c1 c2, m = [c1; c2] /\ atom_matches ic a1 c1 && atom_matches ic a2 c2 = true.
Proof.
  rewrite two_atoms. intros Hm.
  assert (length m = 2) as Hlen.
  { destruct (m ++ r) as [|c1 [|c2 ?]]; [done..|].
    destruct (_ && _); [congruence|done]. }
  destruct m as [|c1 [|c2 [|c3 m]]]; try done.
  exists c1, c2. split; [done|]. simpl in Hm. by destruct (_ && _).
Qed.

Lemma two_atoms_protective : protective (Regex [Once a1; Once a2] ic).
Proof.
  split.
  - intros s. rewrite two_atoms. by repeat case_match.
  - intros c s Hc. rewrite two_atoms. destruct s; [done|]. by rewrite Hfirst.
  - intros m r v Hm. destruct (two_atoms_match m r Hm) as (c1 & c2 & -> & Hc).
    rewrite two_atoms. simpl. by rewrite Hc.
  - intros x m i rest Hx Hm Hnone.
    destruct (two_atoms_match m rest Hm) as (c1 & c2 & -> & Hc).
    rewrite two_atoms in *. destruct (token_cons i) as [t' ->].
    destruct x as [|x1 [|x2 x]]; [done|..]; simpl in *.
    + by rewrite Hsecond, andb_false_r.
    + done.
Qed.

End TwoAtoms.

(** The named placeholders, [/\{[^}]+\}/g]. *)

Lemma not_closing_matches c : atom_matches false not_closing c = negb (125 =? c)%N.
Proof.
  unfold not_closing, atom_matches, class_matches. cbn [negated ranges existsb].
  change (range_members (single "}")) with [125%N]. cbn [existsb].
  rewrite !canonicalize_exact. by rewrite !orb_false_r.
Qed.

Lemma closing_tail_cons c s :
  match_here false closing_tail (c :: s) =
  if (125 =? c)%N then None
  else match match_here false closing_tail s with
       | Some n => Some (S n)
       | None => match s with
                 | d :: _ => if (125 =? d)%N then Some 2 else None
                 | [] => None
                 end
       end.
Proof.
  unfold closing_tail. rewrite match_here_more, not_closing_matches.
  destruct (125 =? c)%N; [done|]. cbn [negb].
  destruct (match_here false _ s); [done|].
  destruct s as [|d s]; [done|]. rewrite match_here_once. cbn [atom_matches].
  rewrite !canonicalize_exact. change (ch "}") with 125%N. by destruct (125 =? d)%N.
Qed.

Lemma closing_tail_run run r :
  run <> [] -> Forall (fun c => c <> 125%N) run ->
  match_here false closing_tail (run ++ 125%N :: r) = Some (S (length run)).
Proof.
  induction run as [|c run IH]; [done|]. intros _ Hrun.
  apply Forall_cons in Hrun as [Hc Hrun].
  simpl app. rewrite closing_tail_cons.
  assert ((125 =? c)%N = false) as -> by (apply N.eqb_neq; congruence).
  destruct run as [|c' run].
  - simpl app. rewrite closing_tail_cons. by rewrite N.eqb_refl.
  - by rewrite IH.
Qed.

Lemma closing_tail_Some s n :
  match_here false closing_tail s = Some n ->
  exists run r, run <> [] /\ Forall (fun c => c <> 125%N) run /\
                s = run ++ 125%N :: r /\ n = S (length run).
Proof.
  revert n. induction s as [|c s IH]; intros n; [done|].
  rewrite closing_tail_cons.
  destruct (125 =? c)%N eqn:Hc; [done|]. apply N.eqb_neq in Hc.
  destruct (match_here false closing_tail s) as [n'|].
  - intros [= <-]. destruct (IH n' eq_refl) as (run & r & Hne & Hrun & -> & ->).
    exists (c :: run), r. split_and!; [done| |done..].
    constructor; [congruence|done].
  - destruct s as [|d s]; [done|].
    destruct (125 =? d)%N eqn:Hd; [|done]. apply N.eqb_eq in Hd as <-. intros [= <-].
    exists [c], s. split_and!; [done| |done..].
    constructor; [congruence|constructor].
Qed.

Lemma closing_tail_None s :
  match_here false closing_tail s = None ->
  s = [] \/ (exists s', s = 125%N :: s') \/ 125%N ∉ s.
Proof.
  induction s as [|c s IH]; [by left|]. intros Hs. right.
  rewrite closing_tail_cons in Hs.
  destruct (125 =? c)%N eqn:Hc; [apply N.eqb_eq in Hc as <-; left; by eexists|].
  apply N.eqb_neq in Hc.
  destruct (match_here false closing_tail s); [done|].
  destruct (IH eq_refl) as [->|[[s' ->]|Hnot]].
  - right. intros Hin%list_elem_of_singleton. congruence.
  - by rewrite N.eqb_refl in Hs.
  - right. intros [?|?]%elem_of_cons; [congruence|done].
Qed.

Lemma braces_cons c s :
  matches_at braces (c :: s) =
  if (123 =? c)%N then S <$> match_here false closing_tail s else None.
Proof. reflexivity. Qed.

Lemma braces_match m r :
  matches_at braces (m ++ r) = Some (length m) ->
  exists run, m = 123%N :: run ++ [125%N] /\ run <> [] /\ Forall (fun c => c <> 125%N) run.
Proof.
  destruct m as [|c m].
  - simpl. destruct r as [|c r]; [done|]. rewrite braces_cons.
    destruct (123 =? c)%N; [|done]. by destruct (match_here _ _ _).
  - simpl app. rewrite braces_cons.
    destruct (123 =? c)%N eqn:Hc; [|done]. apply N.eqb_eq in Hc as <-.
    destruct (match_here false closing_tail (m ++ r)) as [n|] eqn:E; [|done].
    intros [= Hn]. simpl in Hn. subst n.
    apply closing_tail_Some in E as (run & r' & Hne & Hrun & Hs & Hlen).
    exists run. split; [|done]. f_equal.
    change (125%N :: r') with ([125%N] ++ r') in Hs. rewrite app_assoc in Hs.
    apply app_inj_1 in Hs as [-> _]; [done|]. rewrite length_app. simpl. lia.
Qed.

Lemma braces_protective : protective braces.
Proof.
  split.
  - intros [|c s]; [done|]. rewrite braces_cons.
    destruct (123 =? c)%N; [|done]. by destruct (match_here _ _ _).
  - intros c s Hc. rewrite braces_cons.
    assert ((123 =? c)%N = false) as ->; [|done]. apply N.eqb_neq.
    destruct Hc as [Hc|Hc]; [|lia].
    repeat (apply elem_of_cons in Hc as [->|Hc]; [lia|]). by apply elem_of_nil in Hc.
  - intros m r v Hm. destruct (braces_match m r Hm) as (run & -> & Hne & Hrun).
    simpl app. rewrite braces_cons, N.eqb_refl, <- app_assoc. simpl app.
    rewrite closing_tail_run by done. simpl. rewrite length_app. simpl.
    do 2 f_equal. lia.
  - intros x m i rest Hx Hm Hnone.
    destruct (braces_match m rest Hm) as (run & -> & Hne & Hrun).
    destruct x as [|x1 x]; [done|]. simpl app in *. rewrite braces_cons in *.
    destruct (123 =? x1)%N; [|done].
    destruct (match_here false closing_tail (x ++ _)) eqn:E in Hnone; [done|].
    apply closing_tail_None in E as [E|[[s' E]|E]].
    + by destruct x.
    + destruct x as [|x2 x]; [done|]. simpl in E. injection E as -> _.
      simpl app. by rewrite closing_tail_cons, N.eqb_refl.
    + destruct E. rewrite elem_of_app, elem_of_cons, !elem_of_app, list_elem_of_singleton.
      tauto.
Qed.

(** All four are as the argument needs them. *)
Lemma PROTECTED_PATTERNS_protective : Forall protective PROTECTED_PATTERNS.
Proof.
  unfold PROTECTED_PATTERNS. repeat apply Forall_cons_2; [..|apply Forall_nil_2].
  - apply two_atoms_protective; [|done].
    intros c Hc. by apply literal_not_token_unit; [vm_compute; left|..].
  - apply two_atoms_protective; [|done].
    intros c Hc. by apply literal_not_token_unit; [vm_compute; left|..].
  - apply braces_protective.
  - apply two_atoms_protective; [|done].
    intros c Hc. by apply literal_not_token_unit; [vm_compute; left|..].
Qed.

(** *** All classes in turn *)



End InPlace.

(** ** utils.js: what [protectPlaceholders] does to a text *)

Module Protection.
Import JS Utils Spec JSFacts UtilsFacts ProtectFacts InPlace.

Local Open Scope nat_scope.



(** The same on an example with a repeated code: each occurrence gets its
    own token, where it stands. *)
Example protect_repeated :
  fst (protectPlaceholders (js "&a x &a {n} 100%%")) =
  js "[[PROTECTED_0]] x [[PROTECTED_1]] [[PROTECTED_2]] 100[[PROTECTED_3]]".
Proof. by vm_compute. Qed.

End Protection.

(** ** translator.js: the retry loop *)

Module TranslatorFacts.
Import JS Utils Translator Spec JSFacts UtilsFacts.

Lemma world_eta w : MkWorld (calls w) (slept w) (disk w) (progress w) = w.
Proof. by destruct w. Qed.

Lemma retry_after_bound attempt f ms :
  retry_after attempt f = Some ms -> (attempt <= MAX_RETRIES)%nat.
Proof.
  unfold retry_after, try_block, catch_retries.
  destruct (attempt <=? MAX_RETRIES)%nat eqn:E; [intros _; by apply Nat.leb_le|].
  simpl. repeat case_match; congruence.
Qed.

Lemma ok_not_429 r : ok r = true -> (status r =? 429)%nat = false.
Proof.
  unfold ok. intros [H1%Nat.leb_le H2%Nat.leb_le]%andb_true_iff.
  apply Nat.eqb_neq. lia.
Qed.

(** The decision of one attempt in the terms of the specification: retry
    exactly on a retryable failure met at an attempt not beyond the third. *)
Lemma retry_after_spec attempt f :
  retry_after attempt f =
    if retryable f && (attempt <=? MAX_RETRIES)%nat then Some (retryDelay attempt) else None.
Proof.
  unfold retry_after, retryable, rate_limited, transient_network_failure, try_block,
    catch_retries.
  destruct f as [e|r].
  - fold (connection_error e). simpl. rewrite andb_comm. by destruct (_ && _).
  - destruct (status r =? 429)%nat eqn:E429; simpl.
    + destruct (attempt <=? MAX_RETRIES)%nat; [done|]. simpl. done.
    + destruct (ok r); simpl.
      * destruct (body_json r) as [data|e]; simpl.
        -- destruct (translations data) as [[|t ts]|]; simpl; by rewrite ?andb_false_r.
        -- fold (connection_error e). rewrite andb_comm. by destruct (_ && _).
      * destruct (body_text r) as [b|e]; simpl.
        -- by rewrite andb_false_r.
        -- fold (connection_error e). rewrite andb_comm. by destruct (_ && _).
Qed.

Lemma translation_not_retryable f s : translation_of f = Some s -> retryable f = false.
Proof.
  unfold translation_of, retryable, rate_limited, transient_network_failure.
  destruct f as [e|r]; [done|]. destruct (ok r) eqn:E; [|done].
  rewrite (ok_not_429 r E). destruct (body_json r); done.
Qed.

Lemma translation_returned attempt f s :
  translation_of f = Some s -> try_block attempt f = Returned s.
Proof.
  unfold translation_of, try_block. destruct f as [e|r]; [done|].
  destruct (ok r) eqn:E; [|done]. rewrite (ok_not_429 r E). simpl.
  destruct (body_json r) as [data|]; [|done].
  destruct (translations data) as [[|t ts]|]; congruence.
Qed.

Lemma returned_translation attempt f s :
  try_block attempt f = Returned s -> translation_of f = Some s.
Proof.
  unfold translation_of, try_block. destruct f as [e|r]; [done|].
  destruct (status r =? 429)%nat eqn:E429; [by destruct (attempt <=? MAX_RETRIES)%nat|].
  destruct (ok r); simpl; [|by destruct (body_text r)].
  destruct (body_json r) as [data|]; [|done].
  destruct (translations data) as [[|t ts]|]; congruence.
Qed.

Lemma try_block_http_error attempt r errorBody :
  ok r = false -> status r <> 429%nat -> body_text r = Normal errorBody ->
  try_block attempt (Resolved r)
  = Thrown (Error (js "DeepL API error (" ++ decimal (status r) ++ js "): " ++ errorBody)).
Proof.
  intros Hok H429%Nat.eqb_neq Hbody. unfold try_block. by rewrite H429, Hok, Hbody.
Qed.

Lemma try_block_no_translation attempt r data :
  ok r = true -> body_json r = Normal data ->
  translations data = None \/ translations data = Some [] ->
  try_block attempt (Resolved r)
  = Thrown (Error (js "No translation returned from DeepL API")).
Proof.
  intros Hok Hbody Hnone. unfold try_block.
  rewrite (ok_not_429 r Hok), Hok, Hbody. cbn [negb]. cbv iota.
  by destruct Hnone as [-> | ->].
Qed.

Lemma catch_retries_Error attempt msg : catch_retries attempt (Error msg) = false.
Proof. unfold catch_retries. apply andb_false_r. Qed.

Section Client.
Context `{Remote} (cfg : config).

Lemma translateWithRetry_unfold txt attempt w :
  translateWithRetry cfg txt attempt w =
    let '(f, w1) := fetch cfg txt w in
    match try_block attempt f with
    | Returned s => (Normal s, w1)
    | RateLimitRetry =>
        translateWithRetry cfg txt (attempt + 1) (delay (retryDelay attempt) w1)
    | Thrown e =>
        if catch_retries attempt e
        then translateWithRetry cfg txt (attempt + 1) (delay (retryDelay attempt) w1)
        else (Throw e, w1)
    end.
Proof.
  funelim (translateWithRetry cfg txt attempt w); unfold fetch; cbn zeta beta iota;
    repeat match goal with
           | E : try_block _ _ = _ |- _ => rewrite E
           | E : catch_retries _ _ = _ |- _ => rewrite E
           end; reflexivity.
Qed.

(** One attempt, read through [retry_after]. *)
Lemma translateWithRetry_step txt attempt w :
  translateWithRetry cfg txt attempt w =
    let f := respond (calls w) (request_for cfg txt) in
    let w1 := MkWorld (S (calls w)) (slept w) (disk w) (progress w) in
    match retry_after attempt f with
    | Some ms => translateWithRetry cfg txt (attempt + 1) (delay ms w1)
    | None => (settle (try_block attempt f), w1)
    end.
Proof.
  rewrite translateWithRetry_unfold. unfold fetch, retry_after. fold (request_for cfg txt).
  cbn zeta beta iota.
  destruct (try_block attempt _) as [s| |e]; simpl; [done..|].
  by destruct (catch_retries attempt e).
Qed.

(** The whole run of a call: it sends [n + 1] requests; the first [n] met a
    retryable failure at an attempt not beyond the third, each followed by the
    backoff delay of its attempt; the last one settles the call. *)
Lemma translateWithRetry_trace txt attempt w :
  exists n,
    (forall j, (j < n)%nat ->
       retryable (respond (calls w + j)%nat (request_for cfg txt)) = true /\
       (attempt + j <= MAX_RETRIES)%nat) /\
    retry_after (attempt + n) (respond (calls w + n)%nat (request_for cfg txt)) = None /\
    translateWithRetry cfg txt attempt w =
      (settle (try_block (attempt + n) (respond (calls w + n)%nat (request_for cfg txt))),
       MkWorld (calls w + n + 1) (slept w ++ (retryDelay <$> seq attempt n))
               (disk w) (progress w)).
Proof.
  remember (S MAX_RETRIES - attempt)%nat as fuel eqn:Hfuel.
  revert attempt w Hfuel.
  induction (lt_wf fuel) as [fuel _ IH]. intros attempt w ->.
  rewrite translateWithRetry_step. cbn zeta.
  destruct (retry_after attempt _) as [ms|] eqn:E.
  - pose proof (retry_after_bound _ _ _ E) as Hle.
    pose proof E as E'. rewrite retry_after_spec in E'.
    destruct (retryable _) eqn:Er; [|done].
    destruct (attempt <=? MAX_RETRIES)%nat; [|done]. injection E' as <-.
    destruct (IH (S MAX_RETRIES - (attempt + 1))%nat ltac:(lia) (attempt + 1)%nat
                (delay (retryDelay attempt)
                       (MkWorld (S (calls w)) (slept w) (disk w) (progress w))) eq_refl)
      as (n & Hall & Hlast & Hrun).
    exists (S n). simpl in Hall, Hlast, Hrun. split_and!.
    + intros [|j] Hj.
      * rewrite !Nat.add_0_r. done.
      * destruct (Hall j) as [? ?]; [lia|].
        replace (calls w + S j)%nat with (S (calls w + j)) by lia. split; [done|lia].
    + replace (calls w + S n)%nat with (S (calls w + n)) by lia.
      replace (attempt + S n)%nat with (attempt + 1 + n)%nat by lia. done.
    + rewrite Hrun.
      replace (calls w + S n)%nat with (S (calls w + n)) by lia.
      replace (attempt + S n)%nat with (attempt + 1 + n)%nat by lia.
      f_equal. f_equal; try lia.
      rewrite <- app_assoc. simpl. by replace (attempt + 1)%nat with (S attempt) by lia.
  - exists 0%nat. rewrite !Nat.add_0_r. split_and!; [intros; lia|done|].
    simpl. rewrite app_nil_r. do 2 f_equal. lia.
Qed.

(** A call reads the world only through the request counter, and changes
    only the counter and the delays. *)
Lemma translateWithRetry_frame txt attempt w :
  translateWithRetry cfg txt attempt w =
    let r := translateWithRetry cfg txt attempt (bare (calls w)) in
    (fst r, MkWorld (calls (snd r)) (slept w ++ slept (snd r)) (disk w) (progress w)).
Proof.
  destruct (translateWithRetry_trace txt attempt w) as (n & Hall & Hlast & ->).
  destruct (translateWithRetry_trace txt attempt (bare (calls w))) as (n' & Hall' & Hlast' & ->).
  simpl in *.
  assert (n = n') as <-.
  { destruct (Nat.lt_trichotomy n n') as [Hlt|[->|Hlt]]; [|done|].
    - destruct (Hall' n Hlt) as [Hr Hle]. rewrite retry_after_spec, Hr in Hlast.
      apply Nat.leb_le in Hle. by rewrite Hle in Hlast.
    - destruct (Hall n' Hlt) as [Hr Hle]. rewrite retry_after_spec, Hr in Hlast'.
      apply Nat.leb_le in Hle. by rewrite Hle in Hlast'. }
  done.
Qed.

Lemma translateText_frame txt w :
  translateText cfg txt w =
    let r := translateText cfg txt (bare (calls w)) in
    (fst r, MkWorld (calls (snd r)) (slept w ++ slept (snd r)) (disk w) (progress w)).
Proof.
  unfold translateText.
  destruct (shouldTranslate txt); simpl; [|by rewrite app_nil_r, world_eta].
  destruct (protectPlaceholders txt) as [protectedText map].
  destruct (shouldTranslate protectedText); simpl; [|by rewrite app_nil_r, world_eta].
  rewrite translateWithRetry_frame. cbn zeta.
  by destruct (translateWithRetry cfg protectedText 1 (bare (calls w))) as [[t|e] w'].
Qed.


End Client.
End TranslatorFacts.

(** ** translator.js: retry bound, immediate failures, batches *)

Module Client.
Import JS Utils Translator Spec JSFacts UtilsFacts TranslatorFacts.

Section Claims.
Context `{Remote} (cfg : config).

Lemma backoff_delays k :
  (fun a : nat => Z.min (1000 * 2 ^ (Z.of_nat a - 1)) 10000) <$> seq 1 (k `min` 3)
  = take k [1000; 2000; 4000]%Z.
Proof. destruct k as [|[|[|[|k]]]]; reflexivity. Qed.

(** C3.  Retry bound.  If the remote meets the requests of one call with a
    rate-limit (429) or transient network (ECONNRESET, ETIMEDOUT) failure
    exactly [k] times and then with a translation, the call started at
    attempt 1 returns that translation when [k <= 3] and throws when [k > 3].
    Before the retry that follows attempt [a] it waits
    [min (1000 * 2^(a-1)) 10000] milliseconds: 1s, 2s, 4s, and nothing else
    is awaited. *)
Theorem retry_bound (txt : jsstring) (w : World) (k : nat) (s : jsstring) :
  (forall j, (j < k)%nat ->
     retryable (respond (calls w + j)%nat (request_for cfg txt)) = true) ->
  translation_of (respond (calls w + k)%nat (request_for cfg txt)) = Some s ->
  let res := translateWithRetry cfg txt 1 w in
  let waits :=
    (fun a : nat => Z.min (1000 * 2 ^ (Z.of_nat a - 1)) 10000) <$> seq 1 (k `min` 3) in
  slept (snd res) = slept w ++ waits /\
  waits = take k [1000; 2000; 4000]%Z /\
  ((k <= 3)%nat -> fst res = Normal s /\ calls (snd res) = (calls w + k + 1)%nat) /\
  ((3 < k)%nat -> (exists e, fst res = Throw e) /\ calls (snd res) = (calls w + 4)%nat).
Proof.
  intros Hfail Hok. cbn zeta.
  destruct (translateWithRetry_trace cfg txt 1 w) as (n & Hall & Hlast & ->). simpl.
  assert (n = k `min` 3)%nat as ->.
  { destruct (Nat.lt_trichotomy n (k `min` 3)) as [Hlt|[->|Hlt]]; [|done|].
    - rewrite retry_after_spec, Hfail in Hlast by lia.
      assert ((1 + n <=? MAX_RETRIES)%nat = true) as Hle
        by (apply Nat.leb_le; unfold MAX_RETRIES; lia).
      by rewrite Hle in Hlast.
    - destruct (Hall (k `min` 3)%nat Hlt) as [Hr Hle].
      destruct (Nat.le_gt_cases k 3) as [Hk|Hk].
      + rewrite Nat.min_l in Hr by done.
        by rewrite (translation_not_retryable _ _ Hok) in Hr.
      + unfold MAX_RETRIES in Hle. lia. }
  split_and!.
  - done.
  - apply backoff_delays.
  - intros Hk. rewrite Nat.min_l by done.
    rewrite (translation_returned _ _ _ Hok). split; [done|lia].
  - intros Hk. rewrite Nat.min_r by lia. split; [|lia].
    specialize (Hfail 3%nat Hk).
    rewrite Nat.min_r in Hlast by lia. rewrite retry_after_spec, Hfail in Hlast.
    unfold retry_after in Hlast.
    destruct (try_block _ _) as [s'| |e] eqn:E; simpl; eauto.
    apply returned_translation, translation_not_retryable in E. congruence.
Qed.

(** C9 (counterexample).  A response with status 404 whose body cannot be
    read because the connection is reset: the error thrown by the read reaches
    the [catch] block with the code ECONNRESET, and the call retries.  Four
    requests are sent and 1s, 2s, 4s are awaited. *)
Lemma http_error_body_reset_retried :
  ~ @surfaced_at_once body_lost cfg0 (js "Hello") 1 (bare 0).
Proof.
  intros Hclaim.
  destruct (Hclaim (Response 404 (Throw (JsError (js "aborted") (Some (js "ECONNRESET"))))
                      (Throw (JsError (js "aborted") (Some (js "ECONNRESET"))))))
    as (_ & Hslept & _); [reflexivity|reflexivity|discriminate|].
  vm_compute in Hslept. discriminate.
Qed.

(** C9 (amended).  Failures that are not retried.  Whatever the attempt: a
    response that is neither 2xx nor 429 makes the call throw at once, unless
    reading its body fails with a connection reset or timeout; the error
    thrown carries the status and the body in its message (it is the error of
    the read when the read fails otherwise).  A 2xx response whose
    translations list is missing or empty makes the call throw at once.  In
    both cases one request was sent and nothing was awaited.  And a call only
    ever retries on a rate-limit or transient network failure (a reset or
    timeout while the body of a response is read is one): every request but
    the last one of the call met such a failure, and one delay is awaited per
    retry. *)
Theorem other_failures_not_retried (txt : jsstring) (attempt : nat) (w : World) :
  let f := respond (calls w) (request_for cfg txt) in
  let res := translateWithRetry cfg txt attempt w in
  (forall r,
     f = Resolved r -> ok r = false -> status r <> 429%nat ->
     (forall e, body_text r = Throw e -> connection_error e = false) ->
     fst res = match body_text r with
               | Normal errorBody =>
                   Throw (Error (js "DeepL API error (" ++ decimal (status r) ++ js "): "
                                 ++ errorBody))
               | Throw e => Throw e
               end /\
     slept (snd res) = slept w /\ calls (snd res) = S (calls w)) /\
  (forall r data,
     f = Resolved r -> ok r = true -> body_json r = Normal data ->
     translations data = None \/ translations data = Some [] ->
     fst res = Throw (Error (js "No translation returned from DeepL API")) /\
     slept (snd res) = slept w /\ calls (snd res) = S (calls w)) /\
  (forall j, (calls w <= j)%nat -> (S j < calls (snd res))%nat ->
     retryable (respond j (request_for cfg txt)) = true) /\
  (length (slept (snd res)) - length (slept w) = calls (snd res) - calls w - 1)%nat.
Proof.
  cbn zeta. split_and!.
  - intros r Hf Hok H429 Hbody.
    rewrite translateWithRetry_step. cbn zeta. rewrite Hf.
    unfold retry_after.
    destruct (body_text r) as [errorBody|e] eqn:Eb.
    + rewrite (try_block_http_error attempt r errorBody Hok H429 Eb).
      by rewrite catch_retries_Error.
    + assert (try_block attempt (Resolved r) = Thrown e) as ->.
      { apply Nat.eqb_neq in H429. unfold try_block. by rewrite H429, Hok, Eb. }
      assert (catch_retries attempt e = false) as ->.
      { unfold catch_retries. fold (connection_error e).
        rewrite (Hbody e eq_refl). apply andb_false_r. }
      done.
  - intros r data Hf Hok Hbody Hnone.
    rewrite translateWithRetry_step. cbn zeta. rewrite Hf.
    unfold retry_after.
    rewrite (try_block_no_translation attempt r data Hok Hbody Hnone).
    by rewrite catch_retries_Error.
  - intros j Hle Hlt.
    destruct (translateWithRetry_trace cfg txt attempt w) as (n & Hall & Hlast & Hrun).
    rewrite Hrun in Hlt. simpl in Hlt.
    destruct (Hall (j - calls w)%nat) as [Hr _]; [lia|].
    by replace (calls w + (j - calls w))%nat with j in Hr by lia.
  - destruct (translateWithRetry_trace cfg txt attempt w) as (n & Hall & Hlast & ->).
    simpl. rewrite length_app, length_fmap, length_seq. lia.
Qed.

Lemma report_normally onProgress current total w :
  returns_normally onProgress ->
  report onProgress current total w = (Normal (), snd (report onProgress current total w)).
Proof.
  intros Hret. destruct onProgress as [f|]; simpl; [|done].
  specialize (Hret f eq_refl current total w).
  destruct (f current total w) as [[[]|e] w']; simpl in *; congruence.
Qed.

Lemma translateBatch_from_trace onProgress total rest :
  returns_normally onProgress ->
  forall i results w,
  exists (ws : list World) (outs : list jsstring),
    length ws = S (length rest) /\ length outs = length rest /\
    ws !! 0%nat = Some w /\
    fst (translateBatch_from cfg onProgress total i rest results w) = results ++ outs /\
    ws !! length rest = Some (snd (translateBatch_from cfg onProgress total i rest results w)) /\
    forall k txt wk,
      rest !! k = Some txt -> ws !! k = Some wk ->
      outs !! k = Some (kept_or_translated txt (fst (translateText cfg txt wk))) /\
      ws !! S k = Some (batch_next onProgress total (i + k) (translateText cfg txt wk)).
Proof.
  intros Hret. induction rest as [|txt rest IH]; intros i results w.
  - exists [w], []. simpl. rewrite app_nil_r. split_and!; try done.
  - destruct (IH (S i) (results ++ [kept_or_translated txt (fst (translateText cfg txt w))])
                 (batch_next onProgress total i (translateText cfg txt w)))
      as (ws & outs & Hws & Houts & Hhead & Hfst & Hsnd & Hstep).
    assert (translateBatch_from cfg onProgress total i (txt :: rest) results w
            = translateBatch_from cfg onProgress total (S i) rest
                (results ++ [kept_or_translated txt (fst (translateText cfg txt w))])
                (batch_next onProgress total i (translateText cfg txt w))) as ->.
    { simpl. destruct (translateText cfg txt w) as [[translated|e] w1]; [|done].
      simpl. by rewrite (report_normally onProgress _ _ w1 Hret). }
    exists (w :: ws), (kept_or_translated txt (fst (translateText cfg txt w)) :: outs).
    split_and!; simpl; try (f_equal; done).
    + by rewrite Hfst, <- app_assoc.
    + intros [|k] txt' wk; simpl.
      * intros [= <-] [= <-]. rewrite Nat.add_0_r. done.
      * intros Hk Hwk. replace (i + S k)%nat with (S i + k)%nat by lia. by apply Hstep.
Qed.

(** C10 (divergence).  Two texts that are both translated, and a progress
    callback that throws: the callback is called inside the [try] block,
    after the translation was pushed, so the [catch] block pushes the
    original text as well.  The batch returns four results for two texts,
    and the translation of the second text is at position 2. *)
Theorem translateBatch_callback_throws :
  fst (@translateBatch translating cfg0 [js "Apple"; js "Banana"] (Some throwing_callback)
         (bare 0))
  = [js "DE:Apple"; js "Apple"; js "DE:Banana"; js "Banana"] /\
  ~ @one_result_per_text translating cfg0 [js "Apple"; js "Banana"] (Some throwing_callback)
      (bare 0).
Proof.
  assert (fst (@translateBatch translating cfg0 [js "Apple"; js "Banana"]
                 (Some throwing_callback) (bare 0))
          = [js "DE:Apple"; js "Apple"; js "DE:Banana"; js "Banana"]) as Hres
    by (vm_compute; reflexivity).
  split; [exact Hres|]. unfold one_result_per_text. rewrite Hres. discriminate.
Qed.

(** Without a progress callback, or with one that returns normally,
    [translateBatch] returns one result per text, in the order of the texts:
    the result at position [i] is the translation of [texts[i]] when the
    [translateText] call made for it returned, and [texts[i]] itself when
    that call threw.  [ws] lists the worlds in which the successive calls are
    made: each text is translated in the world its predecessor left. *)
Theorem translateBatch_positions (texts : list jsstring)
    (onProgress : option progress_callback) (w : World) :
  returns_normally onProgress ->
  let res := translateBatch cfg texts onProgress w in
  length (fst res) = length texts /\
  exists ws : list World,
    length ws = S (length texts) /\
    ws !! 0%nat = Some w /\
    ws !! length texts = Some (snd res) /\
    forall i txt wi,
      texts !! i = Some txt -> ws !! i = Some wi ->
      fst res !! i = Some (kept_or_translated txt (fst (translateText cfg txt wi))) /\
      ws !! S i = Some (batch_next onProgress (length texts) i (translateText cfg txt wi)).
Proof.
  intros Hret. cbn zeta. unfold translateBatch.
  destruct (translateBatch_from_trace onProgress (length texts) texts Hret 0%nat [] w)
    as (ws & outs & Hws & Houts & Hhead & Hfst & Hsnd & Hstep).
  rewrite Hfst. simpl. split; [done|]. exists ws. split_and!; done.
Qed.

End Claims.

(** Witnesses on the fixtures. *)

Lemma retry_bound_witness :
  fst (@translateWithRetry flaky cfg0 (js "Hello") 1 (bare 0)) = Normal (js "DE:Hello") /\
  slept (snd (@translateWithRetry flaky cfg0 (js "Hello") 1 (bare 0))) = [1000; 2000]%Z.
Proof.
  assert (forall j, (j < 2)%nat ->
            retryable (@respond flaky (calls (bare 0) + j)%nat
                                (request_for cfg0 (js "Hello"))) = true) as Hfail.
  { intros [|[|j]] Hj; [reflexivity|reflexivity|lia]. }
  destruct (@retry_bound flaky cfg0 (js "Hello") (bare 0) 2 (js "DE:Hello") Hfail eq_refl)
    as (Hslept & _ & Hle & _).
  split.
  - apply Hle. lia.
  - exact Hslept.
Defined.

Lemma other_failures_not_retried_witness :
  fst (@translateWithRetry (failing_at 0) cfg0 (js "Hello") 1 (bare 0))
  = Throw (Error (js "DeepL API error (500): Internal error")) /\
  fst (@translateWithRetry answers_nothing cfg0 (js "Hello") 1 (bare 0))
  = Throw (Error (js "No translation returned from DeepL API")).
Proof.
  split.
  - apply (proj1 (@other_failures_not_retried (failing_at 0) cfg0 (js "Hello") 1 (bare 0))
             (Response 500 (Normal (js "Internal error")) (Throw (Error []))));
      [reflexivity|reflexivity|discriminate|discriminate].
  - apply (proj1 (proj2 (@other_failures_not_retried answers_nothing cfg0 (js "Hello") 1
                           (bare 0)))
             (Response 200 (Normal []) (Normal (Payload (Some []))))
             (Payload (Some []))); [reflexivity|reflexivity|reflexivity|by right].
Defined.

Lemma translateBatch_positions_witness :
  fst (@translateBatch (failing_at 1) cfg0 [js "Apple"; js "Banana"; js "Cherry"] None (bare 0))
  = [js "DE:Apple"; js "Banana"; js "DE:Cherry"].
Proof.
  destruct (@translateBatch_positions (failing_at 1) cfg0
              [js "Apple"; js "Banana"; js "Cherry"] None (bare 0))
    as (Hlen & ws & Hws & H0 & _ & Hstep); [by intros f|].
  apply list_eq. intros [|[|[|i]]].
  - destruct (Hstep 0%nat (js "Apple") (bare 0) eq_refl H0) as [-> _]. reflexivity.
  - destruct (Hstep 0%nat (js "Apple") (bare 0) eq_refl H0) as [_ H1].
    destruct (Hstep 1%nat (js "Banana") _ eq_refl H1) as [-> _]. reflexivity.
  - destruct (Hstep 0%nat (js "Apple") (bare 0) eq_refl H0) as [_ H1].
    destruct (Hstep 1%nat (js "Banana") _ eq_refl H1) as [_ H2].
    destruct (Hstep 2%nat (js "Cherry") _ eq_refl H2) as [-> _]. reflexivity.
  - rewrite lookup_ge_None_2 by (rewrite Hlen; simpl; lia). reflexivity.
Defined.

End Client.

(** ** Documents: walks, positions and assignments *)

Module DocumentFacts.
Import JS Utils Translator Document Spec Walks JSFacts.

Local Open Scope nat_scope.

Lemma forEach_iwalk {A} (f : jsvalue -> nat -> list A) n l : forEach f n l = iwalk f n l.
Proof. reflexivity. Qed.

Lemma forEntries_iwalk {A} (f : jsstring -> jsvalue -> nat -> list A) n l :
  forEntries f n l = iwalk (fun kv ord => f (fst kv) (snd kv) ord) n l.
Proof.
  revert n. induction l as [|[k v] l IH]; intros n; simpl; [done|]. by rewrite IH.
Qed.

Section IWalk.
Context {A B : Type}.
Implicit Types (f g : B -> nat -> list A) (l : list B).

Lemma iwalk_ext f g n l :
  (forall k x, l !! k = Some x -> f x (n + k) = g x (n + k)) ->
  iwalk f n l = iwalk g n l.
Proof.
  revert n. induction l as [|x l IH]; intros n Hfg; simpl; [done|].
  f_equal.
  - specialize (Hfg 0 x eq_refl). by rewrite Nat.add_0_r in Hfg.
  - apply IH. intros k y Hk. specialize (Hfg (S k) y Hk).
    by replace (n + S k) with (S n + k) in Hfg by lia.
Qed.

Lemma elem_of_iwalk f n l a :
  a ∈ iwalk f n l <-> exists k x, l !! k = Some x /\ a ∈ f x (n + k).
Proof.
  revert n. induction l as [|x l IH]; intros n; simpl.
  - split; [by intros ?%elem_of_nil|by intros (k & y & ? & _)].
  - rewrite elem_of_app, IH. split.
    + intros [Ha|(k & y & Hk & Ha)].
      * exists 0, x. by rewrite Nat.add_0_r.
      * exists (S k), y. by replace (n + S k) with (S n + k) by lia.
    + intros ([|k] & y & Hk & Ha); simpl in Hk.
      * injection Hk as <-. left. by rewrite Nat.add_0_r in Ha.
      * right. exists k, y. by replace (S n + k) with (n + S k) by lia.
Qed.

Lemma iwalk_fmap {C} (h : A -> C) f n l :
  h <$> iwalk f n l = iwalk (fun x i => h <$> f x i) n l.
Proof.
  revert n. induction l as [|x l IH]; intros n; simpl; [done|].
  by rewrite fmap_app, IH.
Qed.

Lemma iwalk_Forall2 {C} (R : A -> C -> Prop) f (g : B -> nat -> list C) n l :
  (forall k x, l !! k = Some x -> Forall2 R (f x (n + k)) (g x (n + k))) ->
  Forall2 R (iwalk f n l) (iwalk g n l).
Proof.
  revert n. induction l as [|x l IH]; intros n Hfg; simpl; [constructor|].
  apply Forall2_app.
  - specialize (Hfg 0 x eq_refl). by rewrite Nat.add_0_r in Hfg.
  - apply IH. intros k y Hk. specialize (Hfg (S k) y Hk).
    by replace (n + S k) with (S n + k) in Hfg by lia.
Qed.

(** Blocks whose elements carry the index of their block do not share
    elements. *)
Lemma iwalk_NoDup (tag : A -> option nat) f n l :
  (forall k x, l !! k = Some x -> NoDup (f x (n + k))) ->
  (forall k x a, l !! k = Some x -> a ∈ f x (n + k) -> tag a = Some (n + k)) ->
  NoDup (iwalk f n l).
Proof.
  revert n. induction l as [|x l IH]; intros n Hnd Htag; simpl; [constructor|].
  apply NoDup_app. split_and!.
  - specialize (Hnd 0 x eq_refl). by rewrite Nat.add_0_r in Hnd.
  - intros a Ha Ha'. apply elem_of_iwalk in Ha' as (k & y & Hk & Hy).
    pose proof (Htag 0 x a eq_refl) as H0. rewrite Nat.add_0_r in H0.
    pose proof (Htag (S k) y a Hk) as H1.
    replace (n + S k) with (S n + k) in H1 by lia.
    rewrite H0 in H1 by done. specialize (H1 Hy). injection H1. lia.
  - apply IH.
    + intros k y Hk. specialize (Hnd (S k) y Hk).
      by replace (n + S k) with (S n + k) in Hnd by lia.
    + intros k y a Hk Ha. specialize (Htag (S k) y a Hk).
      replace (n + S k) with (S n + k) in Htag by lia. auto.
Qed.

(** ... and are in order when each block is and the blocks follow the order
    of their indices. *)
Lemma iwalk_sorted (R : A -> A -> Prop) (tag : A -> option nat) f n l :
  (forall k x, l !! k = Some x -> StronglySorted R (f x (n + k))) ->
  (forall k x a, l !! k = Some x -> a ∈ f x (n + k) -> tag a = Some (n + k)) ->
  (forall a b i j, tag a = Some i -> tag b = Some j -> i < j -> R a b) ->
  StronglySorted R (iwalk f n l).
Proof.
  revert n. induction l as [|x l IH]; intros n Hs Htag Hlt; simpl; [constructor|].
  apply StronglySorted_app. split_and!.
  - intros a b Ha Hb. apply elem_of_iwalk in Hb as (k & y & Hk & Hy).
    pose proof (Htag 0 x a eq_refl) as H0. rewrite Nat.add_0_r in H0.
    pose proof (Htag (S k) y b Hk) as H1.
    replace (n + S k) with (S n + k) in H1 by lia.
    apply (Hlt a b n (S n + k)); auto. lia.
  - specialize (Hs 0 x eq_refl). by rewrite Nat.add_0_r in Hs.
  - apply IH; [| |done].
    + intros k y Hk. specialize (Hs (S k) y Hk).
      by replace (n + S k) with (S n + k) in Hs by lia.
    + intros k y a Hk Ha. specialize (Htag (S k) y a Hk).
      replace (n + S k) with (S n + k) in Htag by lia. auto.
Qed.
End IWalk.

(** *** Positions *)

Lemma node_at_app doc p q :
  node_at doc (p ++ q) = node_at doc p ≫= fun c => node_at c q.
Proof.
  revert doc. induction p as [|i p IH]; intros doc; simpl; [done|].
  destruct (child doc i); simpl; [apply IH|done].
Qed.

Lemma node_at_snoc doc p i :
  node_at doc (p ++ [i]) = node_at doc p ≫= fun c => child c i.
Proof.
  rewrite node_at_app. destruct (node_at doc p) as [c|]; simpl; [|done].
  by destruct (child c i).
Qed.

Lemma child_Some_name c i v : child c i = Some v -> is_Some (child_name c i).
Proof.
  destruct c as [| |items|props]; simpl; try done.
  - intros ->. by eexists.
  - destruct (props !! i); [by eexists|done].
Qed.

(** *** The four extractors are walks *)

Ltac walk_children IH :=
  first [rewrite !forEach_iwalk | rewrite !forEntries_iwalk];
  apply iwalk_ext; intros k x Hk; cbn beta;
  rewrite Forall_lookup in IH; specialize (IH k x Hk); cbn beta in IH;
  rewrite ?IH; try done.

Lemma json_walk obj : forall self parent key,
  JsonHandler.collectTranslatableValues obj self parent key
  = walk KNum key_not_null (fun _ => true) obj self parent key.
Proof.
  induction obj as [c|s|items IH|props IH] using jsvalue_ind; intros self parent key;
    cbn [JsonHandler.collectTranslatableValues walk]; [done| |walk_children IH..].
  by destruct (0 <? _), (parent_truthy parent), (key_not_null key).
Qed.

Lemma yaml_walk obj : forall self parent key,
  YamlHandler.collectTranslatableValues obj self parent key
  = walk (fun i => KStr (decimal i)) key_not_null (fun _ => true) obj self parent key.
Proof.
  induction obj as [c|s|items IH|props IH] using jsvalue_ind; intros self parent key;
    cbn [YamlHandler.collectTranslatableValues walk]; [done| |walk_children IH..].
  by destruct (0 <? _), (parent_truthy parent), (key_not_null key).
Qed.

Lemma toml_walk obj : forall self parent key,
  TomlHandler.collectTranslatableValues obj self parent key
  = walk KNum key_truthy (fun _ => true) obj self parent key.
Proof.
  induction obj as [c|s|items IH|props IH] using jsvalue_ind; intros self parent key;
    cbn [TomlHandler.collectTranslatableValues walk]; [done..|walk_children IH|walk_children IH].
Qed.

Lemma xml_walk obj : forall self parent key,
  XmlHandler.collectTranslatableValues obj self parent key
  = walk (fun i => KStr (decimal i)) key_truthy XmlHandler.visited obj self parent key.
Proof.
  induction obj as [c|s|items IH|props IH] using jsvalue_ind; intros self parent key;
    cbn [XmlHandler.collectTranslatableValues walk]; [done..|walk_children IH|walk_children IH].
Qed.

(** *** What a walk collects *)

Section WalkFacts.
Context (arrkey : nat -> jskey) (keyok : option jskey -> bool) (visit : jsstring -> bool).
Hypothesis keyok_null : keyok None = false.

(** The units of a walk refer, in order, to the positions of the walk. *)
Lemma walk_designates doc obj : forall self parent key,
  node_at doc self = Some obj ->
  (key = None \/
   exists p i c, self = p ++ [i] /\ parent = Some p /\ node_at doc p = Some c /\
                 child_key arrkey c i = key) ->
  Forall2 (designates arrkey doc)
          (walk arrkey keyok visit obj self parent key)
          ((fun q => self ++ q) <$> positions arrkey keyok visit key obj).
Proof.
  induction obj as [c|s|items IH|props IH] using jsvalue_ind;
    intros self parent key Hself Hkey; cbn [walk positions].
  - constructor.
  - rewrite trim_length_pos. destruct (negb (blank s)); [|constructor].
    destruct (keyok key) eqn:Hok; [|rewrite andb_false_r; constructor].
    destruct Hkey as [->|(p & i & c & -> & -> & Hp & Hk)]; [congruence|].
    simpl. constructor; [|constructor]. rewrite app_nil_r. split; [|done].
    destruct key as [k|]; [|congruence]. by exists p, i, c, k.
  - rewrite !forEach_iwalk, iwalk_fmap. apply iwalk_Forall2. intros k x Hk. cbn beta. change (0 + k) with k.
    destruct (visit (decimal k)); [|constructor].
    rewrite <- list_fmap_compose.
    rewrite Forall_lookup in IH. specialize (IH k x Hk).
    erewrite list_fmap_ext; [apply (IH (self ++ [k]) (Some self) (Some (arrkey k)))|..].
    + rewrite node_at_snoc, Hself. done.
    + right. exists self, k, (VArr items). split_and!; try done. simpl. by rewrite Hk.
    + intros _ q _. simpl. by rewrite <- app_assoc.
  - rewrite !forEntries_iwalk, iwalk_fmap. apply iwalk_Forall2. intros k [n x] Hk. cbn beta. change (0 + k) with k.
    cbn [fst snd]. destruct (visit n); [|constructor].
    rewrite <- list_fmap_compose.
    rewrite Forall_lookup in IH. specialize (IH k (n, x) Hk). cbn [snd] in IH.
    erewrite list_fmap_ext; [apply (IH (self ++ [k]) (Some self) (Some (KStr n)))|..].
    + rewrite node_at_snoc, Hself. simpl. by rewrite Hk.
    + right. exists self, k, (VObj props). split_and!; try done. simpl. by rewrite Hk.
    + intros _ q _. simpl. by rewrite <- app_assoc.
Qed.

Lemma positions_NoDup obj : forall key, NoDup (positions arrkey keyok visit key obj).
Proof.
  induction obj as [c|s|items IH|props IH] using jsvalue_ind; intros key; cbn [positions].
  - constructor.
  - destruct (_ && _); [apply NoDup_singleton|constructor].
  - rewrite forEach_iwalk. apply (iwalk_NoDup head).
    + intros k x Hk. cbn beta. change (0 + k) with k. destruct (visit _); [|constructor].
      apply (NoDup_fmap_2 _). rewrite Forall_lookup in IH. by apply (IH k x).
    + intros k x a Hk. cbn beta. change (0 + k) with k. destruct (visit _); [|by intros ?%elem_of_nil].
      by intros (q & -> & _)%list_elem_of_fmap.
  - rewrite forEntries_iwalk. apply (iwalk_NoDup head).
    + intros k [n x] Hk. cbn beta. change (0 + k) with k. destruct (visit _); [|constructor].
      apply (NoDup_fmap_2 _). rewrite Forall_lookup in IH. by apply (IH k (n, x)).
    + intros k x a Hk. cbn beta. change (0 + k) with k. destruct (visit _); [|by intros ?%elem_of_nil].
      by intros (q & -> & _)%list_elem_of_fmap.
Qed.

Lemma precedes_heads (a b : objref) i j :
  head a = Some i -> head b = Some j -> i < j -> precedes a b.
Proof. destruct a, b; simpl; try done. intros [= ->] [= ->] ?. by left. Qed.

Lemma sorted_under (k : nat) (l : list objref) :
  StronglySorted precedes l -> StronglySorted precedes (cons k <$> l).
Proof.
  induction 1 as [|q l Hs IH Hq]; simpl; constructor; [done|].
  apply Forall_fmap. eapply Forall_impl; [exact Hq|]. intros q' Hq'. simpl. by right.
Qed.

(** The positions of a walk are listed in document order. *)
Lemma positions_sorted obj : forall key,
  StronglySorted precedes (positions arrkey keyok visit key obj).
Proof.
  induction obj as [c|s|items IH|props IH] using jsvalue_ind; intros key; cbn [positions].
  - constructor.
  - destruct (_ && _); repeat constructor.
  - rewrite forEach_iwalk. apply (iwalk_sorted precedes head); [| |apply precedes_heads].
    + intros k x Hk. cbn beta. change (0 + k) with k. destruct (visit _); [|constructor].
      apply sorted_under. rewrite Forall_lookup in IH. by apply (IH k x).
    + intros k x a Hk. cbn beta. change (0 + k) with k.
      destruct (visit _); [|by intros ?%elem_of_nil].
      by intros (q & -> & _)%list_elem_of_fmap.
  - rewrite forEntries_iwalk. apply (iwalk_sorted precedes head); [| |apply precedes_heads].
    + intros k [n x] Hk. cbn beta. change (0 + k) with k. destruct (visit _); [|constructor].
      apply sorted_under. rewrite Forall_lookup in IH. by apply (IH k (n, x)).
    + intros k x a Hk. cbn beta. change (0 + k) with k.
      destruct (visit _); [|by intros ?%elem_of_nil].
      by intros (q & -> & _)%list_elem_of_fmap.
Qed.

(** The positions of a walk are those of the strings that are not blank,
    reached through visited names only, under a key that passes the test. *)
Lemma elem_of_positions obj : forall key q,
  q ∈ positions arrkey keyok visit key obj <->
  (exists s, node_at obj q = Some (VStr s) /\ blank s = false) /\
  Forall (fun n => visit n = true) (names_to obj q) /\
  keyok (key_at arrkey key obj q) = true.
Proof.
  induction obj as [c|s|items IH|props IH] using jsvalue_ind; intros key q;
    cbn [positions].
  - split; [by intros ?%elem_of_nil|]. intros [(s & Hs & _) _].
    destruct q; simpl in Hs; done.
  - split.
    + destruct (blank s) eqn:Hb; simpl; [by intros ?%elem_of_nil|].
      destruct (keyok key) eqn:Hok; [|by intros ?%elem_of_nil].
      intros ->%list_elem_of_singleton. simpl. split_and!; eauto.
    + intros [(s' & Hs & Hb) [_ Hok]]. destruct q; simpl in Hs, Hok; [|done].
      injection Hs as ->. rewrite Hb, Hok. simpl. by apply list_elem_of_singleton.
  - rewrite forEach_iwalk, elem_of_iwalk. split.
    + intros (k & x & Hk & Hq). cbn beta in Hq. change (0 + k) with k in Hq.
      destruct (visit (decimal k)) eqn:Hv; [|by apply elem_of_nil in Hq].
      apply list_elem_of_fmap in Hq as (q' & -> & Hq').
      rewrite Forall_lookup in IH. apply (IH k x Hk) in Hq' as (Hs & Hn & Hok).
      simpl. rewrite Hk. simpl. split_and!; [done|by constructor|done].
    + intros [(s & Hs & Hb) [Hn Hok]]. destruct q as [|k q']; [done|].
      simpl in Hs, Hn, Hok. destruct (items !! k) as [x|] eqn:Hk; [|done].
      simpl in Hn, Hok. apply Forall_cons in Hn as [Hv Hn].
      exists k, x. split; [done|]. cbn beta. change (0 + k) with k. rewrite Hv.
      apply list_elem_of_fmap. exists q'. split; [done|].
      rewrite Forall_lookup in IH. apply (IH k x Hk). eauto.
  - rewrite forEntries_iwalk, elem_of_iwalk. split.
    + intros (k & [n x] & Hk & Hq). cbn beta in Hq. cbn [fst snd] in Hq.
      change (0 + k) with k in Hq.
      destruct (visit n) eqn:Hv; [|by apply elem_of_nil in Hq].
      apply list_elem_of_fmap in Hq as (q' & -> & Hq').
      rewrite Forall_lookup in IH. apply (IH k (n, x) Hk) in Hq' as (Hs & Hn & Hok).
      simpl. rewrite Hk. simpl. split_and!; [done|by constructor|done].
    + intros [(s & Hs & Hb) [Hn Hok]]. destruct q as [|k q']; [done|].
      simpl in Hs, Hn, Hok. destruct (props !! k) as [[n x]|] eqn:Hk; [|done].
      simpl in Hs, Hn, Hok. apply Forall_cons in Hn as [Hv Hn].
      exists k, (n, x). split; [done|]. cbn beta. cbn [fst snd]. change (0 + k) with k.
      rewrite Hv.
      apply list_elem_of_fmap. exists q'. split; [done|].
      rewrite Forall_lookup in IH. apply (IH k (n, x) Hk). eauto.
Qed.

(** Below the root every node has a key. *)
Lemma key_at_Some doc : forall key q v,
  q <> [] -> node_at doc q = Some v -> is_Some (key_at arrkey key doc q).
Proof.
  intros key q. revert doc key. induction q as [|i q IH]; intros doc key v Hq Hv; [done|].
  simpl in *. destruct (child doc i) as [c|] eqn:Hc; [|done].
  destruct q as [|j q].
  - simpl. destruct doc as [| |items|props]; simpl in *; try done.
    + rewrite Hc. by eexists.
    + destruct (props !! i); [by eexists|done].
  - by eapply IH.
Qed.
End WalkFacts.

End DocumentFacts.

(** ** The unit extractors *)

Module Extractor.
Import JS Utils Translator Document Spec Walks JSFacts DocumentFacts.

Local Open Scope nat_scope.

(** C7 (counterexample).  The XML extractor skips attributes by design: the
    attribute value is a string that is not blank, inside a container and
    under a key, and no extracted unit refers to it. *)
Lemma xml_attribute_not_extracted :
  ~ extracts_every_leaf decimal_key XmlHandler.collectTranslatableValues xml_with_attribute.
Proof.
  intros Hall.
  destruct (Hall [0; 0] (js "main")) as (it & Hin & Hloc & Hval); [done..|].
  vm_compute in Hin. apply list_elem_of_singleton in Hin as ->.
  destruct Hloc as (p & i & c & k & Hq & Hp & _). simpl in Hp.
  injection Hp as <-. destruct i; discriminate.
Qed.

(** A defect apart from the property below: the TOML extractor tests the key
    for truthiness where the JSON extractor tests that it is not null, and so
    misses the first element of an array, whose key is the number 0. *)
Example toml_index_zero_not_extracted :
  TomlHandler.collectTranslatableValues toml_with_array [] None None
  = [Item (js "Enjoy") (Some [0]) (Some (KNum 1))] /\
  JsonHandler.collectTranslatableValues toml_with_array [] None None
  = [Item (js "Welcome") (Some [0]) (Some (KNum 0));
     Item (js "Enjoy") (Some [0]) (Some (KNum 1))].
Proof. split; reflexivity. Qed.

Lemma positions_root arrkey keyok visit doc :
  (fun q : objref => [] ++ q) <$> positions arrkey keyok visit None doc
  = positions arrkey keyok visit None doc.
Proof. apply list_fmap_id. Qed.

(** C7 (amended).  For every document [doc], each of the four extractors
    yields its units in one-to-one correspondence, in order, with a list [qs]
    of positions that is duplicate free and in document order, each unit
    referring to the container and key of its position and carrying the
    string found there.  Every position of [qs] is below the root, holds a
    string that is not blank, and is reached through visited names only (the
    XML extractor does not visit a name that starts with [@] or is
    [#comment]; the others visit every name).  Conversely, the JSON and YAML
    extractors have in [qs] every position below the root that holds a string
    that is not blank, index 0 of an array being like any other; the XML and
    TOML extractors have in [qs] every such position reached through visited
    names whose own key is neither the number 0 nor the empty name (nothing
    is said here of the positions under these two keys). *)
Theorem extracted_units (fmt : format) (doc : jsvalue) :
  exists qs,
    Forall2 (designates (array_key fmt) doc) (extract fmt doc) qs /\
    NoDup qs /\ StronglySorted precedes qs /\
    (forall q, q ∈ qs ->
       q <> [] /\ (exists s, node_at doc q = Some (VStr s) /\ blank s = false) /\
       Forall (fun n => visits fmt n = true) (names_to doc q)) /\
    (forall q s,
       q <> [] -> node_at doc q = Some (VStr s) -> blank s = false ->
       Forall (fun n => visits fmt n = true) (names_to doc q) ->
       match fmt with
       | Json | Yaml => True
       | Xml | Toml =>
           key_at (array_key fmt) None doc q <> Some (KNum 0) /\
           key_at (array_key fmt) None doc q <> Some (KStr [])
       end ->
       q ∈ qs).
Proof.
  exists (positions (array_key fmt) (key_test fmt) (visits fmt) None doc).
  assert (key_test fmt None = false) as Hnull by by destruct fmt.
  split_and!.
  - rewrite <- positions_root.
    destruct fmt; simpl extract; rewrite ?json_walk, ?yaml_walk, ?xml_walk, ?toml_walk;
      apply walk_designates; auto.
  - apply positions_NoDup.
  - apply positions_sorted.
  - intros q (Hs & Hn & Hk)%elem_of_positions. split_and!; [|done..].
    intros ->. simpl in Hk. congruence.
  - intros q s Hq Hs Hb Hn Hk. apply elem_of_positions. split_and!; [eauto|done|].
    destruct (key_at_Some (array_key fmt) doc None q _ Hq Hs) as [k Hkey].
    rewrite Hkey in *.
    destruct fmt; [done|done|..]; destruct Hk as [H0 He];
      destruct k as [[|i]|[|c k]]; simpl; congruence.
Qed.

(** On the example: the attribute of the XML element is left out, its text
    is extracted. *)
Example extracted_units_examples :
  extract Xml xml_with_attribute
  = [Item (js "Hello") (Some [0]) (Some (KStr (js "#text")))].
Proof. reflexivity. Qed.

(** A bare scalar at the root is never extracted. *)
Lemma bare_root_not_extracted (doc : jsvalue) :
  (forall items, doc <> VArr items) -> (forall props, doc <> VObj props) ->
  JsonHandler.collectTranslatableValues doc [] None None = [] /\
  YamlHandler.collectTranslatableValues doc [] None None = [] /\
  XmlHandler.collectTranslatableValues doc [] None None = [] /\
  TomlHandler.collectTranslatableValues doc [] None None = [].
Proof.
  intros Harr Hobj. destruct doc as [c|s|items|props]; simpl.
  - done.
  - rewrite !andb_false_r. by destruct (0 <? _).
  - by destruct (Harr items).
  - by destruct (Hobj props).
Qed.

End Extractor.

(** ** Assignments through the references of the units *)

Module AssignFacts.
Import JS Utils Translator Document Spec Walks JSFacts DocumentFacts.

Local Open Scope nat_scope.






(** *** One child replaced *)





(** *** One node replaced *)





Section Keys.
Context (arrkey : nat -> jskey).
Hypothesis arrkey_name : forall i, prop_name (Some (arrkey i)) = decimal i.




End Keys.


End AssignFacts.

(** ** The incremental translate-and-rewrite loop *)

Module Driver.
Import JS Utils Translator Document Spec Walks JSFacts DocumentFacts TranslatorFacts AssignFacts.

Local Open Scope nat_scope.

Section Loop.
Context `{Remote} `{Codec} (cfg : config) (outputPath : jsstring).






End Loop.
End Driver.

(** ** The drivers: incremental rewriting, empty work *)

Module DriverClaims.
Import JS Utils Translator Document Spec Walks.
Import JSFacts DocumentFacts TranslatorFacts AssignFacts Driver.

Local Open Scope nat_scope.

Section Claims.
Context `{Remote} `{Codec} (cfg : config).

Lemma translateFile_unfold fmt inputPath outputPath w content doc :
  disk w !! inputPath = Some content -> parse content = Normal doc ->
  translateFile fmt inputPath outputPath cfg w =
    let items := extract fmt doc in
    if length items =? 0 then (Normal (), without_units fmt outputPath content w)
    else (Normal (),
          snd (translateItems cfg outputPath (length items) 0 items doc
                 (progressBar_update 0 (length items) w))).
Proof.
  intros Hin Hparse.
  destruct fmt; simpl;
    unfold JsonHandler.translateJsonFile, YamlHandler.translateYamlFile,
      XmlHandler.translateXmlFile, TomlHandler.translateTomlFile, readFile;
    rewrite Hin, Hparse; cbn zeta;
    (destruct (length _ =? 0); [done|]);
    unfold ensureDir_dirname; by destruct (translateItems _ _ _ _ _ _ _).
Qed.

(** C4 (divergence).  When the document yields no unit, every driver returns
    normally, but the JSON and YAML drivers return at once: nothing is
    written, so the world, and with it the output path, is left as it was.
    The XML and TOML drivers write the content of the input to the output
    path. *)
Theorem no_units_no_output (fmt : format) (inputPath outputPath : jsstring) (w : World)
    (content : jsstring) (doc : jsvalue) :
  disk w !! inputPath = Some content -> parse content = Normal doc ->
  extract fmt doc = [] ->
  translateFile fmt inputPath outputPath cfg w =
    (Normal (), match fmt with
                | Json | Yaml => w
                | Xml | Toml => writeFile outputPath content w
                end).
Proof.
  intros Hin Hparse Hnone.
  rewrite (translateFile_unfold fmt _ _ w content doc Hin Hparse). cbn zeta.
  rewrite Hnone. by destruct fmt.
Qed.


End Claims.

(** Witnesses and counterexamples on the fixtures. *)

Lemma no_units_no_output_witness :
  @translateFile flaky (fixture_codec no_leaves) Json (js "in.json") (js "out.json") cfg0
                 (on_disk (js "in.json") (js "count: 3"))
  = (Normal (), on_disk (js "in.json") (js "count: 3")) /\
  disk (on_disk (js "in.json") (js "count: 3")) !! js "out.json" = None.
Proof.
  split.
  - apply (@no_units_no_output flaky (fixture_codec no_leaves) cfg0 Json
             (js "in.json") (js "out.json") (on_disk (js "in.json") (js "count: 3"))
             (js "count: 3") no_leaves); reflexivity.
  - reflexivity.
Defined.



End DriverClaims.

(** ** The drivers over the live object graph: shared objects and isolation *)

Module LiveFacts.
Import JS Utils Translator Document Spec Live LiveSpec.
Import JSFacts TranslatorFacts.

Local Open Scope nat_scope.

(** *** The four extractors are walks *)

Lemma forEach_pointwise f g n l :
  (forall x i, f x i = g x i) -> forEach f n l = forEach g n l.
Proof.
  intros Hfg. revert n. induction l as [|x l IH]; intros n; simpl; [done|].
  by rewrite Hfg, IH.
Qed.

Lemma forEntries_pointwise f g n l :
  (forall k v i, f k v i = g k v i) -> forEntries f n l = forEntries g n l.
Proof.
  intros Hfg. revert n. induction l as [|[k v] l IH]; intros n; simpl; [done|].
  by rewrite Hfg, IH.
Qed.

Ltac walk_cell IH a h :=
  destruct (h !! a) as [[items|props]|];
  [apply forEach_pointwise; intros; by rewrite ?IH
  |apply forEntries_pointwise; intros; by rewrite ?IH
  |done].

Lemma live_json_walk depth h : forall obj parent key,
  LiveJson.collectTranslatableValues depth h obj parent key
  = walk KNum key_not_null (fun _ => true) depth h obj parent key.
Proof.
  induction depth as [|depth IH]; intros obj parent key; simpl; [done|].
  destruct obj as [c|s|a]; [done| |walk_cell IH a h].
  by destruct (0 <? _), (parent_truthy parent), (key_not_null key).
Qed.

Lemma live_yaml_walk depth h : forall obj parent key,
  LiveYaml.collectTranslatableValues depth h obj parent key
  = walk (fun i => KStr (decimal i)) key_not_null (fun _ => true) depth h obj parent key.
Proof.
  induction depth as [|depth IH]; intros obj parent key; simpl; [done|].
  destruct obj as [c|s|a]; [done| |walk_cell IH a h].
  by destruct (0 <? _), (parent_truthy parent), (key_not_null key).
Qed.

Lemma live_toml_walk depth h : forall obj parent key,
  LiveToml.collectTranslatableValues depth h obj parent key
  = walk KNum key_truthy (fun _ => true) depth h obj parent key.
Proof.
  induction depth as [|depth IH]; intros obj parent key; simpl; [done|].
  destruct obj as [c|s|a]; [done|done|walk_cell IH a h].
Qed.

Lemma live_xml_walk depth h : forall obj parent key,
  LiveXml.collectTranslatableValues depth h obj parent key
  = walk (fun i => KStr (decimal i)) key_truthy XmlHandler.visited depth h obj parent key.
Proof.
  induction depth as [|depth IH]; intros obj parent key; simpl; [done|].
  destruct obj as [c|s|a]; [done|done|walk_cell IH a h].
Qed.

Lemma extract_walk fmt depth h data :
  extract fmt depth h data
  = walk (array_key fmt) (key_test fmt) (visits fmt) depth h data None None.
Proof.
  destruct fmt; simpl.
  - apply live_json_walk.
  - apply live_yaml_walk.
  - apply live_xml_walk.
  - apply live_toml_walk.
Qed.

(** *** Children of a cell *)

Lemma slot_arr items k x : items !! k = Some x -> slot (CArr items) (decimal k) = Some k.
Proof.
  intros Hk. simpl. apply lookup_lt_Some in Hk.
  assert (list_find (fun j => decimal j = decimal k) (seq 0 (length items)) = Some (k, k))
    as ->; [|done].
  apply list_find_Some. split_and!; [by apply lookup_seq|done|].
  intros j y [-> _]%lookup_seq Hlt Heq%decimal_inj. simpl in Heq. lia.
Qed.

Lemma slot_obj props k n x :
  NoDup (fst <$> props) -> props !! k = Some (n, x) -> slot (CObj props) n = Some k.
Proof.
  intros Hnd Hk. simpl.
  assert (list_find (fun kv : jsstring * jsref => fst kv = n) props = Some (k, (n, x)))
    as ->; [|done].
  apply list_find_Some. split_and!; [done..|].
  intros j [n' v'] Hj Hlt Heq. simpl in Heq. subst n'.
  assert (k = j); [|lia].
  eapply (NoDup_lookup (fst <$> props) k j n); [done|..];
    by rewrite list_lookup_fmap, ?Hk, ?Hj.
Qed.

(** A name designates a child that the cell has, and no two names
    designate the same child. *)
Lemma slot_get c n i : slot c n = Some i -> is_Some (get c i).
Proof.
  destruct c as [items|props]; simpl.
  - destruct (list_find _ _) as [[j y]|] eqn:E; [|done]. intros [= <-].
    apply list_find_Some in E as ([-> Hlt]%lookup_seq & _). simpl in *.
    by apply lookup_lt_is_Some.
  - destruct (list_find _ _) as [[j y]|] eqn:E; [|done]. intros [= <-].
    apply list_find_Some in E as (Hj & _). simpl. rewrite Hj. by eexists.
Qed.

Lemma slot_inj c n1 n2 i : slot c n1 = Some i -> slot c n2 = Some i -> n1 = n2.
Proof.
  destruct c as [items|props]; simpl.
  - destruct (list_find _ _) as [[j y]|] eqn:E1; [|done]. intros [= <-].
    destruct (list_find (fun i => decimal i = n2) _) as [[j' y']|] eqn:E2; [|done].
    intros [= <-].
    apply list_find_Some in E1 as ([-> _]%lookup_seq & <- & _).
    apply list_find_Some in E2 as ([-> _]%lookup_seq & <- & _). done.
  - destruct (list_find _ _) as [[j y]|] eqn:E1; [|done]. intros [= <-].
    destruct (list_find (fun kv => fst kv = n2) _) as [[j' y']|] eqn:E2; [|done].
    intros [= <-].
    apply list_find_Some in E1 as (H1 & <- & _).
    apply list_find_Some in E2 as (H2 & <- & _). congruence.
Qed.

Lemma list_find_alter_index {A} (P : A -> Prop) `{forall a, Decision (P a)}
    (g : A -> A) i (l : list A) :
  (forall a, P (g a) <-> P a) ->
  fst <$> list_find P (alter g i l) = fst <$> list_find P l.
Proof.
  intros Hg. revert i. induction l as [|a l IH]; intros i; [done|].
  destruct i as [|i]; simpl.
  - destruct (decide (P (g a))) as [Hp|Hp], (decide (P a)) as [Hq|Hq]; try done.
    + destruct Hq. by apply Hg.
    + destruct Hp. by apply Hg.
  - destruct (decide (P a)); [done|].
    assert (forall x : option (nat * A),
              fst <$> (prod_map S id <$> x) = S <$> (fst <$> x)) as Hs by (by intros [[]|]).
    rewrite !Hs. f_equal. apply IH.
Qed.

(** An assignment keeps the names of a cell ... *)
Lemma slot_set c i x n : slot (set c i x) n = slot c n.
Proof.
  destruct c as [items|props]; simpl.
  - by rewrite length_insert.
  - by apply list_find_alter_index.
Qed.

(** ... puts the value under the name assigned to, and leaves the other
    children as they are. *)
Lemma get_set_eq c i x : is_Some (get c i) -> get (set c i x) i = Some x.
Proof.
  destruct c as [items|props]; simpl; intros [v Hv].
  - apply list_lookup_insert_eq. by apply lookup_lt_Some in Hv.
  - rewrite list_lookup_alter_eq. by destruct (props !! i).
Qed.

Lemma get_set_ne c i j x : i <> j -> get (set c i x) j = get c j.
Proof.
  intros Hij. destruct c as [items|props]; simpl.
  - by apply list_lookup_insert_ne.
  - by rewrite list_lookup_alter_ne.
Qed.

(** *** Reading after an assignment *)

Lemma assign_defined h it t : is_Some (read h it) -> is_Some (assign h it t).
Proof.
  unfold read, assign. intros [v Hv].
  destruct (ref it) as [a|]; [|done]. cbn [mbind option_bind] in *.
  destruct (h !! a) as [c|]; [|done]. cbn [mbind option_bind] in *.
  destruct (slot c _) as [i|]; [|done]. by eexists.
Qed.

Lemma read_assign_same h it t h' it' :
  assign h it t = Some h' -> place it' = place it -> read h' it' = Some (RStr t).
Proof.
  unfold assign, read, place. intros Hassign [= -> ->].
  destruct (ref it) as [a|]; [|done]. cbn [mbind option_bind] in *.
  destruct (h !! a) as [c|] eqn:Hc; [|done]. cbn [mbind option_bind] in *.
  destruct (slot c _) as [i|] eqn:Hi; [|done]. cbn [mbind option_bind] in *.
  injection Hassign as <-. rewrite lookup_insert_eq. cbn [mbind option_bind].
  rewrite slot_set, Hi. cbn [mbind option_bind].
  apply get_set_eq. by eapply slot_get.
Qed.

Lemma read_assign_other h it t h' it' :
  assign h it t = Some h' -> place it' <> place it -> read h' it' = read h it'.
Proof.
  unfold assign, read, place. intros Hassign Hne.
  destruct (ref it) as [a|]; [|done]. cbn [mbind option_bind] in *.
  destruct (h !! a) as [c|] eqn:Hc; [|done]. cbn [mbind option_bind] in *.
  destruct (slot c (prop_name (key it))) as [i|] eqn:Hi; [|done].
  cbn [mbind option_bind] in *. injection Hassign as <-.
  destruct (ref it') as [a'|]; [|done]. cbn [mbind option_bind].
  destruct (decide (a' = a)) as [->|Ha].
  - rewrite lookup_insert_eq, Hc. cbn [mbind option_bind]. rewrite slot_set.
    destruct (slot c (prop_name (key it'))) as [j|] eqn:Hj; [|done].
    cbn [mbind option_bind]. apply get_set_ne. intros ->.
    apply Hne. f_equal. by eapply slot_inj.
  - by rewrite lookup_insert_ne.
Qed.

(** *** Every extracted unit reads its value *)

Lemma forEach_Forall (P : item -> Prop) f n l items :
  forEach f n l = Normal items ->
  (forall k x pushed, l !! k = Some x -> f x (n + k) = Normal pushed -> Forall P pushed) ->
  Forall P items.
Proof.
  revert n items. induction l as [|x l IH]; intros n items; simpl.
  - intros [= <-] _. constructor.
  - destruct (f x n) as [pushed|e] eqn:Ex; [|done].
    destruct (forEach f (S n) l) as [later|e] eqn:El; [|done].
    intros [= <-] Hall. apply Forall_app. split.
    + apply (Hall 0 x); [done|]. by rewrite Nat.add_0_r.
    + apply (IH (S n)); [done|]. intros k y us Hk Hy. apply (Hall (S k) y); [done|].
      by replace (n + S k) with (S n + k) by lia.
Qed.

Lemma forEntries_Forall (P : item -> Prop) f n l items :
  forEntries f n l = Normal items ->
  (forall i k v pushed, l !! i = Some (k, v) -> f k v (n + i) = Normal pushed ->
                        Forall P pushed) ->
  Forall P items.
Proof.
  revert n items. induction l as [|[k v] l IH]; intros n items; simpl.
  - intros [= <-] _. constructor.
  - destruct (f k v n) as [pushed|e] eqn:Ex; [|done].
    destruct (forEntries f (S n) l) as [later|e] eqn:El; [|done].
    intros [= <-] Hall. apply Forall_app. split.
    + apply (Hall 0 k v); [done|]. by rewrite Nat.add_0_r.
    + apply (IH (S n)); [done|]. intros i k' v' us Hi Hy. apply (Hall (S i) k' v'); [done|].
      by replace (n + S i) with (S n + i) by lia.
Qed.

Section WalkFacts.
Context (arrkey : nat -> jskey) (keyok : option jskey -> bool) (visit : jsstring -> bool).
Context (h : heap).
Hypothesis arrkey_name : forall i, prop_name (Some (arrkey i)) = decimal i.
Hypothesis Hwf : wf h = true.

Lemma wf_lookup a props : h !! a = Some (CObj props) -> NoDup (fst <$> props).
Proof.
  intros Ha. unfold wf in Hwf. apply bool_decide_eq_true in Hwf.
  by apply (Hwf a (CObj props)).
Qed.

(** When the walk is at a value that its parent holds under its key, every
    unit collected reads, in the heap, the value it carries. *)
Lemma walk_reads depth : forall obj parent key items,
  walk arrkey keyok visit depth h obj parent key = Normal items ->
  (forall a, parent = Some a ->
     exists c i, h !! a = Some c /\ slot c (prop_name key) = Some i /\ get c i = Some obj) ->
  Forall (fun it => read h it = Some (RStr (value it))) items.
Proof.
  induction depth as [|depth IH]; intros obj parent key items; simpl; [done|].
  destruct obj as [c|s|a].
  - intros [= <-] _. constructor.
  - intros [= <-] Hheld.
    destruct (_ && _) eqn:E; [|constructor]. constructor; [|constructor].
    destruct parent as [a|]; [|by rewrite andb_false_r in E].
    destruct (Hheld a eq_refl) as (c & i & Hc & Hi & Hget).
    unfold read. simpl. rewrite Hc. simpl. rewrite Hi. simpl. done.
  - destruct (h !! a) as [[elems|props]|] eqn:Ha.
    + intros Hwalk _. eapply forEach_Forall; [exact Hwalk|].
      intros k x pushed Hk Hx. simpl in Hx.
      destruct (visit (decimal k)); [|injection Hx as <-; constructor].
      apply (IH _ _ _ _ Hx). intros a' [= <-].
      exists (CArr elems), k. rewrite arrkey_name. split_and!; [done| |done].
      by eapply slot_arr.
    + intros Hwalk _. eapply forEntries_Forall; [exact Hwalk|].
      intros i k v pushed Hi Hv. simpl in Hv.
      destruct (visit k); [|injection Hv as <-; constructor].
      apply (IH _ _ _ _ Hv). intros a' [= <-].
      exists (CObj props), i. simpl prop_name. split_and!; [done| |by simpl; rewrite Hi].
      eapply slot_obj; [by eapply wf_lookup|done].
    + intros [= <-] _. constructor.
Qed.
End WalkFacts.

Lemma extract_reads fmt depth h data items :
  wf h = true -> extract fmt depth h data = Normal items ->
  Forall (fun it => read h it = Some (RStr (value it))) items.
Proof.
  intros Hwf Hitems. rewrite extract_walk in Hitems.
  eapply (walk_reads (array_key fmt)); [by destruct fmt|done|exact Hitems|done].
Qed.

(** *** The loop and the drivers *)

Section Loop.
Context `{Remote} `{Codec} (cfg : config) (outputPath : jsstring).

Lemma translateFile_run fmt depth inputPath w content data h items :
  disk w !! inputPath = Some content -> parse content = Normal (data, h) ->
  extract fmt depth h data = Normal items -> items <> [] ->
  translateFile fmt depth inputPath outputPath cfg w =
    (Normal (),
     snd (translateItems cfg outputPath (length items) 0 items data h
            (progressBar_update 0 (length items) w))).
Proof.
  intros Hin Hparse Hitems Hne.
  assert ((length items =? 0) = false) as Hlen by (destruct items; done).
  destruct fmt; simpl in *;
    unfold LiveJson.translateJsonFile, LiveYaml.translateYamlFile,
      LiveXml.translateXmlFile, LiveToml.translateTomlFile, readFile;
    rewrite Hin, Hparse, Hitems, Hlen; cbn zeta;
    unfold ensureDir_dirname; by destruct (translateItems _ _ _ _ _ _ _ _).
Qed.

(** One iteration on a unit whose translation returns, or throws. *)
Lemma translateItems_returned total i it rest data h w t w1 h1 :
  translateText cfg (value it) (bare (calls w)) = (Normal t, w1) ->
  assign h it t = Some h1 ->
  translateItems cfg outputPath total i (it :: rest) data h w =
    translateItems cfg outputPath total (S i) rest data h1
      (progressBar_update (i + 1) total
         (writeFile outputPath (stringify h1 data)
            (MkWorld (calls w1) (slept w ++ slept w1) (disk w) (progress w)))).
Proof.
  intros Ht Hassign. cbn [translateItems]. rewrite translateText_frame. cbn zeta.
  rewrite Ht. cbn [fst snd]. by rewrite Hassign.
Qed.

Lemma translateItems_thrown total i it rest data h w e w1 :
  translateText cfg (value it) (bare (calls w)) = (Throw e, w1) ->
  translateItems cfg outputPath total i (it :: rest) data h w =
    translateItems cfg outputPath total (S i) rest data h
      (progressBar_update (i + 1) total
         (MkWorld (calls w1) (slept w ++ slept w1) (disk w) (progress w))).
Proof.
  intros Ht. cbn [translateItems]. rewrite translateText_frame. cbn zeta. by rewrite Ht.
Qed.

End Loop.
End LiveFacts.

(** ** Unit isolation *)

Module Isolation.
Import JS Utils Translator Document Spec Live LiveSpec.
Import JSFacts TranslatorFacts LiveFacts.

Local Open Scope nat_scope.

(** C1 (counterexample).  The document of the YAML text
    [a: &x {t: hi}], [b: *x], [c: bye] has the three units [a.t], [b.t] and
    [c], and the object under [a] is the object under [b].  The translation
    of the first unit returns, that of the second throws (the remote answers
    the second request with a server error), that of the third returns.  The
    assignment made for the first unit is seen through [b]: the output file
    holds the translation at [b.t], not the original value, and no document
    can hold both at the one place that the two units refer to. *)
Lemma aliased_unit_not_isolated :
  disk (snd (@translateFile (failing_at 1) (fixture_codec (RObject 0) aliased) Yaml 8
               (js "in.yml") (js "out.yml") cfg0 (on_disk (js "in.yml") (js "x"))))
    !! js "out.yml"
  = Some (js "DE:hi" ++ [10%N] ++ js "DE:hi" ++ [10%N] ++ js "DE:bye" ++ [10%N]) /\
  ~ @isolates (failing_at 1) (fixture_codec (RObject 0) aliased) Yaml 8 cfg0
      (js "in.yml") (js "out.yml") (on_disk (js "in.yml") (js "x")).
Proof.
  split; [vm_compute; reflexivity|].
  intros Hclaim.
  destruct (Hclaim (js "x") (RObject 0) aliased
              (Item (js "hi") (Some 1) (Some (KStr (js "t"))))
              (Item (js "hi") (Some 1) (Some (KStr (js "t"))))
              (Item (js "bye") (Some 0) (Some (KStr (js "c"))))
              (js "DE:hi") (js "DE:bye")
              (Error (js "DeepL API error (500): Internal error"))
              (MkWorld 1 [] ∅ []) (MkWorld 2 [] ∅ []) (MkWorld 3 [] ∅ []))
    as (final & w' & _ & _ & HA & HB & _); try reflexivity.
  rewrite HA in HB. discriminate.
Qed.

Section Claim.
Context `{Remote} `{Codec} (cfg : config).

(** C1 (amended).  Unit isolation.  Let the document of a JSON, YAML, XML
    or TOML file have exactly the units [A; B; C], the place of [B] (the
    object it refers to and the name of its key) being neither the place of
    [A] nor that of [C].  Let the translation of [A] return [a], that of [B]
    throw (any error: a non-retryable one, or a retryable one after the last
    retry), and that of [C] return [c], each call being made where the
    previous one left the request counter.  Then the driver returns normally;
    the document it leaves is the parsed one with [a] assigned at [A] and
    then [c] at [C], and the output file is its serialization; it holds the
    original value at [B], [c] at [C], and [a] at [A], unless [A] and [C] are
    one place, which then holds [c]. *)
Theorem unit_isolation (fmt : format) (depth : nat) (inputPath outputPath : jsstring)
    (w : World) (content : jsstring) (data : jsref) (h : heap) (itA itB itC : item)
    (a c : jsstring) (e : js_error) (wA wB wC : World) :
  disk w !! inputPath = Some content -> parse content = Normal (data, h) ->
  wf h = true ->
  extract fmt depth h data = Normal [itA; itB; itC] ->
  place itB <> place itA -> place itB <> place itC ->
  translateText cfg (value itA) (bare (calls w)) = (Normal a, wA) ->
  translateText cfg (value itB) (bare (calls wA)) = (Throw e, wB) ->
  translateText cfg (value itC) (bare (calls wB)) = (Normal c, wC) ->
  exists (h1 final : heap) (w' : World),
    assign h itA a = Some h1 /\ assign h1 itC c = Some final /\
    translateFile fmt depth inputPath outputPath cfg w = (Normal (), w') /\
    disk w' !! outputPath = Some (stringify final data) /\
    read final itA = Some (RStr (if decide (place itA = place itC) then c else a)) /\
    read final itB = Some (RStr (value itB)) /\
    read final itC = Some (RStr c).
Proof.
  intros Hin Hparse Hwf Hitems HBA HBC HA HB HC.
  pose proof (extract_reads fmt depth h data _ Hwf Hitems) as Hreads.
  apply Forall_cons in Hreads as [HrA Hreads].
  apply Forall_cons in Hreads as [HrB Hreads].
  apply Forall_cons in Hreads as [HrC _].
  destruct (assign_defined h itA a) as [h1 H1]; [by eexists|].
  assert (read h1 itB = Some (RStr (value itB))) as H1B
    by (by rewrite (read_assign_other h itA a h1 itB)).
  assert (is_Some (read h1 itC)) as H1C.
  { destruct (decide (place itC = place itA)) as [Heq|Hne].
    - rewrite (read_assign_same h itA a h1 itC); eauto.
    - rewrite (read_assign_other h itA a h1 itC); eauto. }
  destruct (assign_defined h1 itC c H1C) as [final H2].
  exists h1, final. eexists. split_and!; [done|done| | | | |].
  - rewrite (translateFile_run cfg outputPath fmt depth inputPath w content data h
               [itA; itB; itC]) by done.
    simpl length.
    rewrite (translateItems_returned cfg outputPath 3 0 itA _ data h _ a wA h1) by done.
    rewrite (translateItems_thrown cfg outputPath 3 1 itB _ data h1 _ e wB) by done.
    rewrite (translateItems_returned cfg outputPath 3 2 itC _ data h1 _ c wC final) by done.
    reflexivity.
  - simpl. apply lookup_insert_eq.
  - destruct (decide (place itA = place itC)) as [Heq|Hne].
    + by apply (read_assign_same h1 itC c final itA).
    + rewrite (read_assign_other h1 itC c final itA) by done.
      by apply (read_assign_same h itA a h1 itA).
  - by rewrite (read_assign_other h1 itC c final itB).
  - by apply (read_assign_same h1 itC c final itC).
Qed.

End Claim.

Lemma unit_isolation_witness :
  exists (h1 final : heap) (w' : World),
    assign three_leaves (Item (js "Apple") (Some 0) (Some (KStr (js "title")))) (js "DE:Apple")
    = Some h1 /\
    assign h1 (Item (js "Cherry") (Some 1) (Some (KNum 2))) (js "DE:Cherry") = Some final /\
    @translateFile (failing_at 1) (fixture_codec (RObject 0) three_leaves) Json 8
                   (js "in.json") (js "out.json") cfg0 (on_disk (js "in.json") (js "x"))
    = (Normal (), w') /\
    disk w' !! js "out.json" = Some (strings_of 8 final (RObject 0)) /\
    read final (Item (js "Apple") (Some 0) (Some (KStr (js "title"))))
    = Some (RStr (js "DE:Apple")) /\
    read final (Item (js "Banana") (Some 1) (Some (KNum 0)))
    = Some (RStr (js "Banana")) /\
    read final (Item (js "Cherry") (Some 1) (Some (KNum 2)))
    = Some (RStr (js "DE:Cherry")).
Proof.
  exact (@unit_isolation (failing_at 1) (fixture_codec (RObject 0) three_leaves) cfg0 Json 8
           (js "in.json") (js "out.json") (on_disk (js "in.json") (js "x")) (js "x")
           (RObject 0) three_leaves
           (Item (js "Apple") (Some 0) (Some (KStr (js "title"))))
           (Item (js "Banana") (Some 1) (Some (KNum 0)))
           (Item (js "Cherry") (Some 1) (Some (KNum 2)))
           (js "DE:Apple") (js "DE:Cherry")
           (Error (js "DeepL API error (500): Internal error"))
           (MkWorld 1 [] ∅ []) (MkWorld 2 [] ∅ []) (MkWorld 3 [] ∅ [])
           eq_refl eq_refl eq_refl eq_refl
           ltac:(discriminate) ltac:(discriminate) eq_refl eq_refl eq_refl).
Defined.

End Isolation.

(** * Further properties of the code *)

(** ** utils.js: nothing protected is left in the protected text *)

Module Hidden.
Import JS Utils Spec Notions JSFacts UtilsFacts ProtectFacts InPlace.

Local Open Scope nat_scope.
Local Arguments token : simpl never.

Lemma matches_at_nil re : protective re -> matches_at re [] = None.
Proof.
  intros Hre. destruct (matches_at re []) as [n|] eqn:E; [|done].
  pose proof (match_here_le _ _ _ _ E) as Hn. simpl in Hn.
  assert (n = 0) as -> by lia. by destruct (prot_nonempty re Hre []).
Qed.

Lemma unmatched_matchAll re s :
  matches_at re [] = None -> no_match_within re s [] -> matchAll re s = [].
Proof.
  intros Hnil. unfold matchAll. induction s as [|c s IH]; intros Hs; simpl.
  - unfold matches_at in Hnil. by rewrite Hnil.
  - assert (matches_at re (c :: s) = None) as Hc.
    { rewrite <- (app_nil_r (c :: s)). by apply (Hs [] (c :: s)). }
    unfold matches_at in Hc. rewrite Hc.
    apply IH. intros g1 g2 -> Hg2. by apply (Hs (c :: g1) g2).
Qed.

Lemma no_match_within_app re A S :
  no_match_within re A S -> no_match_within re S [] -> no_match_within re (A ++ S) [].
Proof.
  intros HA HS g1 g2 Hg Hg2. rewrite app_nil_r.
  apply app_eq_inv in Hg as [(k & -> & ->)|(k & -> & ->)].
  - destruct k as [|c k].
    + rewrite app_nil_l. rewrite <- (app_nil_r S). by apply (HS [] S); [|intros ->; simpl in *].
    + by apply (HA g1 (c :: k)).
  - rewrite <- (app_nil_r g2). by apply (HS k g2).
Qed.

Section OnePattern.
Context (re : regex) (Hre : protective re).

(** Once a match is replaced by its token, no match starts before the end of
    the token. *)
Lemma no_match_after_token A gap m rest i :
  no_match_within re A (gap ++ m ++ rest) ->
  no_match_within re gap (m ++ rest) ->
  matches_at re (m ++ rest) = Some (length m) ->
  no_match_within re (A ++ gap ++ token i) rest.
Proof.
  intros HA Hgap Hm B1 B2 HB HB2. rewrite (app_assoc A gap) in HB.
  apply app_eq_inv in HB as [(y & Hy & ->)|(k & -> & Hk)].
  - destruct y as [|c y].
    + destruct (token_suffix_unit i [] (token i) eq_refl) as (c & t' & Ht & Hc).
      { destruct (token_cons i) as [t' Ht']. by rewrite Ht'. }
      rewrite app_nil_l, Ht. simpl. by apply prot_token.
    + rewrite <- app_assoc. eapply prot_replaced; eauto.
      by eapply no_match_before.
  - destruct (token_suffix_unit i k B2 Hk HB2) as (c & B2' & -> & Hc).
    simpl. by apply prot_token.
Qed.

(** After the pass of a pattern, the pattern matches nowhere. *)
Lemma placed_unmatched i ms s s' :
  placed re i ms s s' ->
  forall A, no_match_within re A s -> no_match_within re (A ++ s') [].
Proof.
  induction 1 as [i s Hnone|i gap m ms rest rest' Hgap Hm Hrest IH]; intros A HA.
  - by apply no_match_within_app.
  - specialize (IH (A ++ gap ++ token i)). rewrite <- !app_assoc in IH.
    apply IH. by apply (no_match_after_token A gap m rest i).
Qed.

End OnePattern.

(** The first code unit of a match is neither a closing brace nor missing. *)
Lemma match_head re m rest :
  discreet re -> matches_at re (m ++ rest) = Some (length m) ->
  protective re -> m <> [] /\ head m <> Some 125%N.
Proof.
  intros Hd Hm Hp. destruct m as [|c m].
  - simpl in Hm. by destruct (prot_nonempty re Hp rest).
  - split; [done|]. simpl. intros [= ->]. simpl in Hm. by rewrite disc_closing in Hm.
Qed.

(** The pass of a pattern [re] creates no match of a pattern [re']. *)
Lemma placed_keeps_unmatched re re' i ms s s' :
  protective re -> discreet re -> protective re' -> discreet re' ->
  placed re i ms s s' ->
  forall A, no_match_within re' (A ++ s) [] -> no_match_within re' (A ++ s') [].
Proof.
  intros Hp Hd Hp' Hd'.
  induction 1 as [i s Hnone|i gap m ms rest rest' Hgap Hm Hrest IH]; intros A HA; [done|].
  destruct (match_head re m rest Hd Hm Hp) as [Hne Hhead].
  specialize (IH (A ++ gap ++ token i)). rewrite <- !app_assoc in IH. apply IH.
  intros g1 g2 Hg Hg2. rewrite app_nil_r. rewrite (app_assoc A gap) in Hg.
  apply app_eq_inv in Hg as [(y & Hy & ->)|(k & -> & Hk)].
  - destruct y as [|c y].
    + rewrite app_nil_l. destruct (token_cons i) as [t' ->]. simpl.
      apply prot_token; [done|]. left. constructor.
    + apply disc_replaced with (m := m); [done..|].
      specialize (HA g1 ((c :: y) ++ m ++ rest)). rewrite app_nil_r in HA. apply HA; [|done].
      rewrite (app_assoc A gap), Hy. by rewrite <- !app_assoc.
  - apply app_eq_inv in Hk as [(y & Hy & ->)|(k' & -> & Hk')].
    + destruct y as [|c y].
      * specialize (HA (A ++ gap ++ m) rest). rewrite app_nil_r in HA.
        rewrite app_nil_l in *. apply HA; [by rewrite <- !app_assoc|done].
      * destruct (token_suffix_unit i k (c :: y) Hy) as (c' & y' & [= <- <-] & Hc); [done|].
        simpl. by apply prot_token.
    + specialize (HA (A ++ gap ++ m ++ k') g2). rewrite app_nil_r in HA.
      apply HA; [|done]. rewrite Hk'. by rewrite <- !app_assoc.
Qed.

(** *** The four pattern classes *)

Lemma two_atoms_discreet ic a1 a2 :
  atom_matches ic a1 125 = false -> atom_matches ic a2 91 = false ->
  discreet (Regex [Once a1; Once a2] ic).
Proof.
  intros Hfirst Hsecond. split.
  - intros s. rewrite two_atoms. destruct s; [done|]. by rewrite Hfirst.
  - intros x m i rest Hx _ _ Hnone. rewrite two_atoms in *.
    destruct (token_cons i) as [t' ->].
    destruct x as [|x1 [|x2 x]]; [done|..]; simpl in *.
    + by rewrite Hsecond, andb_false_r.
    + done.
Qed.

Lemma token_no_closing i : 125%N ∉ token i.
Proof.
  intros (l1 & l2 & Hsplit)%list_elem_of_split.
  destruct (token_suffix_unit i l1 (125%N :: l2) Hsplit) as (c & y & [= <- <-] & [Hc|Hc]);
    [done| |lia].
  repeat (apply elem_of_cons in Hc as [Hc|Hc]; [done|]). by apply elem_of_nil in Hc.
Qed.

Lemma closing_tail_absent s : 125%N ∉ s -> match_here false closing_tail s = None.
Proof.
  intros Hs. destruct (match_here false closing_tail s) as [n|] eqn:E; [|done].
  apply closing_tail_Some in E as (run & r & _ & _ & -> & _).
  destruct Hs. rewrite elem_of_app. right. constructor.
Qed.

Lemma braces_discreet : discreet braces.
Proof.
  split.
  - intros s. by rewrite braces_cons.
  - intros x m i rest Hx Hm Hhead Hnone.
    destruct x as [|x1 x]; [done|]. rewrite <- !app_comm_cons in *. rewrite braces_cons in *.
    destruct (123 =? x1)%N; [|done].
    destruct (match_here false closing_tail (x ++ m ++ rest)) eqn:E; [done|].
    apply closing_tail_None in E as [E|[[s' E]|E]].
    + apply app_eq_nil in E as [_ E]. by apply app_eq_nil in E as [-> _].
    + destruct x as [|x2 x].
      * destruct m as [|c m]; [done|]. simpl in E. injection E as -> _. by destruct Hhead.
      * simpl in E. injection E as -> _. rewrite <- app_comm_cons.
        by rewrite closing_tail_cons, N.eqb_refl.
    + rewrite closing_tail_absent; [done|].
      intros Hin. apply E.
      apply elem_of_app in Hin as [?|Hin]; [apply elem_of_app; by left|].
      apply elem_of_app in Hin as [Ht|?]; [by apply token_no_closing in Ht|].
      apply elem_of_app. right. apply elem_of_app. by right.
Qed.

Lemma PROTECTED_PATTERNS_discreet : Forall discreet PROTECTED_PATTERNS.
Proof.
  unfold PROTECTED_PATTERNS. repeat apply Forall_cons_2; [..|apply Forall_nil_2].
  - by apply two_atoms_discreet.
  - by apply two_atoms_discreet.
  - apply braces_discreet.
  - by apply two_atoms_discreet.
Qed.

(** *** All classes in turn *)

Lemma protect_pattern_placed re st :
  protective re ->
  placed re (placeholderIndex st) (matchAll re (protectedText st)) (protectedText st)
         (protectedText (protect_pattern st re)).
Proof.
  intros Hre.
  destruct (scan_placed re (prot_nonempty re Hre) (protectedText st) (placeholderIndex st))
    as [s1 Hs1].
  assert (protectedText (protect_pattern st re) = s1) as ->; [|done].
  unfold protect_pattern, matchAll.
  rewrite (protect_matches_placed re Hre _ _ _ _ Hs1 st []); try done.
  apply no_match_within_nil.
Qed.

Lemma protect_patterns_unmatched res : forall seen st,
  Forall protective (seen ++ res) -> Forall discreet (seen ++ res) ->
  Forall (fun re => no_match_within re (protectedText st) []) seen ->
  Forall (fun re => no_match_within re (protectedText (fold_left protect_pattern res st)) [])
         (seen ++ res).
Proof.
  induction res as [|re res IH]; intros seen st Hp Hd Hseen; [by rewrite app_nil_r|].
  simpl fold_left. rewrite cons_middle, app_assoc in *.
  assert (protective re /\ discreet re) as [Hpre Hdre].
  { rewrite !Forall_app in Hp, Hd. destruct Hp as [[_ Hp] _], Hd as [[_ Hd] _].
    apply Forall_inv in Hp. apply Forall_inv in Hd. by split. }
  pose proof (protect_pattern_placed re st Hpre) as Hplaced.
  apply IH; [done..|]. apply Forall_app. split.
  - rewrite Forall_forall in Hseen |- *. intros re' Hre'.
    assert (protective re' /\ discreet re') as [Hp' Hd'].
    { rewrite !Forall_app, !Forall_forall in Hp, Hd.
      destruct Hp as [[Hp _] _], Hd as [[Hd _] _]. split; auto. }
    apply (placed_keeps_unmatched re re' _ _ _ _ Hpre Hdre Hp' Hd' Hplaced []).
    by apply Hseen.
  - apply Forall_singleton.
    apply (placed_unmatched re Hpre _ _ _ _ Hplaced []). apply no_match_within_nil.
Qed.

Lemma protected_text_unmatched_each (t : jsstring) (re : regex) :
  re ∈ PROTECTED_PATTERNS -> matchAll re (fst (protectPlaceholders t)) = [].
Proof.
  intros Hre.
  assert (protective re) as Hp.
  { pose proof PROTECTED_PATTERNS_protective as H. rewrite Forall_forall in H. auto. }
  apply unmatched_matchAll; [by apply matches_at_nil|].
  unfold protectPlaceholders. destruct t as [|c t]; cbn [truthy negb]; cbv iota.
  - simpl. intros g1 g2 Hg. symmetry in Hg. by apply app_eq_nil in Hg as [_ ->].
  - cbn [fst].
    pose proof (protect_patterns_unmatched PROTECTED_PATTERNS [] (Protecting (c :: t) [] 0)
                  PROTECTED_PATTERNS_protective PROTECTED_PATTERNS_discreet (Forall_nil_2 _))
      as Hall.
    rewrite Forall_forall in Hall. by apply Hall.
Qed.

(** After [protectPlaceholders], no protected pattern matches anywhere in the
    text: every colour code, printf variable, named placeholder and doubled
    percent sign is behind a token, and the substitutions have not brought
    about a new match. *)
Theorem protected_text_unmatched (t : jsstring) :
  Forall (fun re => matchAll re (fst (protectPlaceholders t)) = []) PROTECTED_PATTERNS.
Proof. apply Forall_forall. intros re Hre. by apply protected_text_unmatched_each. Qed.

(** Protecting the protected text again finds nothing. *)
Corollary protectPlaceholders_again (t : jsstring) :
  let masked := fst (protectPlaceholders t) in
  protectPlaceholders masked = (masked, []).
Proof.
  cbn zeta. set (masked := fst (protectPlaceholders t)).
  pose proof (protected_text_unmatched_each t) as Hnone. fold masked in Hnone.
  unfold protectPlaceholders at 1. destruct masked as [|c m] eqn:E; [done|].
  cbn [truthy negb]. cbv iota.
  assert (forall res st, Forall (fun re => matchAll re (protectedText st) = []) res ->
            fold_left protect_pattern res st = st) as Hfold.
  { induction res as [|re res IH]; intros st Hres; [done|].
    apply Forall_cons in Hres as [Hre Hres]. simpl.
    assert (protect_pattern st re = st) as -> by (unfold protect_pattern; by rewrite Hre).
    by apply IH. }
  rewrite Hfold; [done|]. apply Forall_forall. intros re Hre. by apply Hnone.
Qed.

End Hidden.

(** ** utils.js: restoring what was protected *)

Module RoundTrip.
Import JS Utils Spec Notions JSFacts UtilsFacts ProtectFacts.

Local Open Scope nat_scope.
Local Arguments token : simpl never.

(** *** Where a token can occur *)

Lemma token_brackets j :
  token j = 91%N :: 91%N :: [80; 82; 79; 84; 69; 67; 84; 69; 68; 95]%N ++ decimal j ++ [93; 93]%N.
Proof. reflexivity. Qed.

Lemma token_tail_no_bracket j :
  91%N ∉ [80; 82; 79; 84; 69; 67; 84; 69; 68; 95]%N ++ decimal j ++ [93; 93]%N.
Proof.
  rewrite !elem_of_app. intros [Hin|[Hin|Hin]].
  - repeat (apply elem_of_cons in Hin as [Hin|Hin]; [done|]). by apply elem_of_nil in Hin.
  - pose proof (decimal_digits j) as Hd. rewrite Forall_forall in Hd.
    specialize (Hd _ Hin). lia.
  - repeat (apply elem_of_cons in Hin as [Hin|Hin]; [done|]). by apply elem_of_nil in Hin.
Qed.

(** An opening bracket stands in a token at its first two places only. *)
Lemma token_split_bracket j x y :
  token j = x ++ 91%N :: y -> x = [] \/ (x = [91%N] /\ exists y', y = 80%N :: y').
Proof.
  rewrite token_brackets. destruct x as [|x1 [|x2 x]]; [by left|..].
  - intros [= <- <-]. right. split; [done|]. by eexists.
  - intros [= <- <- Htail]. exfalso. apply (token_tail_no_bracket j). simpl.
    rewrite Htail. apply elem_of_app. right. constructor.
Qed.

Lemma digits_then_bracket x : forall y r r',
  Forall (fun c => 48 <= c <= 57)%N x -> Forall (fun c => 48 <= c <= 57)%N y ->
  x ++ 93%N :: r = y ++ 93%N :: r' -> x = y /\ r = r'.
Proof.
  induction x as [|c x IH]; intros [|d y] r r' Hx Hy; simpl.
  - by intros [= ->].
  - intros [= <- _]. apply Forall_cons in Hy as [Hd _]. lia.
  - intros [= -> _]. apply Forall_cons in Hx as [Hc _]. lia.
  - intros [= -> Hrest]. apply Forall_cons in Hx as [_ Hx]. apply Forall_cons in Hy as [_ Hy].
    destruct (IH y r r' Hx Hy Hrest) as [-> ->]. done.
Qed.

Lemma token_prefix_eq j k a v : token k ++ a = token j ++ v -> j = k /\ a = v.
Proof.
  rewrite !token_brackets. intros [= H]. rewrite <- !app_assoc in H.
  change ([93; 93]%N ++ a) with (93%N :: 93%N :: a) in H.
  change ([93; 93]%N ++ v) with (93%N :: 93%N :: v) in H.
  apply digits_then_bracket in H as [Hd [= ->]]; try apply decimal_digits.
  split; [|done]. symmetry. by apply decimal_inj.
Qed.

(** A token that occurs in a text into which a token was put occurs before
    it, or after it, or is it. *)
Lemma token_occurrence b a u v j k :
  b ++ token k ++ a = u ++ token j ++ v ->
  (exists w, b = u ++ token j ++ w) \/ (exists w, a = w ++ token j ++ v) \/
  (j = k /\ u = b /\ v = a).
Proof.
  intros H. apply app_eq_inv in H as [(x & -> & H)|(x & -> & H)].
  - (* the occurrence starts within [b] *)
    symmetry in H. apply app_eq_inv in H as [(y & -> & _)|(y & Hj & H)].
    + left. by exists y.
    + destruct x as [|x1 x].
      * simpl in Hj. subst y. apply token_prefix_eq in H as [-> ->].
        right. right. by rewrite app_nil_r.
      * destruct y as [|y1 y].
        { left. exists []. by rewrite Hj, !app_nil_r. }
        exfalso. destruct (token_cons k) as [tk Hk]. rewrite Hk in H.
        injection H as <- H.
        apply token_split_bracket in Hj as [?|[[= -> ->] [y' ->]]]; [done|].
        rewrite token_brackets in Hk. injection Hk as <-. by injection H.
  - (* the occurrence starts at or after the place of the token *)
    apply app_eq_inv in H as [(y & Hk & H)|(y & -> & ->)].
    + destruct x as [|x1 x].
      * simpl in Hk. subst y. symmetry in H. apply token_prefix_eq in H as [-> ->].
        right. right. by rewrite app_nil_r.
      * destruct y as [|y1 y].
        { right. left. exists []. rewrite app_nil_l in H |- *. by rewrite H. }
        exfalso. destruct (token_cons j) as [tj Hj]. rewrite Hj in H.
        injection H as <- H.
        apply token_split_bracket in Hk as [?|[[= -> ->] [y' ->]]]; [done|].
        rewrite token_brackets in Hj. injection Hj as <-. by injection H.
    + right. left. by exists y.
Qed.

(** *** Undoing one substitution, and all of them *)

Lemma put_token_fresh k b m a :
  fresh_from k (b ++ m ++ a) -> fresh_from (S k) (b ++ token k ++ a).
Proof.
  intros Hfresh j Hj (u & v & H).
  apply token_occurrence in H as [[w ->]|[[w ->]|[-> _]]]; [| |lia].
  - apply (Hfresh j); [lia|]. exists u, (w ++ m ++ a). by rewrite <- !app_assoc.
  - apply (Hfresh j); [lia|]. exists (b ++ m ++ w), v. by rewrite <- !app_assoc.
Qed.

Lemma restore_token k b m a :
  fresh_from k (b ++ m ++ a) -> Forall (fun c => c <> 36%N) m ->
  replace (b ++ token k ++ a) (token k) m = b ++ m ++ a.
Proof.
  intros Hfresh Hplain. rewrite replace_plain by done.
  destruct (split_first_complete (token k) b (b ++ token k ++ a) a eq_refl) as [[u v] Hsplit].
  rewrite Hsplit. apply split_first_sound in Hsplit.
  apply token_occurrence in Hsplit as [[w ->]|[[w ->]|(_ & -> & ->)]]; [| |done].
  - destruct (Hfresh k); [lia|]. exists u, (w ++ m ++ a). by rewrite <- !app_assoc.
  - destruct (Hfresh k); [lia|]. exists (b ++ m ++ w), v. by rewrite <- !app_assoc.
Qed.

Lemma restore_substituted es : forall k T T',
  (forall n e, es !! n = Some e -> placeholder e = token (k + n)) ->
  fresh_from k T -> Forall (fun c => c <> 36%N) T ->
  substituted T es T' ->
  fold_left (fun restoredText e => replace restoredText (placeholder e) (original e))
            (rev es) T' = T.
Proof.
  induction es as [|e es IH]; intros k T T' Hnum Hfresh Hplain; simpl.
  - by intros ->.
  - intros (b & a & [-> _] & Hsub).
    assert (placeholder e = token k) as He
      by (rewrite (Hnum 0 e eq_refl); f_equal; lia).
    rewrite He in Hsub.
    rewrite !Forall_app in Hplain. destruct Hplain as (Hb & Hm & Ha).
    rewrite fold_left_app. simpl.
    rewrite (IH (S k) (b ++ token k ++ a) T').
    + rewrite He. by apply restore_token.
    + intros n e' Hn. rewrite (Hnum (S n) e' Hn). f_equal. lia.
    + by eapply put_token_fresh.
    + rewrite !Forall_app. split_and!; [done|apply token_plain|done].
    + done.
Qed.

Lemma restore_empty es :
  (forall e, e ∈ es -> exists n, placeholder e = token n) ->
  fold_left (fun restoredText e => replace restoredText (placeholder e) (original e)) es [] = [].
Proof.
  induction es as [|e es IH]; intros Hes; simpl; [done|].
  destruct (Hes e) as [n ->]; [by left|].
  destruct (token_cons n) as [tn ->]. unfold replace. simpl.
  apply IH. intros e' He'. apply Hes. by right.
Qed.

Lemma restore_protect (t : jsstring) :
  36%N ∉ t -> 91%N ∉ t ->
  restorePlaceholders (fst (protectPlaceholders t)) (snd (protectPlaceholders t)) = t.
Proof.
  intros Hdollar Hbracket. unfold protectPlaceholders.
  destruct t as [|c t]; cbn [truthy negb]; cbv iota; [done|].
  set (st0 := Protecting (c :: t) [] 0).
  assert (numbered st0) as Hst0 by (split; [done|intros n e Hn; done]).
  pose proof (protect_patterns_numbered PROTECTED_PATTERNS st0 Hst0) as [_ Hnum].
  destruct (protect_patterns_substituted PROTECTED_PATTERNS st0) as (new & Hmap & _ & Hsub).
  cbn [fst snd].
  change (placeholderMap st0) with (@nil entry) in Hmap. rewrite app_nil_l in Hmap.
  change (protectedText st0) with (c :: t) in Hsub.
  rewrite Hmap in Hnum |- *.
  set (masked := protectedText (fold_left protect_pattern PROTECTED_PATTERNS st0)) in *.
  assert (fold_left (fun restoredText e => replace restoredText (placeholder e) (original e))
                    (rev new) masked = c :: t) as Hfold.
  { apply (restore_substituted new 0); [|..|done].
    - intros n e Hn. by destruct (Hnum n e Hn) as [_ ->].
    - intros j _ (u & v & Hocc). apply Hbracket. rewrite Hocc.
      destruct (token_cons j) as [tj ->]. apply elem_of_app. right. constructor.
    - apply Forall_forall. by intros x Hx ->. }
  unfold restorePlaceholders. clearbody masked.
  destruct new as [|e new].
  { cbn [substituted] in Hsub. by subst masked. }
  destruct masked as [|m0 masked]; [|done].
  rewrite restore_empty in Hfold; [done|].
  intros e' He'%list_elem_of_In%in_rev%list_elem_of_In.
  apply list_elem_of_lookup in He' as [n Hn].
  exists n. by destruct (Hnum n e' Hn) as [_ ->].
Qed.

(** The round trip.  For every text without a dollar sign and without an
    opening square bracket, restoring the protected text with the map that
    [protectPlaceholders] returned gives the text back. *)
Theorem restore_protect_round_trip (t : jsstring) :
  36%N ∉ t -> 91%N ∉ t ->
  restorePlaceholders (fst (protectPlaceholders t)) (snd (protectPlaceholders t)) = t.
Proof. apply restore_protect. Qed.

Lemma restore_protect_round_trip_witness :
  restorePlaceholders (fst (protectPlaceholders (js "&aHello {player}, 100%%")))
                      (snd (protectPlaceholders (js "&aHello {player}, 100%%")))
  = js "&aHello {player}, 100%%".
Proof.
  apply (restore_protect_round_trip (js "&aHello {player}, 100%%"));
    apply (bool_decide_unpack _); vm_compute; reflexivity.
Defined.

End RoundTrip.

(** ** utils.js: texts without codes, translations without tokens, the
    configuration *)

Module UtilsEdges.
Import JS Utils Config Spec Notions JSFacts UtilsFacts ProtectFacts InPlace Hidden.

Local Open Scope nat_scope.
Local Arguments token : simpl never.

(** Every pattern starts with an ampersand, a percent sign or an opening
    brace. *)
Lemma no_match_plain re c s :
  re ∈ PROTECTED_PATTERNS -> c <> 38%N -> c <> 37%N -> c <> 123%N ->
  matches_at re (c :: s) = None.
Proof.
  intros Hre H38 H37 H123. unfold PROTECTED_PATTERNS in Hre.
  repeat (apply elem_of_cons in Hre as [->|Hre]); [..|by apply elem_of_nil in Hre].
  - rewrite two_atoms. destruct s; [done|].
    assert (atom_matches true (Lit (ch "&")) c = false) as ->; [|done].
    cbn [atom_matches]. change (canonicalize true (ch "&")) with 38%N.
    unfold canonicalize. cbn [andb].
    destruct ((97 <=? c)%N && (c <=? 122)%N) eqn:E; apply N.eqb_neq; [|congruence].
    apply andb_true_iff in E as [E1%N.leb_le E2%N.leb_le]. lia.
  - rewrite two_atoms. destruct s; [done|].
    assert (atom_matches false (Lit (ch "%")) c = false) as ->; [|done].
    cbn [atom_matches]. rewrite !canonicalize_exact. apply N.eqb_neq. by change (ch "%") with 37%N.
  - change (matches_at braces (c :: s) = None). rewrite braces_cons.
    assert ((123 =? c)%N = false) as ->; [|done]. apply N.eqb_neq. congruence.
  - rewrite two_atoms. destruct s; [done|].
    assert (atom_matches false (Lit (ch "%")) c = false) as ->; [|done].
    cbn [atom_matches]. rewrite !canonicalize_exact. apply N.eqb_neq. by change (ch "%") with 37%N.
Qed.

Lemma matchAll_plain re t :
  re ∈ PROTECTED_PATTERNS -> 38%N ∉ t -> 37%N ∉ t -> 123%N ∉ t -> matchAll re t = [].
Proof.
  intros Hre H38 H37 H123.
  assert (protective re) as Hp.
  { pose proof PROTECTED_PATTERNS_protective as H. rewrite Forall_forall in H. auto. }
  apply unmatched_matchAll; [by apply matches_at_nil|].
  intros g1 [|c g2] -> Hg2; [done|]. simpl.
  apply no_match_plain; [done|..]; intros ->.
  - apply H38. apply elem_of_app. right. constructor.
  - apply H37. apply elem_of_app. right. constructor.
  - apply H123. apply elem_of_app. right. constructor.
Qed.

(** A text without an ampersand, a percent sign and an opening brace holds
    nothing to protect: [protectPlaceholders] returns it as it is, with an
    empty map. *)
Theorem protect_plain_text (t : jsstring) :
  38%N ∉ t -> 37%N ∉ t -> 123%N ∉ t -> protectPlaceholders t = (t, []).
Proof.
  intros H38 H37 H123. unfold protectPlaceholders.
  destruct t as [|c t]; [done|]. cbn [truthy negb]. cbv iota.
  assert (forall res st, Forall (fun re => matchAll re (protectedText st) = []) res ->
            fold_left protect_pattern res st = st) as Hfold.
  { induction res as [|re res IH]; intros st Hres; [done|].
    apply Forall_cons in Hres as [Hre Hres]. simpl.
    assert (protect_pattern st re = st) as -> by (unfold protect_pattern; by rewrite Hre).
    by apply IH. }
  rewrite Hfold; [done|]. apply Forall_forall. intros re Hre. by apply matchAll_plain.
Qed.

Lemma protect_plain_text_witness :
  protectPlaceholders (js "Hello, world [1]") = (js "Hello, world [1]", []).
Proof.
  apply (protect_plain_text (js "Hello, world [1]"));
    apply (bool_decide_unpack _); vm_compute; reflexivity.
Defined.

(** A text without an opening square bracket holds no token: restoring
    leaves it as it is, whatever the map of a protected text.  So the codes
    whose tokens a translation has lost are not put back. *)
Theorem restore_without_tokens (t s : jsstring) :
  91%N ∉ s -> restorePlaceholders s (snd (protectPlaceholders t)) = s.
Proof.
  intros Hs. unfold restorePlaceholders. destruct (_ || _); [done|].
  assert (forall e, e ∈ rev (snd (protectPlaceholders t)) -> exists n, placeholder e = token n)
    as Htokens.
  { intros e He%list_elem_of_In%in_rev%list_elem_of_In.
    apply list_elem_of_lookup in He as [n Hn]. exists n.
    unfold protectPlaceholders in Hn. destruct t as [|c t]; [done|].
    cbn [truthy negb snd] in Hn. cbv iota in Hn. cbn [snd] in Hn.
    assert (numbered (Protecting (c :: t) [] 0)) as Hst0 by (split; [done|intros ? ? ?; done]).
    by destruct (protect_patterns_numbered PROTECTED_PATTERNS _ Hst0) as [_ Hnum],
      (Hnum n e Hn) as [_ ->]. }
  induction (rev (snd (protectPlaceholders t))) as [|e es IH]; [done|].
  simpl. destruct (Htokens e) as [n ->]; [by left|].
  assert (replace s (token n) (original e) = s) as ->.
  { unfold replace. destruct (split_first (token n) s) as [[b a]|] eqn:E; [|done].
    apply split_first_sound in E. destruct Hs. rewrite E.
    destruct (token_cons n) as [tn ->]. apply elem_of_app. right. constructor. }
  apply IH. intros e' He'. apply Htokens. by right.
Qed.

Lemma restore_without_tokens_witness :
  restorePlaceholders (js "Hallo Spieler") (snd (protectPlaceholders (js "&aHello {player}")))
  = js "Hallo Spieler".
Proof.
  apply (restore_without_tokens (js "&aHello {player}") (js "Hallo Spieler")).
  apply (bool_decide_unpack _). vm_compute. reflexivity.
Defined.

(** [validateConfig]: the configuration is valid exactly when each of the
    five variables is set to a string that is not empty, and exactly when no
    error is reported; the errors name the variables that fail this. *)
Theorem validateConfig_valid (env : environment) :
  let r := validateConfig env in
  (fst r = true <->
   unset (DEEPL_API_KEY env) = false /\ unset (SOURCE_LANG env) = false /\
   unset (TARGET_LANG env) = false /\ unset (INPUT_DIR env) = false /\
   unset (OUTPUT_DIR env) = false) /\
  (fst r = true <-> snd r = []) /\
  (js "DEEPL_API_KEY is required" ∈ snd r <-> unset (DEEPL_API_KEY env) = true) /\
  (js "SOURCE_LANG is required" ∈ snd r <-> unset (SOURCE_LANG env) = true) /\
  (js "TARGET_LANG is required" ∈ snd r <-> unset (TARGET_LANG env) = true) /\
  (js "INPUT_DIR is required" ∈ snd r <-> unset (INPUT_DIR env) = true) /\
  (js "OUTPUT_DIR is required" ∈ snd r <-> unset (OUTPUT_DIR env) = true).
Proof.
  cbn zeta. unfold validateConfig. cbn zeta.
  destruct (unset (DEEPL_API_KEY env)), (unset (SOURCE_LANG env)), (unset (TARGET_LANG env)),
    (unset (INPUT_DIR env)), (unset (OUTPUT_DIR env));
    cbn [fst snd app length Nat.eqb];
    split_and!; split; try done; try (intros; by split_and!); try (by intros (? & ? & ? & ? & ?));
    try (intros _; apply (bool_decide_unpack _); vm_compute; reflexivity);
    (intros Hin; exfalso; revert Hin; apply (bool_decide_unpack _); vm_compute; reflexivity).
Qed.

(** An empty value counts as missing. *)
Example validateConfig_empty_key :
  validateConfig (Environment (Some []) (Some (js "EN")) (Some (js "DE"))
                              (Some (js "in")) (Some (js "out")))
  = (false, [js "DEEPL_API_KEY is required"]).
Proof. reflexivity. Qed.

End UtilsEdges.

(** ** translator.js: what a call costs, what the remote is asked *)

Module ClientMore.
Import JS Utils Translator Spec Notions JSFacts UtilsFacts TranslatorFacts RoundTrip.

Local Open Scope nat_scope.

Section Budget.
Context `{Remote} (cfg : config).

Lemma translateWithRetry_budget txt w :
  let r := translateWithRetry cfg txt 1 w in
  exists n, n <= 3 /\
    calls (snd r) = calls w + n + 1 /\
    slept (snd r) = slept w ++ take n [1000; 2000; 4000]%Z /\
    disk (snd r) = disk w /\ progress (snd r) = progress w.
Proof.
  cbn zeta. destruct (translateWithRetry_trace cfg txt 1 w) as (n & Hall & _ & ->).
  assert (n <= 3) as Hn.
  { destruct (Nat.le_gt_cases n 3) as [?|Hgt]; [done|].
    destruct (Hall 3 Hgt) as [_ Hle]. unfold MAX_RETRIES in Hle. lia. }
  exists n. split_and!; [done|done| |done|done]. simpl. f_equal.
  destruct n as [|[|[|[|n]]]]; [reflexivity..|lia].
Qed.

Lemma translateText_cost (txt : jsstring) (w : World) :
  let r := translateText cfg txt w in
  calls w <= calls (snd r) <= calls w + 4 /\
  (exists n, n <= 3 /\ slept (snd r) = slept w ++ take n [1000; 2000; 4000]%Z) /\
  disk (snd r) = disk w /\ progress (snd r) = progress w /\
  (blank txt = true -> r = (Normal txt, w)).
Proof.
  cbn zeta. unfold translateText. rewrite shouldTranslate_not_blank.
  destruct (blank txt) eqn:Hb; simpl.
  { split_and!; try lia; try done. exists 0. split; [lia|]. simpl. by rewrite app_nil_r. }
  destruct (protectPlaceholders txt) as [protectedText map].
  destruct (shouldTranslate protectedText); simpl.
  - destruct (translateWithRetry_budget protectedText w) as (n & Hn & Hc & Hs & Hd & Hp).
    destruct (translateWithRetry cfg protectedText 1 w) as [[s|e] w']; simpl in *;
      (split_and!; try lia; try done); by exists n.
  - split_and!; try lia; try done. exists 0. split; [lia|]. simpl. by rewrite app_nil_r.
Qed.

(** One [translateText] call sends at most four requests and awaits, between
    them, the first delays of 1 s, 2 s, 4 s and nothing else; it leaves the
    files and the progress sink alone.  For a blank text it returns the text
    and sends nothing. *)
Theorem translateText_budget (txt : jsstring) (w : World) :
  let r := translateText cfg txt w in
  calls w <= calls (snd r) <= calls w + 4 /\
  (exists n, n <= 3 /\ slept (snd r) = slept w ++ take n [1000; 2000; 4000]%Z) /\
  disk (snd r) = disk w /\ progress (snd r) = progress w /\
  (blank txt = true -> r = (Normal txt, w)).
Proof. apply translateText_cost. Qed.

Lemma translateBatch_from_budget total rest : forall i results w,
  calls (snd (translateBatch_from cfg None total i rest results w))
  <= calls w + 4 * length rest.
Proof.
  induction rest as [|txt rest IH]; intros i results w; simpl; [lia|].
  pose proof (translateText_cost txt w) as ([_ Hc] & _).
  destruct (translateText cfg txt w) as [[t|e] w1]; simpl in Hc.
  - etrans; [apply IH|]. destruct (i <? total - 1); simpl; lia.
  - etrans; [apply IH|]. lia.
Qed.

(** A batch without progress callback sends at most four requests per
    text. *)
Theorem translateBatch_budget (texts : list jsstring) (w : World) :
  calls (snd (translateBatch cfg texts None w)) <= calls w + 4 * length texts.
Proof. apply translateBatch_from_budget. Qed.

(** A translation that leaves the protected text as it is gives the text
    back: for a text without a dollar sign and without an opening square
    bracket, if the translation that the remote returns for the first request
    is the protected text itself, [translateText] returns the text, with its
    codes.  (The request holds the protected text as [URLSearchParams]
    converts it, see [fetch]; the hypothesis is on the translation
    returned.) *)
Theorem translateText_echo (txt : jsstring) (w : World) :
  36%N ∉ txt -> 91%N ∉ txt ->
  translation_of (respond (calls w) (request_for cfg (fst (protectPlaceholders txt))))
  = Some (fst (protectPlaceholders txt)) ->
  fst (translateText cfg txt w) = Normal txt.
Proof.
  intros Hdollar Hbracket Hecho. unfold translateText.
  destruct (shouldTranslate txt); simpl; [|done].
  pose proof (restore_protect txt Hdollar Hbracket) as Hround.
  destruct (protectPlaceholders txt) as [protectedText map]. simpl in *.
  destruct (shouldTranslate protectedText); simpl; [|done].
  rewrite translateWithRetry_step. cbn zeta. unfold retry_after.
  rewrite (translation_returned 1 _ _ Hecho). simpl. by rewrite Hround.
Qed.

(** [shouldTranslate] is true exactly for the texts that are not blank: the
    test on the protected text never fires, since a token is not white
    space. *)
Theorem shouldTranslate_exactly_not_blank (t : jsstring) :
  shouldTranslate t = negb (blank t).
Proof. apply shouldTranslate_not_blank. Qed.

(** A call of [translateText] reads the world through the request counter
    only, and changes only the counter and the delays awaited. *)
Theorem translateText_touches (txt : jsstring) (w : World) :
  translateText cfg txt w =
    let r := translateText cfg txt (bare (calls w)) in
    (fst r, MkWorld (calls (snd r)) (slept w ++ slept (snd r)) (disk w) (progress w)).
Proof. apply translateText_frame. Qed.

(** The whole run of one [translateWithRetry] call: it sends [n + 1]
    requests; the first [n] met a retryable failure at an attempt not beyond
    the third, each followed by the backoff delay of its attempt; the last
    one settles the call. *)
Theorem translateWithRetry_requests (txt : jsstring) (attempt : nat) (w : World) :
  exists n,
    (forall j, (j < n)%nat ->
       retryable (respond (calls w + j)%nat (request_for cfg txt)) = true /\
       (attempt + j <= MAX_RETRIES)%nat) /\
    retry_after (attempt + n) (respond (calls w + n)%nat (request_for cfg txt)) = None /\
    translateWithRetry cfg txt attempt w =
      (settle (try_block (attempt + n) (respond (calls w + n)%nat (request_for cfg txt))),
       MkWorld (calls w + n + 1) (slept w ++ (retryDelay <$> seq attempt n))
               (disk w) (progress w)).
Proof. apply translateWithRetry_trace. Qed.

End Budget.

Lemma translateText_echo_witness :
  fst (@translateText echo cfg0 (js "&aHello {player}") (bare 0))
  = Normal (js "&aHello {player}").
Proof.
  apply (@translateText_echo echo cfg0 (js "&aHello {player}") (bare 0));
    [apply (bool_decide_unpack _); vm_compute; reflexivity..|reflexivity].
Defined.

(** *** The remote is asked about the protected text only *)

Section Asked.
Context (R1 R2 : Remote) (cfg : config).

Lemma translateWithRetry_agree txt :
  (forall n, @respond R1 n (request_for cfg txt) = @respond R2 n (request_for cfg txt)) ->
  forall attempt w,
    @translateWithRetry R1 cfg txt attempt w = @translateWithRetry R2 cfg txt attempt w.
Proof.
  intros Hsame attempt. remember (S MAX_RETRIES - attempt) as fuel eqn:Hfuel.
  revert attempt Hfuel. induction (lt_wf fuel) as [fuel _ IH]. intros attempt -> w.
  rewrite (@translateWithRetry_step R1), (@translateWithRetry_step R2). cbn zeta.
  rewrite Hsame.
  destruct (retry_after attempt _) as [ms|] eqn:E; [|done].
  pose proof (retry_after_bound _ _ _ E) as Hle.
  apply (IH (S MAX_RETRIES - (attempt + 1))); [lia|done].
Qed.

(** Two remotes that answer alike the request made for the protected text
    (the request that [fetch] builds from it: the form holds the protected
    text as [URLSearchParams] converts it, a lone surrogate replaced by
    U+FFFD) make [translateText] behave alike: no other request is sent, and
    in the text the request is built from every protected code is behind a
    token. *)
Theorem translateText_asks_protected (txt : jsstring) (w : World) :
  (forall n, @respond R1 n (request_for cfg (fst (protectPlaceholders txt)))
             = @respond R2 n (request_for cfg (fst (protectPlaceholders txt)))) ->
  @translateText R1 cfg txt w = @translateText R2 cfg txt w.
Proof.
  intros Hsame. unfold translateText.
  destruct (shouldTranslate txt); simpl; [|done].
  destruct (protectPlaceholders txt) as [protectedText map]. simpl in Hsame.
  destruct (shouldTranslate protectedText); simpl; [|done].
  by rewrite (translateWithRetry_agree protectedText Hsame).
Qed.

End Asked.

Lemma translateText_asks_protected_witness :
  @translateText flaky cfg0 (js "&aHello") (bare 0)
  = @translateText (only_about (js "[[PROTECTED_0]]Hello")) cfg0 (js "&aHello") (bare 0).
Proof.
  apply (translateText_asks_protected flaky (only_about (js "[[PROTECTED_0]]Hello")) cfg0
           (js "&aHello") (bare 0)).
  intros n. reflexivity.
Defined.

End ClientMore.

(** ** Line-based files: lines, and the loop of the drivers *)

Module LinesFacts.
Import JS Utils Translator Document Lines Spec Notions JSFacts UtilsFacts TranslatorFacts.

Local Open Scope nat_scope.

Lemma split_from_cons s : forall cur, exists line lines, split_from cur s = line :: lines.
Proof.
  induction s as [|c s IH]; intros cur; simpl; [by eexists _, _|].
  destruct (c =? 10)%N; [by eexists _, _|].
  destruct s as [|d s]; [by eexists _, _|].
  destruct ((c =? 13)%N && (d =? 10)%N); [by eexists _, _|]. apply IH.
Qed.

Lemma join_cons sep line l : l <> [] -> join sep (line :: l) = line ++ sep ++ join sep l.
Proof. by destruct l. Qed.

Lemma crlf_to_lf_cons c s :
  crlf_to_lf (c :: s) =
  match s with
  | d :: _ => if ((c =? 13) && (d =? 10))%N then crlf_to_lf s else c :: crlf_to_lf s
  | [] => [c]
  end.
Proof. done. Qed.

Lemma join_split_from s : forall cur, join [10%N] (split_from cur s) = cur ++ crlf_to_lf s.
Proof.
  remember (length s) as n eqn:Hn. revert s Hn.
  induction (lt_wf n) as [n _ IH]. intros s -> cur.
  destruct s as [|c s]; [by rewrite app_nil_r|].
  cbn [split_from]. rewrite crlf_to_lf_cons.
  destruct (c =? 10)%N eqn:Ec.
  - apply N.eqb_eq in Ec as ->.
    destruct (split_from_cons s []) as (l & ls & Hl).
    rewrite join_cons by (by rewrite Hl).
    rewrite (IH (length s)) by (simpl; lia || done).
    destruct s as [|d s]; [done|]. done.
  - destruct s as [|d s]; [done|].
    destruct ((c =? 13)%N && (d =? 10)%N) eqn:E.
    + apply andb_true_iff in E as [_ ->%N.eqb_eq].
      destruct (split_from_cons s []) as (l & ls & Hl).
      rewrite join_cons by (by rewrite Hl).
      rewrite (IH (length s)) by (simpl; lia || done).
      rewrite crlf_to_lf_cons. by destruct s.
    + rewrite (IH (length (d :: s))) by (simpl; lia || done).
      by rewrite <- app_assoc.
Qed.

(** Cutting a text into lines and joining the lines again with line feeds
    gives the text with the carriage returns before line feeds left out and
    nothing else changed; so a text without such a pair comes back as it
    is. *)
Theorem join_split_lines (s : jsstring) :
  join [10%N] (split_lines s) = crlf_to_lf s /\
  ((forall u v, s <> u ++ 13%N :: 10%N :: v) -> crlf_to_lf s = s).
Proof.
  split; [apply (join_split_from s [])|].
  induction s as [|c s IH]; intros Hno; [done|].
  rewrite crlf_to_lf_cons. destruct s as [|d s]; [done|].
  destruct ((c =? 13)%N && (d =? 10)%N) eqn:E.
  - apply andb_true_iff in E as [->%N.eqb_eq ->%N.eqb_eq]. by destruct (Hno [] s).
  - f_equal. apply IH. intros u v Hs. apply (Hno (c :: u) v). by rewrite Hs.
Qed.

(** *** The loop *)

Section LoopFacts.
Context `{Remote} {St It : Type}.
Context (cfg : config) (outputPath : jsstring).
Context (text : It -> jsstring) (upd : St -> It -> jsstring -> St) (render : St -> jsstring).

Lemma outcomes_length n texts : forall k, length (outcomes cfg k texts) = n -> length texts = n.
Proof.
  revert n. induction texts as [|t texts IH]; intros n k; simpl; [done|].
  destruct n; [done|]. intros [= Hn]. f_equal. by eapply IH.
Qed.

Lemma length_outcomes texts : forall k, length (outcomes cfg k texts) = length texts.
Proof. induction texts as [|t texts IH]; intros k; simpl; [done|]. by rewrite IH. Qed.

Lemma stored_none items : forall outs st,
  existsb returned outs = false -> fold_left (stored upd) (zip items outs) st = st.
Proof.
  induction items as [|it items IH]; intros [|c outs] st; simpl; try done.
  destruct c as [t|e]; simpl; [done|]. apply IH.
Qed.

(** The loop stores the translations that returned, in order, and the file
    it leaves is rendered from the last state, if it wrote at all. *)
Lemma rewrite_loop_run total items : forall i st w,
  let outs := outcomes cfg (calls w) (text <$> items) in
  let res := rewrite_loop cfg outputPath text upd render total i items st w in
  fst res = fold_left (stored upd) (zip items outs) st /\
  disk (snd res) = (if existsb returned outs
                    then <[outputPath := render (fst res)]> (disk w) else disk w).
Proof.
  induction items as [|it items IH]; intros i st w; cbn zeta; [done|].
  cbn [rewrite_loop fmap list_fmap outcomes zip zip_with fold_left existsb].
  rewrite (translateText_frame cfg (text it) w). cbn zeta.
  destruct (translateText cfg (text it) (bare (calls w))) as [[t|e] w1]; cbn [fst snd].
  - match goal with
    | |- context [rewrite_loop _ _ _ _ _ _ _ _ ?st1 ?w2] =>
        destruct (IH (S i) st1 w2) as [Hst Hdisk]
    end.
    cbn [calls progressBar_update writeFile disk] in Hst, Hdisk.
    split; [exact Hst|]. rewrite Hdisk. cbn [returned orb].
    destruct (existsb returned _) eqn:E.
    + by rewrite insert_insert_eq.
    + rewrite Hst. by rewrite stored_none.
  - match goal with
    | |- context [rewrite_loop _ _ _ _ _ _ _ _ ?st1 ?w2] =>
        destruct (IH (S i) st1 w2) as [Hst Hdisk]
    end.
    cbn [calls progressBar_update disk] in Hst, Hdisk. by split.
Qed.

End LoopFacts.

End LinesFacts.

(** ** txtHandler.js: what the driver writes *)

Module TxtFacts.
Import JS Utils Translator Document Lines TxtHandler Spec Notions.
Import JSFacts UtilsFacts TranslatorFacts LinesFacts.

Local Open Scope nat_scope.

Section Driver.
Context `{Remote} (cfg : config) (outputPath : jsstring).

Lemma translateLines_loop total items : forall i st w,
  translateLines cfg outputPath total i items st w
  = rewrite_loop cfg outputPath fst txt_update (join [10%N]) total i items st w.
Proof.
  induction items as [|[line index] items IH]; intros i st w; simpl; [done|].
  destruct (translateText cfg line w) as [[t|e] w1]; by rewrite IH.
Qed.

Lemma translatable_texts lines : forall off,
  fst <$> translatable_from off lines = txt_texts lines.
Proof.
  unfold txt_texts. induction lines as [|line lines IH]; intros off; simpl; [done|].
  rewrite trim_length_pos.
  destruct (blank line) eqn:Hb; simpl.
  - rewrite filter_cons_False by (simpl; congruence). apply IH.
  - rewrite filter_cons_True by done. by rewrite IH.
Qed.

Lemma translatable_none lines : forall off,
  (length (translatable_from off lines) =? 0) = forallb blank lines.
Proof.
  induction lines as [|line lines IH]; intros off; simpl; [done|].
  rewrite trim_length_pos. destruct (blank line); simpl; [apply IH|done].
Qed.

(** The assignments of the loop, index by index, give [txt_lines]. *)
Lemma txt_stored rest : forall pre outs,
  length outs = length (translatable_from (length pre) rest) ->
  fold_left (stored txt_update) (zip (translatable_from (length pre) rest) outs) (pre ++ rest)
  = pre ++ txt_lines rest outs.
Proof.
  induction rest as [|line rest IH]; intros pre outs Hlen; simpl in *.
  - by destruct outs.
  - rewrite trim_length_pos in *. destruct (blank line) eqn:Hb; simpl in *.
    + specialize (IH (pre ++ [line]) outs). rewrite length_app, Nat.add_1_r in IH.
      rewrite <- !app_assoc in IH. cbn [app] in IH. by apply IH.
    + destruct outs as [|c outs]; [done|]. simpl in *.
      specialize (IH (pre ++ [kept_or_translated line c]) outs).
      rewrite length_app, Nat.add_1_r in IH. rewrite <- !app_assoc in IH.
      cbn [app] in IH. rewrite <- IH by lia. f_equal.
      destruct c as [t|e]; simpl; [|done].
      unfold txt_update. simpl. rewrite insert_app_r_alt by lia.
      by rewrite Nat.sub_diag.
Qed.

(** [translateTxtFile] returns normally, and what it leaves on disk is this.
    When every line is blank, the output file is the input, unchanged.
    Otherwise the lines that are not blank are translated one after the
    other; when at least one translation returned, the output file holds as
    many lines as the input, joined by line feeds: the blank lines as they
    were, every other line as its translation, or as it was when its
    translation failed; when every translation failed, nothing is written. *)
Theorem translateTxtFile_result (inputPath : jsstring) (w : World) (content : jsstring) :
  disk w !! inputPath = Some content ->
  let lines := split_lines content in
  let outs := outcomes cfg (calls w) (txt_texts lines) in
  let res := translateTxtFile inputPath outputPath cfg w in
  fst res = Normal () /\
  disk (snd res) =
    (if forallb blank lines then <[outputPath := content]> (disk w)
     else if existsb returned outs
          then <[outputPath := join [10%N] (txt_lines lines outs)]> (disk w)
          else disk w).
Proof.
  intros Hin. cbn zeta. unfold translateTxtFile, readFile. rewrite Hin. cbn zeta.
  rewrite translatable_none.
  destruct (forallb blank (split_lines content)); [done|].
  rewrite translateLines_loop.
  pose proof (rewrite_loop_run cfg outputPath fst txt_update (join [10%N])
                (length (translatable_from 0 (split_lines content)))
                (translatable_from 0 (split_lines content)) 0 (split_lines content)
                (progressBar_update 0 (length (translatable_from 0 (split_lines content)))
                                    (ensureDir_dirname outputPath w))) as [Hst Hdisk].
  cbn zeta in Hst, Hdisk. unfold ensureDir_dirname in *.
  cbn [calls disk progressBar_update] in Hst, Hdisk.
  rewrite translatable_texts in Hst, Hdisk.
  destruct (rewrite_loop _ _ _ _ _ _ _ _ _ _) as [st w3]. cbn [fst snd] in *.
  split; [done|]. rewrite Hdisk.
  destruct (existsb returned _); [|done].
  rewrite Hst.
  rewrite (txt_stored (split_lines content) []); [done|].
  by rewrite length_outcomes, <- (translatable_texts _ 0), length_fmap.
Qed.

End Driver.

(** The lines stay in number and place, and the blank ones stay as they
    are. *)
Lemma txt_lines_kept lines : forall outs,
  length (txt_lines lines outs) = length lines /\
  forall i line, lines !! i = Some line -> blank line = true ->
                 txt_lines lines outs !! i = Some line.
Proof.
  induction lines as [|l lines IH]; intros outs; simpl; [done|].
  destruct (blank l) eqn:Hb.
  - destruct (IH outs) as [Hlen Hblank]. split; [simpl; by rewrite Hlen|].
    intros [|i] line; simpl; [done|]. apply Hblank.
  - destruct outs as [|c outs].
    + destruct (IH []) as [Hlen Hblank]. split; [simpl; by rewrite Hlen|].
      intros [|i] line; simpl; [congruence|]. apply Hblank.
    + destruct (IH outs) as [Hlen Hblank]. split; [simpl; by rewrite Hlen|].
      intros [|i] line; simpl; [congruence|]. apply Hblank.
Qed.

Lemma translateTxtFile_result_witness :
  let content := js "Hello" ++ [13; 10; 13; 10]%N ++ js "&aWorld" in
  disk (snd (@translateTxtFile (failing_at 0) (js "in.txt") (js "out.txt") cfg0
               (on_disk (js "in.txt") content))) !! js "out.txt"
  = Some (js "Hello" ++ [10; 10]%N ++ js "DE:&aWorld").
Proof.
  cbn zeta.
  destruct (@translateTxtFile_result (failing_at 0) cfg0 (js "out.txt") (js "in.txt")
              (on_disk (js "in.txt") (js "Hello" ++ [13; 10; 13; 10]%N ++ js "&aWorld"))
              (js "Hello" ++ [13; 10; 13; 10]%N ++ js "&aWorld") eq_refl) as [_ ->].
  vm_compute. reflexivity.
Defined.

End TxtFacts.

(** ** propertiesHandler.js: what a line is read as, what the driver writes *)

Module PropertiesFacts.
Import JS Utils Translator Document Lines PropertiesHandler Spec Notions.
Import JSFacts UtilsFacts TranslatorFacts LinesFacts.

Local Open Scope nat_scope.

(** *** Lines *)

Lemma span_key_app k sep v :
  forallb (fun c => negb (is_separator c)) k = true -> is_separator sep = true ->
  span_key (k ++ sep :: v) = (k, sep :: v).
Proof.
  intros Hk Hsep. induction k as [|c k IH]; simpl in *.
  - by rewrite Hsep.
  - apply andb_true_iff in Hk as [Hc Hk]. apply negb_true_iff in Hc. rewrite Hc.
    by rewrite IH.
Qed.

Lemma span_key_spec line : forall k rest,
  span_key line = (k, rest) ->
  line = k ++ rest /\ forallb (fun c => negb (is_separator c)) k = true /\
  match rest with c :: _ => is_separator c = true | [] => True end.
Proof.
  induction line as [|c line IH]; intros k rest; simpl.
  - by intros [= <- <-].
  - destruct (is_separator c) eqn:Hc.
    + by intros [= <- <-].
    + destruct (span_key line) as [k' rest'] eqn:E. intros [= <- <-].
      destruct (IH k' rest' eq_refl) as (-> & Hk & Hrest). simpl. by rewrite Hc.
Qed.

(** How a line is read.  A line that is blank, or whose first character
    after the leading white space is [#] or [!], is kept as a comment.  Of
    the other lines, one is a property exactly when it reads [k ++ sep :: v]
    where [k] is not empty and holds no separator ([=] or [:]), [sep] is a
    separator (the first of the line, then) and [v] holds no line terminator:
    its key is [k] and its value [v], both trimmed.  Every other line is kept
    as a comment, and an entry always carries its line and the index of the
    line. *)
Theorem parse_line_cases (line : jsstring) (i : nat) :
  let trimmed := trim line in
  (trimmed = [] \/ startsWith (js "#") trimmed = true \/ startsWith (js "!") trimmed = true ->
   parse_line line i = Comment line i) /\
  (forall k sep v,
     trimmed <> [] -> startsWith (js "#") trimmed = false ->
     startsWith (js "!") trimmed = false ->
     line = k ++ sep :: v -> k <> [] ->
     forallb (fun c => negb (is_separator c)) k = true -> is_separator sep = true ->
     forallb (fun c => negb (is_line_terminator c)) v = true ->
     parse_line line i = Property (trim k) (trim v) line i) /\
  (forall key value originalLine index,
     parse_line line i = Property key value originalLine index ->
     originalLine = line /\ index = i /\
     trimmed <> [] /\ startsWith (js "#") trimmed = false /\
     startsWith (js "!") trimmed = false /\
     exists k sep v,
       line = k ++ sep :: v /\ k <> [] /\
       forallb (fun c => negb (is_separator c)) k = true /\ is_separator sep = true /\
       forallb (fun c => negb (is_line_terminator c)) v = true /\
       key = trim k /\ value = trim v) /\
  (forall content index,
     parse_line line i = Comment content index -> content = line /\ index = i).
Proof.
  cbn zeta. unfold parse_line. split_and!.
  - intros [->|[->| ->]]; [done|..].
    + by rewrite orb_true_r.
    + by rewrite orb_true_r.
  - intros k sep v Hne Hhash Hbang -> Hk Hnosep Hsep Hv.
    rewrite Hhash, Hbang, !orb_false_r.
    assert (str_eqb (trim (k ++ sep :: v)) [] = false) as ->
      by (unfold str_eqb; by apply bool_decide_eq_false).
    unfold match_property. rewrite (span_key_app k sep v Hnosep Hsep).
    destruct k as [|c k]; [done|]. by rewrite Hv.
  - intros key value originalLine index.
    destruct (str_eqb (trim line) []) eqn:Hblank; [done|].
    destruct (startsWith (js "#") (trim line)) eqn:Hhash; [done|].
    destruct (startsWith (js "!") (trim line)) eqn:Hbang; [done|].
    cbn [orb].
    unfold match_property. destruct (span_key line) as [k rest] eqn:E.
    apply span_key_spec in E as (-> & Hk & Hrest).
    destruct k as [|c k]; [done|]. destruct rest as [|sep v]; [done|].
    destruct (forallb _ v) eqn:Hv; [|done]. intros [= <- <- <- <-].
    split_and!; [done..| |done|done|].
    + unfold str_eqb in Hblank. by apply bool_decide_eq_false in Hblank.
    + exists (c :: k), sep, v. split_and!; done.
  - intros content index.
    destruct (_ || _); [by intros [= <- <-]|].
    destruct (match_property line) as [[g1 g2]|]; [done|]. by intros [= <- <-].
Qed.

Lemma parse_line_cases_witness :
  parse_line (js "greeting : Hello there ") 3
  = Property (js "greeting") (js "Hello there") (js "greeting : Hello there ") 3.
Proof.
  destruct (parse_line_cases (js "greeting : Hello there ") 3) as (_ & Hprop & _).
  apply (Hprop (js "greeting ") 58%N (js " Hello there ")); reflexivity || done.
Defined.

(** *** The loop *)

Section Driver.
Context `{Remote} (cfg : config) (outputPath : jsstring).

Lemma translatable_positions_items entries : forall pos,
  translatable_positions pos entries = fst <$> prop_items pos entries.
Proof.
  induction entries as [|e entries IH]; intros pos; simpl; [done|].
  destruct e as [c i|k v ol i]; simpl; [apply IH|].
  destruct (0 <? length v); simpl; by rewrite IH.
Qed.

Lemma prop_update_middle pre k v ol idx rest v' t :
  prop_update (pre ++ Property k v ol idx :: rest) (length pre, v') t
  = pre ++ Property k t ol idx :: rest.
Proof.
  unfold prop_update. cbn [fst]. rewrite list_lookup_middle by done.
  by rewrite insert_app_r_alt, Nat.sub_diag by lia.
Qed.

Lemma snoc_middle {A} (pre : list A) x rest : pre ++ x :: rest = (pre ++ [x]) ++ rest.
Proof. by rewrite <- app_assoc. Qed.

Lemma length_snoc {A} (pre : list A) x : S (length pre) = length (pre ++ [x]).
Proof. rewrite length_app. simpl. lia. Qed.

Lemma translateEntries_loop total rest : forall pre i w,
  translateEntries cfg outputPath total i (translatable_positions (length pre) rest)
                   (pre ++ rest) w
  = rewrite_loop cfg outputPath snd prop_update render_all total i
                 (prop_items (length pre) rest) (pre ++ rest) w.
Proof.
  induction rest as [|e rest IH]; intros pre i w; [done|].
  destruct e as [c idx|k v ol idx]; cbn [translatable_positions prop_items translatable].
  - rewrite (length_snoc pre (Comment c idx)), (snoc_middle pre _ rest). apply IH.
  - destruct (0 <? length v);
      [|rewrite (length_snoc pre (Property k v ol idx)), (snoc_middle pre _ rest); apply IH].
    cbn [translateEntries rewrite_loop snd]. rewrite list_lookup_middle by done.
    destruct (translateText cfg v w) as [[t|e] w1].
    + rewrite prop_update_middle. rewrite insert_app_r_alt, Nat.sub_diag by lia.
      cbn [insert list_insert]. unfold render_all.
      rewrite (length_snoc pre (Property k t ol idx)), (snoc_middle pre _ rest). apply IH.
    + rewrite (length_snoc pre (Property k v ol idx)), (snoc_middle pre _ rest). apply IH.
Qed.

Lemma prop_stored rest : forall pre outs,
  length outs = length (prop_items (length pre) rest) ->
  fold_left (stored prop_update) (zip (prop_items (length pre) rest) outs) (pre ++ rest)
  = pre ++ prop_entries rest outs.
Proof.
  induction rest as [|e rest IH]; intros pre outs; [by destruct outs; rewrite ?app_nil_r|].
  destruct e as [c idx|k v ol idx]; cbn [prop_items prop_entries].
  - rewrite (length_snoc pre (Comment c idx)), (snoc_middle pre _ rest),
      (snoc_middle pre _ (prop_entries rest outs)). apply IH.
  - destruct (0 <? length v);
      [|rewrite (length_snoc pre (Property k v ol idx)), (snoc_middle pre _ rest),
          (snoc_middle pre _ (prop_entries rest outs)); apply IH].
    destruct outs as [|c outs]; [done|]. cbn [length zip zip_with fold_left]. intros [= Hlen].
    assert (stored prop_update (pre ++ Property k v ol idx :: rest) (length pre, v, c)
            = pre ++ Property k (kept_or_translated v c) ol idx :: rest) as ->.
    { destruct c as [t|e]; [|done]. apply prop_update_middle. }
    rewrite (length_snoc pre (Property k (kept_or_translated v c) ol idx)) in *.
    rewrite (snoc_middle pre _ rest), (snoc_middle pre _ (prop_entries rest outs)).
    by apply IH.
Qed.

Lemma prop_items_none entries : forall pos,
  (length (translatable_positions pos entries) =? 0) = forallb (fun e => negb (translatable e)) entries.
Proof.
  induction entries as [|e entries IH]; intros pos; simpl; [done|].
  destruct e as [c i|k v ol i]; simpl; [apply IH|].
  destruct (0 <? length v); simpl; [done|apply IH].
Qed.

Lemma prop_items_texts entries pos : snd <$> prop_items pos entries = prop_texts entries.
Proof.
  unfold prop_texts. generalize 0. revert pos.
  induction entries as [|e entries IH]; intros pos pos'; simpl; [done|].
  destruct e as [c i|k v ol i]; simpl; [apply IH|].
  destruct (0 <? length v); simpl; [f_equal|]; apply IH.
Qed.

(** [translatePropertiesFile] returns normally, and what it leaves on disk
    is this.  When no line is a property with a value, the output file is
    the input, unchanged.  Otherwise the values are translated one after the
    other; when at least one translation returned, the output file holds one
    line per line of the input, joined by line feeds: a comment, blank or
    unreadable line as it was, a property as its key, [=] and its value, the
    value being the translation when it returned; when every translation
    failed, nothing is written. *)
Theorem translatePropertiesFile_result (inputPath : jsstring) (w : World) (content : jsstring) :
  disk w !! inputPath = Some content ->
  let entries := parse_from 0 (split_lines content) in
  let outs := outcomes cfg (calls w) (prop_texts entries) in
  let res := translatePropertiesFile inputPath outputPath cfg w in
  fst res = Normal () /\
  disk (snd res) =
    (if forallb (fun e => negb (translatable e)) entries
     then <[outputPath := content]> (disk w)
     else if existsb returned outs
          then <[outputPath := join [10%N] (render <$> prop_entries entries outs)]> (disk w)
          else disk w).
Proof.
  intros Hin. cbn zeta. unfold translatePropertiesFile, readFile. rewrite Hin. cbn zeta.
  set (entries := parse_from 0 (split_lines content)).
  rewrite prop_items_none.
  destruct (forallb _ entries); [done|].
  rewrite (translateEntries_loop _ entries []).
  pose proof (rewrite_loop_run cfg outputPath snd prop_update render_all
                (length (translatable_positions 0 entries))
                (prop_items 0 entries) 0 entries
                (progressBar_update 0 (length (translatable_positions 0 entries))
                                    (ensureDir_dirname outputPath w))) as [Hst Hdisk].
  cbn zeta in Hst, Hdisk. unfold ensureDir_dirname in *.
  cbn [calls disk progressBar_update] in Hst, Hdisk.
  rewrite prop_items_texts in Hst, Hdisk.
  simpl length. simpl app.
  destruct (rewrite_loop _ _ _ _ _ _ _ _ _ _) as [st w3]. cbn [fst snd] in *.
  split; [done|]. rewrite Hdisk.
  destruct (existsb returned _); [|done].
  rewrite Hst. rewrite (prop_stored entries []); [done|].
  by rewrite length_outcomes, <- (prop_items_texts _ 0), length_fmap.
Qed.

End Driver.

(** The lines stay in number and place; a comment, blank or unreadable line
    is written as it was, a property as its key, [=] and a value. *)
Lemma prop_entries_kept entries : forall outs,
  length (prop_entries entries outs) = length entries /\
  forall i e, entries !! i = Some e ->
    match e with
    | Comment content _ => (render <$> prop_entries entries outs) !! i = Some content
    | Property key value _ _ =>
        exists value', (render <$> prop_entries entries outs) !! i
                       = Some (key ++ js "=" ++ value') /\
                       (value = [] -> value' = [])
    end.
Proof.
  induction entries as [|e entries IH]; intros outs; [done|].
  assert (forall outs' e', length (e' :: prop_entries entries outs') = length (e :: entries))
    as Hlen by (intros; simpl; by rewrite (proj1 (IH _))).
  assert (forall outs' e' i e0,
            (e :: entries) !! S i = Some e0 ->
            match e0 with
            | Comment content _ =>
                (render <$> e' :: prop_entries entries outs') !! S i = Some content
            | Property key value _ _ =>
                exists value', (render <$> e' :: prop_entries entries outs') !! S i
                               = Some (key ++ js "=" ++ value') /\
                               (value = [] -> value' = [])
            end) as Htail by (intros outs' e' i e0 Hi; by apply (proj2 (IH outs'))).
  destruct e as [c idx|k v ol idx]; cbn [prop_entries].
  - split; [apply Hlen|]. intros [|i] e0; [|apply Htail]. by intros [= <-].
  - destruct (0 <? length v) eqn:Hv.
    + destruct outs as [|c outs]; (split; [apply Hlen|]);
        (intros [|i] e0; [|apply Htail]); intros [= <-]; simpl;
        eexists; (split; [reflexivity|]); intros ->; done.
    + split; [apply Hlen|]. intros [|i] e0; [|apply Htail]. intros [= <-]. simpl.
      exists v. by split.
Qed.

Lemma translatePropertiesFile_result_witness :
  let content := js "# greetings" ++ [13; 10]%N ++ js "hello = Hello" ++ [10]%N
                 ++ js "bye: &cBye " in
  disk (snd (@translatePropertiesFile (failing_at 0) (js "in.properties")
               (js "out.properties") cfg0 (on_disk (js "in.properties") content)))
    !! js "out.properties"
  = Some (js "# greetings" ++ [10]%N ++ js "hello=Hello" ++ [10]%N ++ js "bye=DE:&cBye").
Proof.
  cbn zeta.
  destruct (@translatePropertiesFile_result (failing_at 0) cfg0 (js "out.properties")
              (js "in.properties")
              (on_disk (js "in.properties")
                 (js "# greetings" ++ [13; 10]%N ++ js "hello = Hello" ++ [10]%N
                  ++ js "bye: &cBye "))
              (js "# greetings" ++ [13; 10]%N ++ js "hello = Hello" ++ [10]%N
               ++ js "bye: &cBye ") eq_refl) as [_ ->].
  vm_compute. reflexivity.
Defined.

End PropertiesFacts.

(** ** iniHandler.js: the driver is the YAML driver, but for the empty case *)

Module IniFacts.
Import JS Utils Translator Document Spec Walks Notions JSFacts DocumentFacts.

Local Open Scope nat_scope.

Lemma ini_collect_yaml obj : forall self parent key,
  parent_truthy parent && key_not_null key = true \/ (forall s, obj <> VStr s) ->
  IniHandler.collectTranslatableValues obj self parent key
  = YamlHandler.collectTranslatableValues obj self parent key.
Proof.
  induction obj as [c|s|items IH|props IH] using jsvalue_ind; intros self parent key Hok;
    cbn [IniHandler.collectTranslatableValues YamlHandler.collectTranslatableValues].
  - done.
  - destruct Hok as [-> | Hok]; [done|]. by destruct (Hok s).
  - rewrite !forEach_iwalk. apply iwalk_ext. intros k x Hk. cbn beta.
    rewrite Forall_lookup in IH. apply (IH k x Hk). by left.
  - rewrite !forEntries_iwalk. apply iwalk_ext. intros k x Hk. cbn beta.
    rewrite Forall_lookup in IH. apply (IH k x Hk). by left.
Qed.

Section Driver.
Context `{Remote} `{Codec} (cfg : config).

(** On a parsed document that is not a bare string, which is every document
    that the INI parser returns, the INI driver extracts the units of the
    YAML extractor, and then does what the YAML driver does; only when there
    is no unit does it differ: it writes the content of the input to the
    output path. *)
Theorem translateIniFile_as_yaml (inputPath outputPath : jsstring) (w : World)
    (content : jsstring) (doc : jsvalue) :
  disk w !! inputPath = Some content -> parse content = Normal doc ->
  (forall s, doc <> VStr s) ->
  IniHandler.collectTranslatableValues doc [] None None = extract Yaml doc /\
  IniHandler.translateIniFile inputPath outputPath cfg w =
    match extract Yaml doc with
    | [] => (Normal (), writeFile outputPath content w)
    | _ :: _ => YamlHandler.translateYamlFile inputPath outputPath cfg w
    end.
Proof.
  intros Hin Hparse Hdoc.
  assert (IniHandler.collectTranslatableValues doc [] None None = extract Yaml doc) as Hsame
    by (apply ini_collect_yaml; by right).
  split; [done|].
  unfold IniHandler.translateIniFile, YamlHandler.translateYamlFile, readFile.
  rewrite Hin, Hparse, Hsame. cbn zeta. unfold extract.
  by destruct (YamlHandler.collectTranslatableValues doc [] None None).
Qed.

End Driver.

Lemma translateIniFile_as_yaml_witness :
  @IniHandler.translateIniFile (failing_at 1) (fixture_codec three_leaves)
     (js "in.ini") (js "out.ini") cfg0 (on_disk (js "in.ini") (js "x"))
  = @YamlHandler.translateYamlFile (failing_at 1) (fixture_codec three_leaves)
     (js "in.ini") (js "out.ini") cfg0 (on_disk (js "in.ini") (js "x")).
Proof.
  destruct (@translateIniFile_as_yaml (failing_at 1) (fixture_codec three_leaves) cfg0
              (js "in.ini") (js "out.ini") (on_disk (js "in.ini") (js "x")) (js "x")
              three_leaves eq_refl eq_refl) as [_ Hrun]; [done|].
  exact Hrun.
Defined.

End IniFacts.

(** ** tomlHandler.js: a string value can be read back *)

Module TomlFacts.
Import JS TomlWriter Notions.

Local Open Scope N_scope.

Lemma replace_each_app c rep s t :
  replace_each c rep (s ++ t) = replace_each c rep s ++ replace_each c rep t.
Proof. unfold replace_each. apply flat_map_app. Qed.

(** The two replacements together escape each character on its own. *)
Lemma escaped_units s :
  replace_each 34 [92; 34] (replace_each 92 [92; 92] s) = flat_map escape_unit s.
Proof.
  induction s as [|c s IH]; [done|].
  change (replace_each 92 [92; 92] (c :: s))
    with ((if c =? 92 then [92; 92] else [c]) ++ replace_each 92 [92; 92] s).
  rewrite replace_each_app, IH. cbn [flat_map]. f_equal. unfold escape_unit.
  destruct (c =? 92) eqn:E92; [done|]. unfold replace_each. simpl.
  by destruct (c =? 34).
Qed.

Lemma read_escaped s tail :
  read_quoted (flat_map escape_unit s ++ 34 :: tail) = Some (s, tail).
Proof.
  induction s as [|c s IH]; [done|].
  cbn [flat_map]. unfold escape_unit at 1.
  destruct (c =? 92) eqn:E92.
  - apply N.eqb_eq in E92 as ->. simpl. by rewrite IH.
  - destruct (c =? 34) eqn:E34.
    + apply N.eqb_eq in E34 as ->. simpl. by rewrite IH.
    + cbn [app read_quoted]. rewrite E34, E92, IH. done.
Qed.

(** What [formatTomlValue] writes for a string starts with a double quote,
    and a reader that knows the two escapes reads the string back from what
    follows, up to the closing quote, whatever comes after it. *)
Theorem formatTomlValue_string_read (value tail : jsstring) :
  exists body,
    formatTomlValue_string value = 34 :: body /\
    read_quoted (body ++ tail) = Some (value, tail).
Proof.
  exists (flat_map escape_unit value ++ [34]). unfold formatTomlValue_string.
  rewrite escaped_units. split; [done|].
  rewrite <- app_assoc. apply read_escaped.
Qed.

End TomlFacts.

(** ** snbtHandler.js: the quoted strings, and a file that is never written *)

Module SnbtFacts.
Import JS Utils Translator Document SnbtHandler Spec Notions JSFacts.

Local Open Scope nat_scope.

Lemma quoted_body_shape s : forall n,
  quoted_body s = Some n ->
  n <= length s /\ exists body, take n s = body ++ [34%N] /\ n = length body + 1.
Proof.
  remember (length s) as len eqn:Hlen. revert s Hlen.
  induction (lt_wf len) as [len _ IH]. intros s -> n.
  destruct s as [|c s]; [done|]. cbn [quoted_body].
  destruct (c =? 34)%N eqn:E34.
  - apply N.eqb_eq in E34 as ->. intros [= <-]. simpl. split; [lia|].
    exists []. rewrite take_0. done.
  - destruct (c =? 92)%N.
    + destruct s as [|d s]; [done|]. destruct (is_line_terminator d); [done|].
      destruct (quoted_body s) as [m|] eqn:E; [|done]. intros [= <-].
      destruct (IH (length s) ltac:(simpl; lia) s eq_refl m E) as (Hm & body & Htake & ->).
      simpl. split; [lia|]. exists (c :: d :: body). split; [by rewrite Htake|simpl; lia].
    + destruct (quoted_body s) as [m|] eqn:E; [|done]. intros [= <-].
      destruct (IH (length s) ltac:(simpl; lia) s eq_refl m E) as (Hm & body & Htake & ->).
      simpl. split; [lia|]. exists (c :: body). split; [by rewrite Htake|simpl; lia].
Qed.

Lemma match_quoted_shape s n :
  match_quoted s = Some n ->
  n <= length s /\ exists body, take n s = 34%N :: body ++ [34%N] /\ n = length body + 2.
Proof.
  destruct s as [|c s]; [done|]. cbn [match_quoted].
  destruct (c =? 34)%N eqn:E34; [|done]. apply N.eqb_eq in E34 as ->.
  destruct (quoted_body s) as [m|] eqn:E; [|done]. intros [= <-].
  apply quoted_body_shape in E as (Hm & body & Htake & ->).
  simpl. split; [lia|]. exists body. split; [by rewrite Htake|lia].
Qed.

Lemma scan_quoted_spec : forall s skip,
  skip <= length s ->
  interleaved (scan_quoted skip s) (drop skip s) /\
  Forall (fun q => exists body, q = 34%N :: body ++ [34%N]) (scan_quoted skip s).
Proof.
  induction s as [|c s IH]; intros skip Hskip.
  - destruct skip; simpl; [|split; constructor]. split; constructor.
  - destruct skip as [|k]; [|apply IH; simpl in Hskip; lia].
    cbn [scan_quoted drop].
    destruct (match_quoted (c :: s)) as [n|] eqn:E.
    + apply match_quoted_shape in E as (Hn & body & Htake & ->).
      replace (length body + 2) with (S (S (length body))) in * by lia.
      cbn [Nat.pred]. simpl in Hn.
      destruct (IH (S (length body))) as [Hi Hq]; [lia|]. split.
      * assert (interleaved ((c :: take (S (length body)) s) :: scan_quoted (S (length body)) s)
                            ([] ++ (c :: take (S (length body)) s) ++ drop (S (length body)) s))
          as Hi' by by constructor.
        simpl in Hi'. rewrite take_drop in Hi'. exact Hi'.
      * constructor; [by exists body|done].
    + destruct (IH 0) as [Hi Hq]; [lia|]. split; [|done].
      rewrite drop_0 in Hi. by apply (ProtectFacts.interleaved_gap _ s [c]).
Qed.

(** Every string that [extractQuotedStrings] returns is a text between two
    double quotes, and the strings lie in the content in the order in which
    they are returned, without overlap. *)
Theorem extractQuotedStrings_quoted (content : jsstring) :
  Forall (fun q => exists body, q = 34%N :: body ++ [34%N]) (extractQuotedStrings content) /\
  interleaved (extractQuotedStrings content) content.
Proof.
  destruct (scan_quoted_spec content 0) as [Hi Hq]; [lia|]. split; [done|].
  by rewrite drop_0 in Hi.
Qed.

Section Driver.
Context `{Remote} (cfg : config) (outputPath : jsstring).

Lemma translateStrings_blank total strings : forall i st w,
  Forall (fun q => blank (slice_1_minus_1 q) = true) strings ->
  let res := translateStrings cfg outputPath total i strings st w in
  translatedContent (fst res) = translatedContent st /\
  disk (snd res) = disk w /\ calls (snd res) = calls w /\ slept (snd res) = slept w.
Proof.
  induction strings as [|q strings IH]; intros i st w Hall; cbn zeta; [done|].
  apply Forall_cons in Hall as [Hq Hall]. cbn [translateStrings].
  rewrite trim_length_pos, Hq. cbn [negb].
  destruct (bool_decide _).
  - destruct (IH (S i) st (progressBar_update (i + 1) total w) Hall) as (? & ? & ? & ?). done.
  - match goal with
    | |- context [translateStrings _ _ _ _ _ ?st1 ?w1] =>
        destruct (IH (S i) st1 w1 Hall) as (? & ? & ? & ?)
    end. done.
Qed.

(** When the file holds quoted strings, but each of them is empty or blank
    between its quotes, [translateSnbtFile] returns normally without sending
    a request and without writing anything: the output file is not created,
    whereas a file without any quoted string is copied to the output
    path. *)
Theorem translateSnbtFile_blank_strings (inputPath : jsstring) (w : World)
    (content : jsstring) :
  disk w !! inputPath = Some content ->
  Forall (fun q => blank (slice_1_minus_1 q) = true) (extractQuotedStrings content) ->
  let res := translateSnbtFile inputPath outputPath cfg w in
  fst res = Normal () /\ calls (snd res) = calls w /\
  disk (snd res) =
    match extractQuotedStrings content with
    | [] => <[outputPath := content]> (disk w)
    | _ :: _ => disk w
    end.
Proof.
  intros Hin Hblank. cbn zeta. unfold translateSnbtFile, readFile. rewrite Hin. cbn zeta.
  destruct (extractQuotedStrings content) as [|q strings] eqn:E; [done|].
  cbn [length Nat.eqb].
  match goal with
  | |- context [translateStrings _ _ ?total ?i ?strs ?st1 ?w1] =>
      destruct (translateStrings_blank total strs i st1 w1 Hblank) as (_ & Hd & Hc & _);
      destruct (translateStrings cfg outputPath total i strs st1 w1) as [st' w3]
  end.
  done.
Qed.

End Driver.

Lemma translateSnbtFile_blank_strings_witness :
  let content := js "{name: " ++ [34; 34]%N ++ js ", lore: " ++ [34; 32; 34]%N ++ js "}" in
  disk (snd (@translateSnbtFile flaky (js "in.snbt") (js "out.snbt") cfg0
               (on_disk (js "in.snbt") content))) !! js "out.snbt" = None.
Proof.
  cbn zeta.
  destruct (@translateSnbtFile_blank_strings flaky cfg0 (js "out.snbt") (js "in.snbt")
              (on_disk (js "in.snbt")
                 (js "{name: " ++ [34; 34]%N ++ js ", lore: " ++ [34; 32; 34]%N ++ js "}"))
              (js "{name: " ++ [34; 34]%N ++ js ", lore: " ++ [34; 32; 34]%N ++ js "}")
              eq_refl) as (_ & _ & ->).
  - apply (bool_decide_unpack _). vm_compute. reflexivity.
  - vm_compute. reflexivity.
Defined.

End SnbtFacts.
